(** * VibeDuet: the live-session engine of [ArenaView] and the start flow of
    [HomeView], embedded from [src/components/HomeView.tsx].

    The development follows the source file top to bottom: the audio
    utilities, the capture handler, the playback scheduler of [onmessage],
    the mount effect's cleanup, the canvas coordinate logic, the session
    result handed to [onEnd], and [handleStartInteraction].  The times of
    the playback scheduler are JavaScript numbers: their quotients and
    sums are rounded to binary64. *)

From Stdlib Require Import ZArith QArith Qround List String Ascii Lia Bool.
From Stdlib Require Import DecimalString Qminmax Qabs Qpower Lqa.
From stdpp Require Import gmap list.
Import ListNotations.

Local Open Scope Z_scope.

(* ====================================================================== *)
(** ** JavaScript values used by the source *)
(* ====================================================================== *)

Module Js.

(** A JS string is a sequence of UTF-16 code units. *)
Abbreviation jsstring := (list N).

(** A string literal of the source (ASCII only). *)
Definition lit (s : string) : jsstring :=
  map N_of_ascii (list_ascii_of_string s).

(** Truthiness of a string: only the empty string is falsy. *)
Definition truthy (s : jsstring) : bool :=
  match s with [] => false | _ :: _ => true end.

(** ECMAScript WhiteSpace and LineTerminator code units, the ones
    [String.prototype.trim] strips. *)
Definition isWhiteSpace (c : N) : bool :=
  ((9 <=? c) && (c <=? 13) || (c =? 32) || (c =? 160) || (c =? 5760)
   || (8192 <=? c) && (c <=? 8202) || (c =? 8232) || (c =? 8233)
   || (c =? 8239) || (c =? 8287) || (c =? 12288) || (c =? 65279))%N.

Fixpoint trimStart (s : jsstring) : jsstring :=
  match s with
  | [] => []
  | c :: rest => if isWhiteSpace c then trimStart rest else s
  end.

Definition trimEnd (s : jsstring) : jsstring := rev (trimStart (rev s)).

Definition trim (s : jsstring) : jsstring := trimEnd (trimStart s).

(** [Number.prototype.toString] on a non-negative integer. *)
Definition toString (n : N) : jsstring :=
  lit (NilZero.string_of_uint (N.to_uint n)).

(** [String.prototype.padStart(targetLength, padString)] with a one
    code unit pad string: nothing is cut when the string is longer. *)
Definition padStart (s : jsstring) (targetLength : nat) (pad : N) : jsstring :=
  repeat pad (targetLength - length s) ++ s.

(** [Array.prototype.slice(start, end)]: negative indices count from the
    end, and both are clamped to the array. *)
Definition relIndex (len k : Z) : Z :=
  if k <? 0 then Z.max (len + k) 0 else Z.min k len.

Definition slice {A} (l : list A) (start end_ : Z) : list A :=
  let len := Z.of_nat (length l) in
  let from := relIndex len start in
  let to := relIndex len end_ in
  take (Z.to_nat (to - from)) (drop (Z.to_nat from) l).

(** A JS number as far as the audio path needs it: a finite value, an
    infinity, or NaN.  Finite values are kept exact; every product the
    source forms on this path (a float32 sample times a 15 or 16 bit
    constant) is exact in binary64, so no rounding is lost. *)
Inductive number := NaN | PosInf | NegInf | Fin (q : Q).

Definition lt (a b : number) : bool :=
  match a, b with
  | NaN, _ | _, NaN => false
  | PosInf, _ => false
  | _, NegInf => false
  | NegInf, _ => true
  | _, PosInf => true
  | Fin x, Fin y => if Qlt_le_dec x y then true else false
  end.

Definition Math_min (a b : number) : number :=
  match a, b with
  | NaN, _ | _, NaN => NaN
  | _, _ => if lt b a then b else a
  end.

Definition Math_max (a b : number) : number :=
  match a, b with
  | NaN, _ | _, NaN => NaN
  | _, _ => if lt a b then b else a
  end.

Definition sgn (q : Q) : Z := Z.sgn (Qnum q).

Definition mul (a b : number) : number :=
  match a, b with
  | NaN, _ | _, NaN => NaN
  | Fin x, Fin y => Fin (x * y)
  | Fin x, PosInf | PosInf, Fin x =>
      match sgn x with 0 => NaN | Zpos _ => PosInf | Zneg _ => NegInf end
  | Fin x, NegInf | NegInf, Fin x =>
      match sgn x with 0 => NaN | Zpos _ => NegInf | Zneg _ => PosInf end
  | PosInf, PosInf | NegInf, NegInf => PosInf
  | PosInf, NegInf | NegInf, PosInf => NegInf
  end.

(** Truncation toward zero, the integer part used by ToInt16. *)
Definition truncate (q : Q) : Z := Z.quot (Qnum q) (Zpos (Qden q)).

(** ToInt16: NaN and the infinities go to 0, the rest is truncated and
    wrapped into the signed 16-bit range. *)
Definition ToInt16 (v : number) : Z :=
  match v with
  | Fin q =>
      let u := truncate q mod 65536 in
      if u <? 32768 then u else u - 65536
  | _ => 0
  end.

End Js.

(* ====================================================================== *)
(** ** Audio utilities (encoding and decoding) *)
(* ====================================================================== *)

Module Audio.
Import Js.

(** An [ArrayBuffer] is its bytes, each in [0, 255]. *)
Abbreviation ArrayBuffer := (list Z).

(** [DataView.prototype.setInt16(byteOffset, value, littleEndian)]:
    a RangeError ([None]) when the two bytes do not fit in the buffer. *)
Definition setInt16 (buf : ArrayBuffer) (byteOffset : nat) (value : number)
    (littleEndian : bool) : option ArrayBuffer :=
  if (byteOffset + 2 <=? length buf)%nat then
    let u := ToInt16 value mod 65536 in
    let lo := u mod 256 in
    let hi := u / 256 in
    Some (if littleEndian
          then <[S byteOffset := hi]> (<[byteOffset := lo]> buf)
          else <[S byteOffset := lo]> (<[byteOffset := hi]> buf))
  else None.

(** The body of the [for] loop of [floatTo16BitPCM], from index [i] on:
    [samples] are the elements not yet visited and [offset] is the
    running byte offset. *)
Fixpoint floatTo16BitPCM_loop (samples : list number) (offset : nat)
    (view : ArrayBuffer) : option ArrayBuffer :=
  match samples with
  | [] => Some view
  | x :: rest =>
      let s := Math_max (Fin (-1)) (Math_min (Fin 1) x) in
      match setInt16 view offset
              (if lt s (Fin 0) then mul s (Fin 32768) else mul s (Fin 32767))
              true with
      | Some view' => floatTo16BitPCM_loop rest (offset + 2) view'
      | None => None
      end
  end.

(** [floatTo16BitPCM]: a zero-filled buffer of twice the length, filled
    by the loop. *)
Definition floatTo16BitPCM (float32Array : list number) : option ArrayBuffer :=
  floatTo16BitPCM_loop float32Array 0
    (repeat 0 (length float32Array * 2)).

(** A signed 16-bit integer read back from two little-endian bytes, as
    [Int16Array] and [getInt16(_, true)] read it. *)
Definition int16_of_le (lo hi : Z) : Z :=
  let u := lo + 256 * hi in
  if u <? 32768 then u else u - 65536.

(** [new Int16Array(buffer)]: a RangeError ([None]) when the byte length
    is not a multiple of 2. *)
Fixpoint Int16Array (bytes : ArrayBuffer) : option (list Z) :=
  match bytes with
  | [] => Some []
  | [_] => None
  | lo :: hi :: rest =>
      match Int16Array rest with
      | Some l => Some (int16_of_le lo hi :: l)
      | None => None
      end
  end.

Section Base64.
(** The platform's [atob] and [btoa].  [atob] throws ([None]) on a
    string that is not base64; its result is a binary string. *)
Variable atob : jsstring -> option jsstring.
Variable btoa : jsstring -> jsstring.

(** [base64ToUint8Array]: each element is stored modulo 256. *)
Definition base64ToUint8Array (base64 : jsstring) : option ArrayBuffer :=
  match atob base64 with
  | Some binaryString => Some (map (fun c => Z.of_N c mod 256) binaryString)
  | None => None
  end.

(** [arrayBufferToBase64]: one code unit per byte, then [btoa]. *)
Definition arrayBufferToBase64 (buffer : ArrayBuffer) : jsstring :=
  btoa (map Z.to_N buffer).
End Base64.

(** The value the prose of the specification assigns to a finite
    sample: clamp to [-1, 1], then scale by 32767 when non-negative and
    by 32768 when negative; the integer written drops the fraction. *)
Definition pcm_of_sample (q : Q) : Z :=
  let c := Qmax (-1) (Qmin 1 q) in
  truncate (if Qlt_le_dec c 0 then c * 32768 else c * 32767).

(** The same for every value a [Float32Array] can hold: the infinities
    clamp to the ends of the range, NaN is written as 0. *)
Definition pcm_of_number (x : number) : Z :=
  match x with
  | Fin q => pcm_of_sample q
  | PosInf => 32767
  | NegInf => -32768
  | NaN => 0
  end.

(** The value handed to [setInt16] for one sample. *)
Definition scaled (x : number) : number :=
  let s := Math_max (Fin (-1)) (Math_min (Fin 1) x) in
  if lt s (Fin 0) then mul s (Fin 32768) else mul s (Fin 32767).

End Audio.

(* ====================================================================== *)
(** ** Audio capture: [processor.onaudioprocess] and the mute flag *)
(* ====================================================================== *)

Module Capture.
Import Js Audio.

(** The [media] object handed to [session.sendRealtimeInput]. *)
Record TransportPayload := { mimeType : jsstring; data : jsstring }.

(** What the capture path reads and writes.  A closure of the source is
    kept as the value of [isMuted] it captured when its render ran:
    [connectToLiveAPI] closes over the [isMuted] of the render that
    created it, and the [onaudioprocess] handler installed by its
    [onopen] closes over the same variable. *)
Record state := {
  isMuted : bool;                  (* the React state *)
  volumeLevel : number;
  connecting : option bool;        (* a connectToLiveAPI call in flight,
                                      with its captured isMuted *)
  onaudioprocess : option bool;    (* the installed handler, with its
                                      captured isMuted *)
  outbound : list TransportPayload (* payloads sent, oldest first *)
}.

Inductive event :=
| ToggleMute                           (* onClick: setIsMuted(!isMuted) *)
| Retry                                (* onClick: connectToLiveAPI() *)
| Open                                 (* callbacks.onopen *)
| AudioProcess (inputData : list number).

(** The component after its first render and the mount effect:
    [useState(false)] for [isMuted], and the effect has called the
    first render's [connectToLiveAPI]. *)
Definition mounted : state :=
  {| isMuted := false; volumeLevel := Fin 0;
     connecting := Some false; onaudioprocess := None; outbound := [] |}.

Section Handler.
Variable btoa : jsstring -> jsstring.
(** The root mean square of a frame as the loop at lines 442-444
    computes it in binary64. *)
Variable rms : list number -> number.

(** The body of [processor.onaudioprocess], in a closure whose
    [isMuted] is [captured]. *)
Definition handler (captured : bool) (inputData : list number)
    (s : state) : state :=
  if captured then s
  else
    let s1 := {| isMuted := isMuted s; volumeLevel := rms inputData;
                 connecting := connecting s;
                 onaudioprocess := onaudioprocess s;
                 outbound := outbound s |} in
    match floatTo16BitPCM inputData with
    | Some pcmData =>
        let base64Data := arrayBufferToBase64 btoa pcmData in
        {| isMuted := isMuted s1; volumeLevel := volumeLevel s1;
           connecting := connecting s1;
           onaudioprocess := onaudioprocess s1;
           outbound := outbound s1 ++
             [{| mimeType := lit "audio/pcm;rate=16000";
                 data := base64Data |}] |}
    | None => s1
    end.

Definition step (s : state) (e : event) : state :=
  match e with
  | ToggleMute =>
      {| isMuted := negb (isMuted s); volumeLevel := volumeLevel s;
         connecting := connecting s; onaudioprocess := onaudioprocess s;
         outbound := outbound s |}
  | Retry =>
      {| isMuted := isMuted s; volumeLevel := volumeLevel s;
         connecting := Some (isMuted s);
         onaudioprocess := onaudioprocess s; outbound := outbound s |}
  | Open =>
      match connecting s with
      | Some captured =>
          {| isMuted := isMuted s; volumeLevel := volumeLevel s;
             connecting := None; onaudioprocess := Some captured;
             outbound := outbound s |}
      | None => s
      end
  | AudioProcess inputData =>
      match onaudioprocess s with
      | Some captured => handler captured inputData s
      | None => s
      end
  end.

Definition run (s : state) (es : list event) : state := fold_left step es s.
End Handler.

End Capture.

(* ====================================================================== *)
(** ** The arithmetic of JavaScript numbers on the audio clock *)
(* ====================================================================== *)

(** A JavaScript number is an IEEE 754 binary64 value and every [+] and
    [/] rounds its exact result to the nearest one, ties to the even
    significand.  Finite numbers are kept as the rationals they denote
    and [binary64] is that rounding.  The exponent range is not bounded:
    the times of an audio clock, in seconds, stay far from the overflow
    and subnormal thresholds. *)
Module Binary64.
Local Open Scope Q_scope.

(** The nearest integer, ties to even. *)
Definition rne (x : Q) : Z :=
  let f := Qfloor x in
  match (x - inject_Z f ?= 1 # 2)%Q with
  | Lt => f
  | Gt => (f + 1)%Z
  | Eq => if Z.even f then f else (f + 1)%Z
  end.

(** The binary exponent of a positive number: [2 ^ e <= q < 2 ^ (e + 1)]. *)
Definition ilog2 (q : Q) : Z :=
  let k := (Z.log2 (Qnum q) - Z.log2 (Zpos (Qden q)))%Z in
  if Qle_bool (2 ^ k)%Q q then k else (k - 1)%Z.

(** The unit in the last place of a 53-bit significand. *)
Definition ulp (q : Q) : Q := 2 ^ (ilog2 q - 52).

Definition round_pos (q : Q) : Q := inject_Z (rne (q / ulp q)) * ulp q.

Definition binary64 (q : Q) : Q :=
  match q ?= 0 with
  | Eq => 0
  | Gt => round_pos q
  | Lt => - round_pos (- q)
  end.

(** The rationals that are binary64 values. *)
Definition is_binary64 (q : Q) : Prop := binary64 q == q.

(** Half a unit in the last place, relative to the magnitude. *)
Definition epsilon : Q := 2 ^ (-53).

End Binary64.

(* ====================================================================== *)
(** ** Audio playback: the [onmessage] callback *)
(* ====================================================================== *)

Module Playback.
Import Js Audio.

(** What [onmessage] reads of a [LiveServerMessage]:
    [serverContent?.modelTurn?.parts?.[0]?.inlineData?.data]
    ([None] when any link is missing), [serverContent?.turnComplete] and
    [serverContent?.interrupted] (as truthiness). *)
Record LiveServerMessage := {
  audioData : option jsstring;
  turnComplete : bool;
  interrupted : bool
}.

(** A message together with the two clocks the handler reads while it
    runs: [ctx.currentTime] and [Date.now()]. *)
Record arrival := {
  msg : LiveServerMessage;
  currentTime : Q;
  dateNow : Z
}.

(** An [AudioBufferSourceNode] after [start(when)]: its buffer, its start
    time on the output clock, and whether [stop()] was called on it. *)
Record AudioBufferSourceNode := {
  buffer : list Q;
  when : Q;
  stopped : bool
}.

(** [buffer.duration] at the 24 kHz of [createBuffer]: the number of
    frames divided by the sample rate, as a number. *)
Definition duration (n : AudioBufferSourceNode) : Q :=
  Binary64.binary64 (inject_Z (Z.of_nat (length (buffer n))) / 24000).

Record TranscriptEntry := {
  role : jsstring;
  text : jsstring;
  timestamp : Z
}.

(** The refs and states [onmessage] touches.  Source nodes are objects
    shared between the audio graph and [sourceNodesRef]: [nodes] is the
    heap of the nodes created so far (a node's identity is its index)
    and [sourceNodes] the set of identities in the [Set]. *)
Record state := {
  isAiSpeaking : bool;
  nextStartTime : Q;
  sourceNodes : gset nat;
  nodes : list AudioBufferSourceNode;
  transcript : list TranscriptEntry
}.

Inductive error :=
| InvalidCharacterError        (* atob *)
| RangeError                   (* new Int16Array on an odd byte length *)
| NotSupportedError.           (* createBuffer with no frame *)

Inductive outcome := Returned | Thrown (e : error).

Definition stop (n : AudioBufferSourceNode) : AudioBufferSourceNode :=
  {| buffer := buffer n; when := when n; stopped := true |}.

(** [sourceNodesRef.current.forEach(node => node.stop())]: the nodes of
    the set are stopped one after the other. *)
Definition stopAll (ids : list nat) (heap : list AudioBufferSourceNode)
    : list AudioBufferSourceNode :=
  fold_left (fun h id => alter stop id h) ids heap.

Section Handler.
Variable atob : jsstring -> option jsstring.

(** Lines 469-480: the payload decoded to the samples of the
    [AudioBuffer], or the exception thrown on the way. *)
Definition decode (audioData : jsstring) : error + list Q :=
  match base64ToUint8Array atob audioData with
  | None => inl InvalidCharacterError
  | Some byteArr =>
      match Int16Array byteArr with
      | None => inl RangeError
      | Some dataInt16 =>
          let float32 := map (fun v => (inject_Z v / 32768)%Q) dataInt16 in
          match float32 with
          | [] => inl NotSupportedError
          | _ :: _ => inr float32
          end
      end
  end.

(** The audio branch (lines 466-503).  [start(when)] rejects a negative
    time; none is ever passed, the cursor being 0 or a sum of clock
    readings and durations.  [nextStartTimeRef.current += buffer.duration]
    stores the rounded sum. *)
Definition handleAudio (a : arrival) (s : state) : outcome * state :=
  match audioData (msg a) with
  | Some d =>
      if truthy d then
        let s1 := {| isAiSpeaking := true;
                     nextStartTime := nextStartTime s;
                     sourceNodes := sourceNodes s; nodes := nodes s;
                     transcript := transcript s |} in
        match decode d with
        | inl e => (Thrown e, s1)
        | inr float32 =>
            let next :=
              if Qlt_le_dec (nextStartTime s1) (currentTime a)
              then currentTime a else nextStartTime s1 in
            let audioSource :=
              {| buffer := float32; when := next; stopped := false |} in
            (Returned,
             {| isAiSpeaking := isAiSpeaking s1;
                nextStartTime :=
                  Binary64.binary64 (next + duration audioSource);
                sourceNodes := sourceNodes s1 ∪ {[ length (nodes s1) ]};
                nodes := nodes s1 ++ [audioSource];
                transcript := transcript s1 |})
        end
      else (Returned, s)
  | None => (Returned, s)
  end.

(** The turn-complete branch (lines 506-514). *)
Definition handleTurnComplete (a : arrival) (s : state) : state :=
  if turnComplete (msg a) then
    {| isAiSpeaking := isAiSpeaking s; nextStartTime := nextStartTime s;
       sourceNodes := sourceNodes s; nodes := nodes s;
       transcript := transcript s ++
         [{| role := lit "model"; text := lit "(Audio Response)";
             timestamp := dateNow a |}] |}
  else s.

(** The interruption branch (lines 517-525). *)
Definition handleInterrupted (a : arrival) (s : state) : state :=
  if interrupted (msg a) then
    {| isAiSpeaking := false; nextStartTime := 0;
       sourceNodes := ∅;
       nodes := stopAll (elements (sourceNodes s)) (nodes s);
       transcript := transcript s |}
  else s.

(** [onmessage]: the three branches in order; an exception of the
    audio branch leaves the rest of the handler unexecuted. *)
Definition onmessage (s : state) (a : arrival) : outcome * state :=
  match handleAudio a s with
  | (Returned, s1) => (Returned, handleInterrupted a (handleTurnComplete a s1))
  | (Thrown e, s1) => (Thrown e, s1)
  end.

(** [audioSource.onended] of node [id]. *)
Definition onended (id : nat) (s : state) : state :=
  let live := sourceNodes s ∖ {[ id ]} in
  {| isAiSpeaking := if decide (size live = 0%nat) then false
                     else isAiSpeaking s;
     nextStartTime := nextStartTime s;
     sourceNodes := live; nodes := nodes s;
     transcript := transcript s |}.

(** The channel delivers its messages one by one.  [onmessage] is an
    [async] function: an exception inside it rejects the promise it
    returns and never reaches the dispatcher, which goes on with the
    next message. *)
Definition run (s : state) (l : list arrival) : state :=
  fold_left (fun s a => snd (onmessage s a)) l s.
End Handler.

(** Clips laid end to end from [cursor] on: each starts at or after the
    cursor left by the one before it, which is the rounded sum of that
    clip's start and duration, and [final] is the cursor after the last
    one. *)
Fixpoint back_to_back (cursor : Q) (clips : list AudioBufferSourceNode)
    (final : Q) : Prop :=
  match clips with
  | [] => final = cursor
  | n :: rest =>
      (cursor <= when n)%Q /\
      back_to_back (Binary64.binary64 (when n + duration n)) rest final
  end.

(** The audio branch either leaves the refs alone (no audio in the
    message), or only raises the speaking flag and throws, or schedules
    exactly one new node. *)
Inductive audio_effect (a : arrival) (s : state) : outcome * state -> Prop :=
| audio_none : audio_effect a s (Returned, s)
| audio_thrown e :
    audio_effect a s
      (Thrown e,
       {| isAiSpeaking := true; nextStartTime := nextStartTime s;
          sourceNodes := sourceNodes s; nodes := nodes s;
          transcript := transcript s |})
| audio_scheduled n :
    stopped n = false ->
    (0 < duration n)%Q ->
    ((nextStartTime s < currentTime a)%Q -> when n = currentTime a) ->
    ((currentTime a <= nextStartTime s)%Q -> when n = nextStartTime s) ->
    audio_effect a s
      (Returned,
       {| isAiSpeaking := true;
          nextStartTime := Binary64.binary64 (when n + duration n);
          sourceNodes := sourceNodes s ∪ {[ length (nodes s) ]};
          nodes := nodes s ++ [n];
          transcript := transcript s |}).

Section Clips.
Variable atob : jsstring -> option jsstring.

(** The clip a message carries: the samples of its payload when the
    payload is there, is not the empty string and decodes. *)
Definition clip (a : arrival) : option (list Q) :=
  match audioData (msg a) with
  | Some d =>
      if truthy d then
        match decode atob d with
        | inr float32 => Some float32
        | inl _ => None
        end
      else None
  | None => None
  end.

(** One message without the interruption marker, from [s] to [s'].  A
    message that carries a clip appends exactly one node that plays it,
    started at the cursor after the cursor was snapped forward to the
    clock, and tracks it; the cursor becomes the rounded sum of the
    start and the clip's duration, which is not before the start and
    within half a unit in the last place of the exact sum.  Any other
    message leaves the heap, the set and the cursor alone. *)
Definition step_effect (a : arrival) (s s' : state) : Prop :=
  match clip a with
  | Some float32 =>
      exists n,
        nodes s' = nodes s ++ [n] /\
        sourceNodes s' = sourceNodes s ∪ {[ length (nodes s) ]} /\
        buffer n = float32 /\ stopped n = false /\
        ((nextStartTime s < currentTime a)%Q -> when n = currentTime a) /\
        ((currentTime a <= nextStartTime s)%Q -> when n = nextStartTime s) /\
        nextStartTime s' = Binary64.binary64 (when n + duration n) /\
        (when n <= nextStartTime s')%Q /\
        (Qabs (nextStartTime s' - (when n + duration n))
         <= Qabs (when n + duration n) * Binary64.epsilon)%Q
  | None =>
      nodes s' = nodes s /\ sourceNodes s' = sourceNodes s /\
      nextStartTime s' = nextStartTime s
  end.

(** The clips a run of messages carries, in order. *)
Definition carried (l : list arrival) : list (list Q) :=
  flat_map (fun a => match clip a with Some f => [f] | None => [] end) l.
End Clips.

(** A stand-in for the platform's [atob] in the examples: the payload is
    taken to be the binary string itself. *)
Definition atob_id (s : jsstring) : option jsstring := Some s.

(** A message that carries only audio, and one that carries only the
    interruption marker. *)
Definition audioMessage (d : jsstring) (t : Q) : arrival :=
  {| msg := {| audioData := Some d; turnComplete := false;
               interrupted := false |};
     currentTime := t; dateNow := 0 |}.

(** The payload of a clip of silence: two zero bytes per frame. *)
Definition silence (frames : nat) : jsstring := repeat 0%N (2 * frames).

Definition interruptMessage (t : Q) : arrival :=
  {| msg := {| audioData := None; turnComplete := false;
               interrupted := true |};
     currentTime := t; dateNow := 0 |}.

(** The refs of a freshly mounted component. *)
Definition initial : state :=
  {| isAiSpeaking := false; nextStartTime := 0; sourceNodes := ∅;
     nodes := []; transcript := [] |}.

End Playback.

(* ====================================================================== *)
(** ** Lifecycle: the resources of a session and the mount effect's cleanup *)
(* ====================================================================== *)

Module Lifecycle.

Inductive contextState := running | closed.
Inductive trackState := live | ended.

(** The promise returned by [ai.live.connect]; once fulfilled it holds
    the session, whose channel is open until [close()]. *)
Inductive promise := Pending | Fulfilled (channelOpen : bool) | Rejected.

(** The calls the cleanup and its promise reaction make, in order. *)
Inductive call :=
| Then                 (* sessionPromiseRef.current.then(s => s.close()) *)
| InputClose           (* inputAudioContextRef.current.close() *)
| OutputClose          (* audioContextRef.current.close() *)
| SessionClose.        (* s.close(), inside the reaction *)

(** The three refs, the microphone stream (a local of
    [connectToLiveAPI], reachable by no other code), the reactions
    registered on the session promise and not yet run, and the calls
    made so far. *)
Record state := {
  sessionPromiseRef : option promise;
  reactions : nat;
  inputAudioContextRef : option contextState;
  audioContextRef : option contextState;
  stream : option trackState;
  calls : list call
}.

Definition unmounted_refs : state :=
  {| sessionPromiseRef := None; reactions := 0;
     inputAudioContextRef := None; audioContextRef := None;
     stream := None; calls := [] |}.

(** [connectToLiveAPI], cut at its suspension points.
    Lines 403-409: both contexts are created and stored. *)
Definition createContexts (s : state) : state :=
  {| sessionPromiseRef := sessionPromiseRef s; reactions := reactions s;
     inputAudioContextRef := Some running; audioContextRef := Some running;
     stream := stream s; calls := calls s |}.

(** Line 412 resolved: [getUserMedia] granted the microphone. *)
Definition gotUserMedia (s : state) : state :=
  {| sessionPromiseRef := sessionPromiseRef s; reactions := reactions s;
     inputAudioContextRef := inputAudioContextRef s;
     audioContextRef := audioContextRef s;
     stream := Some live; calls := calls s |}.

(** Lines 417-539: [ai.live.connect] was called and its promise stored. *)
Definition connectSession (s : state) : state :=
  {| sessionPromiseRef := Some Pending; reactions := 0;
     inputAudioContextRef := inputAudioContextRef s;
     audioContextRef := audioContextRef s;
     stream := stream s; calls := calls s |}.

(** The promise settles. *)
Definition settle (fulfilled : bool) (s : state) : state :=
  {| sessionPromiseRef :=
       match sessionPromiseRef s with
       | Some Pending => Some (if fulfilled then Fulfilled true else Rejected)
       | p => p
       end;
     reactions := reactions s;
     inputAudioContextRef := inputAudioContextRef s;
     audioContextRef := audioContextRef s;
     stream := stream s; calls := calls s |}.

(** The cleanup returned by the mount effect (lines 596-606). *)
Definition cleanup (s : state) : state :=
  let s1 :=
    match sessionPromiseRef s with
    | Some _ =>
        {| sessionPromiseRef := sessionPromiseRef s;
           reactions := S (reactions s);
           inputAudioContextRef := inputAudioContextRef s;
           audioContextRef := audioContextRef s;
           stream := stream s; calls := calls s ++ [Then] |}
    | None => s
    end in
  let s2 :=
    match inputAudioContextRef s1 with
    | Some _ =>
        {| sessionPromiseRef := sessionPromiseRef s1;
           reactions := reactions s1;
           inputAudioContextRef := Some closed;
           audioContextRef := audioContextRef s1;
           stream := stream s1; calls := calls s1 ++ [InputClose] |}
    | None => s1
    end in
  match audioContextRef s2 with
  | Some _ =>
      {| sessionPromiseRef := sessionPromiseRef s2;
         reactions := reactions s2;
         inputAudioContextRef := inputAudioContextRef s2;
         audioContextRef := Some closed;
         stream := stream s2; calls := calls s2 ++ [OutputClose] |}
  | None => s2
  end.

(** The microtasks that follow: the reactions of a fulfilled promise
    run [s.close()], those of a rejected one are dropped, those of a
    pending one wait. *)
Definition microtasks (s : state) : state :=
  match sessionPromiseRef s with
  | Some (Fulfilled o) =>
      {| sessionPromiseRef :=
           Some (Fulfilled (match reactions s with O => o | S _ => false end));
         reactions := 0;
         inputAudioContextRef := inputAudioContextRef s;
         audioContextRef := audioContextRef s;
         stream := stream s;
         calls := calls s ++ repeat SessionClose (reactions s) |}
  | Some Rejected =>
      {| sessionPromiseRef := sessionPromiseRef s; reactions := 0;
         inputAudioContextRef := inputAudioContextRef s;
         audioContextRef := audioContextRef s;
         stream := stream s; calls := calls s |}
  | _ => s
  end.

(** Leaving the arena unmounts the component: the cleanup runs, then
    the pending microtasks. *)
Definition teardown (s : state) : state := microtasks (cleanup s).

(** What is still held: an open channel, running contexts, a live
    microphone. *)
Definition channelOpen (s : state) : bool :=
  match sessionPromiseRef s with Some (Fulfilled true) => true | _ => false end.

Definition contextRunning (c : option contextState) : bool :=
  match c with Some running => true | _ => false end.

Definition microphoneLive (s : state) : bool :=
  match stream s with Some live => true | _ => false end.

(** The teardown the specification asks for has released everything. *)
Definition released (s : state) : bool :=
  negb (channelOpen s) && negb (microphoneLive s)
  && negb (contextRunning (inputAudioContextRef s))
  && negb (contextRunning (audioContextRef s)).

(** The four resources as held or not. *)
Definition held (s : state) : bool * bool * bool * bool :=
  (channelOpen s, contextRunning (inputAudioContextRef s),
   contextRunning (audioContextRef s), microphoneLive s).

(** A session in the connected state: everything acquired. *)
Definition connected : state :=
  settle true (connectSession (gotUserMedia (createContexts unmounted_refs))).

End Lifecycle.

(* ====================================================================== *)
(** ** Canvas: coordinates, gestures and the drawing surface *)
(* ====================================================================== *)

Module Canvas.
Import Js.
Local Open Scope Q_scope.

Record point := { x : Q; y : Q }.

(** The [d] attribute of a path is built from [M x y] and [L x y]
    commands only; it is kept as the list of its commands, the empty
    list being the empty string. *)
Inductive command := M (p : point) | L (p : point).

Record path := { d : list command; color : jsstring; width : Z }.
Record note := { note_x : Q; note_y : Q; text : jsstring }.
Record shape := { shape_x : Q; shape_y : Q; shape_color : jsstring }.

Inductive tool := cursor | hand | pen | note_tool | shape_tool.

Record state := {
  scale : Q;
  offset : point;
  viewportSize : Q * Q;             (* w, h *)
  rect : option (Q * Q);            (* getBoundingClientRect: left, top *)
  isDragging : bool;
  dragStart : point;
  activeTool : tool;
  activeColor : jsstring;
  paths : list path;
  currentPath : list command;
  notes : list note;
  shapes : list shape
}.

(** [rect?.left || 0] and [rect?.top || 0]. *)
Definition rectLeft (s : state) : Q :=
  match rect s with Some (l, _) => l | None => 0 end.
Definition rectTop (s : state) : Q :=
  match rect s with Some (_, t) => t | None => 0 end.

(** [screenToWorld] (lines 629-640). *)
Definition screenToWorld (s : state) (screenX screenY : Q) : point :=
  let cx := fst (viewportSize s) / 2 in
  let cy := snd (viewportSize s) / 2 in
  let relX := screenX - rectLeft s in
  let relY := screenY - rectTop s in
  {| x := (relX - cx - x (offset s)) / scale s;
     y := (relY - cy - y (offset s)) / scale s |}.

(** The rendering transform (lines 701-703),
    [translate(cx + offset.x, cy + offset.y) scale(scale)], applied to a
    point of the world container; the result is relative to the canvas
    container. *)
Definition transform (s : state) (p : point) : point :=
  let cx := fst (viewportSize s) / 2 in
  let cy := snd (viewportSize s) / 2 in
  {| x := (cx + x (offset s)) + scale s * x p;
     y := (cy + y (offset s)) + scale s * y p |}.

(** The client position at which a world point is drawn. *)
Definition worldToScreen (s : state) (p : point) : point :=
  {| x := rectLeft s + x (transform s p);
     y := rectTop s + y (transform s p) |}.

Definition set_view (s : state) (k : Q) (o : point) : state :=
  {| scale := k; offset := o; viewportSize := viewportSize s;
     rect := rect s; isDragging := isDragging s; dragStart := dragStart s;
     activeTool := activeTool s; activeColor := activeColor s;
     paths := paths s; currentPath := currentPath s;
     notes := notes s; shapes := shapes s |}.

(** [handleWheel] (lines 642-651). *)
Definition handleWheel (s : state) (ctrlOrMeta : bool) (deltaX deltaY : Q)
    : state :=
  if ctrlOrMeta then
    let zoomSensitivity := 1 # 1000 in
    let newScale :=
      Qmin (Qmax (1 # 10) (scale s - deltaY * zoomSensitivity)) 5 in
    set_view s newScale (offset s)
  else
    set_view s (scale s)
      {| x := x (offset s) - deltaX; y := y (offset s) - deltaY |}.

Definition set_content (s : state) (t : tool) (ps : list path)
    (cur : list command) (ns : list note) (ss : list shape) : state :=
  {| scale := scale s; offset := offset s; viewportSize := viewportSize s;
     rect := rect s; isDragging := isDragging s; dragStart := dragStart s;
     activeTool := t; activeColor := activeColor s;
     paths := ps; currentPath := cur; notes := ns; shapes := ss |}.

Definition set_drag (s : state) (dragging : bool) (start : point) : state :=
  {| scale := scale s; offset := offset s; viewportSize := viewportSize s;
     rect := rect s; isDragging := dragging; dragStart := start;
     activeTool := activeTool s; activeColor := activeColor s;
     paths := paths s; currentPath := currentPath s;
     notes := notes s; shapes := shapes s |}.

(** [handleMouseDown] (lines 653-670). *)
Definition handleMouseDown (s : state) (clientX clientY : Q) : state :=
  match activeTool s with
  | hand => set_drag s true {| x := clientX; y := clientY |}
  | pen =>
      let worldPos := screenToWorld s clientX clientY in
      set_content (set_drag s true (dragStart s)) (activeTool s)
        (paths s) [M worldPos] (notes s) (shapes s)
  | note_tool =>
      let worldPos := screenToWorld s clientX clientY in
      set_content s cursor (paths s) (currentPath s)
        (notes s ++ [{| note_x := x worldPos; note_y := y worldPos;
                        text := [] |}])
        (shapes s)
  | shape_tool =>
      let worldPos := screenToWorld s clientX clientY in
      set_content s cursor (paths s) (currentPath s) (notes s)
        (shapes s ++ [{| shape_x := x worldPos - 50;
                         shape_y := y worldPos - 50;
                         shape_color := activeColor s |}])
  | cursor => s
  end.

(** [handleMouseMove] (lines 672-684). *)
Definition handleMouseMove (s : state) (clientX clientY : Q) : state :=
  if negb (isDragging s) then s
  else
    match activeTool s with
    | hand =>
        let dx := clientX - x (dragStart s) in
        let dy := clientY - y (dragStart s) in
        set_drag
          (set_view s (scale s)
             {| x := x (offset s) + dx; y := y (offset s) + dy |})
          (isDragging s) {| x := clientX; y := clientY |}
    | pen =>
        let worldPos := screenToWorld s clientX clientY in
        set_content s (activeTool s) (paths s)
          (currentPath s ++ [L worldPos]) (notes s) (shapes s)
    | _ => s
    end.

(** [handleMouseUp] (lines 686-692). *)
Definition handleMouseUp (s : state) : state :=
  let s1 := set_drag s false (dragStart s) in
  match activeTool s, currentPath s with
  | pen, _ :: _ =>
      set_content s1 (activeTool s)
        (paths s ++ [{| d := currentPath s; color := activeColor s;
                        width := 3 |}])
        [] (notes s) (shapes s)
  | _, _ => s1
  end.

(** The toolbar's [undo] prop (line 857):
    [setPaths(p => p.slice(0, -1))]. *)
Definition undo (s : state) : state :=
  set_content s (activeTool s) (Js.slice (paths s) 0 (-1))
    (currentPath s) (notes s) (shapes s).

(** The canvas container as the DOM lays it out: [clientWidth],
    [clientHeight], and the left and top of [getBoundingClientRect()]. *)
Record container := {
  clientWidth : Q;
  clientHeight : Q;
  boundsLeft : Q;
  boundsTop : Q
}.

(** The canvas states of the first render, from their [useState]
    defaults (lines 362-377); no element is attached to [containerRef]
    yet. *)
Definition useState_defaults : state :=
  {| scale := 1; offset := {| x := 0; y := 0 |};
     viewportSize := (0, 0); rect := None;
     isDragging := false; dragStart := {| x := 0; y := 0 |};
     activeTool := hand; activeColor := lit "#ef4444";
     paths := []; currentPath := []; notes := []; shapes := [] |}.

(** The Set Viewport effect (lines 619-626), with [containerRef.current]
    as it is when the effect runs. *)
Definition setViewport (containerRef : option container) (s : state) : state :=
  match containerRef with
  | Some c =>
      {| scale := scale s; offset := offset s;
         viewportSize := (clientWidth c, clientHeight c);
         rect := rect s; isDragging := isDragging s;
         dragStart := dragStart s; activeTool := activeTool s;
         activeColor := activeColor s; paths := paths s;
         currentPath := currentPath s; notes := notes s;
         shapes := shapes s |}
  | None => s
  end.

(** A render of the arena attaches the container to [containerRef]; the
    handlers then read its bounding rectangle. *)
Definition attach (c : container) (s : state) : state :=
  {| scale := scale s; offset := offset s; viewportSize := viewportSize s;
     rect := Some (boundsLeft c, boundsTop c); isDragging := isDragging s;
     dragStart := dragStart s; activeTool := activeTool s;
     activeColor := activeColor s; paths := paths s;
     currentPath := currentPath s; notes := notes s; shapes := shapes s |}.

(** The toolbar's [setTool] and [setColor] props (lines 856 and 859). *)
Definition setActiveTool (s : state) (t : tool) : state :=
  set_content s t (paths s) (currentPath s) (notes s) (shapes s).

Definition setActiveColor (s : state) (c : jsstring) : state :=
  {| scale := scale s; offset := offset s; viewportSize := viewportSize s;
     rect := rect s; isDragging := isDragging s; dragStart := dragStart s;
     activeTool := activeTool s; activeColor := c;
     paths := paths s; currentPath := currentPath s;
     notes := notes s; shapes := shapes s |}.

End Canvas.

(* ====================================================================== *)
(** ** The session result handed to [onEnd] *)
(* ====================================================================== *)

Module Session.
Import Js.

Record ImageEntry := { url : jsstring; image_timestamp : Z; prompt : jsstring }.

Record SessionData := {
  duration : jsstring;
  topic : jsstring;
  transcript : list Playback.TranscriptEntry;
  images : list ImageEntry
}.

Inductive connectionState := initializing | connected | error | disconnected.

(** What the two [onEnd] call sites read. *)
Record state := {
  connection : connectionState;
  elapsedTime : N;                  (* seconds, bumped by the clock effect *)
  topicProp : jsstring;
  transcriptRef : list Playback.TranscriptEntry
}.

(** The clock effect's interval callback: [setElapsedTime(p => p + 1)]. *)
Definition tick (s : state) : state :=
  {| connection := connection s; elapsedTime := elapsedTime s + 1;
     topicProp := topicProp s; transcriptRef := transcriptRef s |}.

(** [formatTime] (lines 694-698). *)
Definition formatTime (seconds : N) : jsstring :=
  let mins := (seconds / 60)%N in
  let secs := (seconds mod 60)%N in
  padStart (toString mins) 2 48 ++ lit ":" ++ padStart (toString secs) 2 48.

(** The two buttons that call [onEnd]. *)
Inductive button := EndSession | ReturnToHome.

(** The [onEnd] argument of a click, [None] when the current screen does
    not render the button: the error screen has "Return to Home"
    (lines 728-733), the arena screen has "End Session" (lines 906-912),
    the loading screen has neither. *)
Definition click (s : state) (b : button) : option SessionData :=
  match connection s, b with
  | error, ReturnToHome =>
      Some {| duration := lit "0:00"; topic := topicProp s;
              transcript := []; images := [] |}
  | connected, EndSession | disconnected, EndSession =>
      Some {| duration := formatTime (elapsedTime s); topic := topicProp s;
              transcript := transcriptRef s; images := [] |}
  | _, _ => None
  end.

(** The shape the specification gives the duration: two decimal digits,
    a colon, two decimal digits, for the minutes and seconds of
    [seconds]. *)
Definition digit (n : N) : N := (48 + n)%N.

Definition mmss (seconds : N) : jsstring :=
  let mins := (seconds / 60)%N in
  let secs := (seconds mod 60)%N in
  [digit (mins / 10); digit (mins mod 10); 58%N;
   digit (secs / 10); digit (secs mod 10)].

End Session.

(* ====================================================================== *)
(** ** [HomeView]: [handleStartInteraction] *)
(* ====================================================================== *)

Module Home.
Import Js.

(** A part of the response: [inlineData] when present, with its [data]
    ([None] for [undefined]). *)
Record Part := { inlineData : option (option jsstring) }.

(** The awaited [generateContent]: it throws, or it responds, and
    [response.candidates?.[0]?.content?.parts] is a list or missing. *)
Inductive generation := Throws | Responds (parts : option (list Part)).

Record state := { topic : jsstring; isLoading : bool }.

(** A template literal prints [undefined] for a missing value. *)
Definition interpolate (v : option jsstring) : jsstring :=
  match v with Some s => s | None => lit "undefined" end.

(** Lines 60-71: the URL of the first part that has [inlineData]. *)
Fixpoint extractImage (parts : list Part) : jsstring :=
  match parts with
  | [] => []
  | part :: rest =>
      match inlineData part with
      | Some data => lit "data:image/png;base64," ++ interpolate data
      | None => extractImage rest
      end
  end.

(** [handleStartInteraction] (lines 31-86) with the outcome of the
    awaited request; the second component is the call of [onStart], if
    one is made. *)
Definition handleStartInteraction (s : state) (g : generation)
    : state * option (jsstring * jsstring) :=
  if negb (truthy (trim (topic s))) then (s, None)
  else
    let s1 := {| topic := topic s; isLoading := true |} in
    let failed := {| topic := topic s1; isLoading := false |} in
    match g with
    | Throws => (failed, None)
    | Responds parts =>
        let imageUrl :=
          match parts with
          | Some ps => extractImage ps
          | None => []
          end in
        if negb (truthy imageUrl) then (failed, None)
        else (s1, Some (topic s1, imageUrl))
    end.

End Home.

(* ====================================================================== *)
(** ** Ranges of the audio codec *)
(* ====================================================================== *)

Module Codec.

(** An element of a [Uint8Array] and an element of an [Int16Array]. *)
Definition is_byte (b : Z) : Prop := 0 <= b < 256.
Definition is_int16 (w : Z) : Prop := -32768 <= w <= 32767.

End Codec.

(* ====================================================================== *)
(** ** Capture events, counted *)
(* ====================================================================== *)

Module CaptureLog.
Import Capture.

Definition isFrame (e : event) : bool :=
  match e with AudioProcess _ => true | _ => false end.

Definition isOpen (e : event) : bool :=
  match e with Open => true | _ => false end.

(** The number of frames the device delivers in a sequence of events. *)
Definition frames (es : list event) : nat := length (List.filter isFrame es).

End CaptureLog.

(* ====================================================================== *)
(** ** The playback scheduler under messages and ended clips *)
(* ====================================================================== *)

Module Scheduler.
Import Js Playback.

(** The two event sources of the scheduler: the channel delivers a
    message, or a source node fires [onended]. *)
Inductive event := Message (a : arrival) | Ended (id : nat).

Definition step (atob : jsstring -> option jsstring) (s : state) (e : event)
    : state :=
  match e with
  | Message a => snd (onmessage atob s a)
  | Ended id => onended id s
  end.

Definition run (atob : jsstring -> option jsstring) (s : state)
    (es : list event) : state :=
  fold_left (step atob) es s.

(** Whether the audio branch throws on a message. *)
Definition rejects (atob : jsstring -> option jsstring) (a : arrival) : bool :=
  match audioData (msg a) with
  | Some d =>
      if truthy d then
        match decode atob d with inl _ => true | inr _ => false end
      else false
  | None => false
  end.

(** The placeholder entry pushed on a turn-complete marker. *)
Definition placeholder (a : arrival) : TranscriptEntry :=
  {| role := lit "model"; text := lit "(Audio Response)";
     timestamp := dateNow a |}.

(** What the refs satisfy between two events. *)
Record consistent (s : state) : Prop := {
  live_on_heap :
    forall id, id ∈ sourceNodes s ->
      exists n, nodes s !! id = Some n /\ stopped n = false;
  speaking_while_live : sourceNodes s <> ∅ -> isAiSpeaking s = true;
  cursor_nonneg : (0 <= nextStartTime s)%Q;
  starts_nonneg : Forall (fun n => (0 <= when n)%Q) (nodes s)
}.

End Scheduler.

(* ====================================================================== *)
(** ** Gestures on the canvas *)
(* ====================================================================== *)

Module Gesture.
Import Canvas.

(** A run of [mousemove] events, each at a client position. *)
Definition moves (s : state) (positions : list (Q * Q)) : state :=
  fold_left (fun s m => handleMouseMove s (fst m) (snd m)) positions s.

(** A whole gesture: [mousedown], the moves, [mouseup]. *)
Definition gesture (s : state) (x0 y0 : Q) (positions : list (Q * Q)) : state :=
  handleMouseUp (moves (handleMouseDown s x0 y0) positions).

(** Two points that are equal as rationals. *)
Definition same_point (p q : point) : Prop := (x p == x q)%Q /\ (y p == y q)%Q.

(** The stroke that a pen gesture draws, in world coordinates of [s]. *)
Definition inked (s : state) (x0 y0 : Q) (positions : list (Q * Q)) : path :=
  {| d := M (screenToWorld s x0 y0)
          :: map (fun m => L (screenToWorld s (fst m) (snd m))) positions;
     color := activeColor s; width := 3 |}.

End Gesture.

(* ====================================================================== *)
(** ** [HomeView]: the loading messages *)
(* ====================================================================== *)

Module Loading.
Import Js.

Definition LOADING_MESSAGES : list jsstring :=
  [lit "Analyzing semantic context...";
   lit "Spinning up Nano-Banana neural pathways...";
   lit "Synthesizing abstract visual metaphors...";
   lit "Calibrating audio-visual resonance...";
   lit "Establishing secure debate environment..."].

(** The interval callback of lines 25-27:
    [setLoadingMsgIndex(prev => (prev + 1) % LOADING_MESSAGES.length)]. *)
Definition next (prev : nat) : nat := (prev + 1) mod length LOADING_MESSAGES.

(** The index after [n] ticks of the interval, from [useState(0)]. *)
Definition after (n : nat) : nat := Nat.iter n next 0%nat.

End Loading.

(* ====================================================================== *)
(** ** [ArenaView]: the connection state and its screens *)
(* ====================================================================== *)

Module Connection.
Import Js.

Record state := {
  connectionState : Session.connectionState;
  errorMessage : jsstring
}.

(** [useState('initializing')] and [useState('')]. *)
Definition initial : state :=
  {| connectionState := Session.initializing; errorMessage := [] |}.

Inductive event :=
| Opened                                  (* callbacks.onopen *)
| Closed                                  (* callbacks.onclose *)
| Errored                                 (* callbacks.onerror *)
| ConnectFailed (message : option jsstring)
                                          (* the catch of connectToLiveAPI,
                                             with e.message *)
| RetryClicked.                           (* the Retry Connection button *)

(** [a || b] on strings: [b] when [a] is undefined or empty. *)
Definition orElse (a : option jsstring) (b : jsstring) : jsstring :=
  match a with
  | Some s => if truthy s then s else b
  | None => b
  end.

Definition step (s : state) (e : event) : state :=
  match e with
  | Opened =>
      {| connectionState := Session.connected; errorMessage := errorMessage s |}
  | Closed =>
      {| connectionState := Session.disconnected;
         errorMessage := errorMessage s |}
  | Errored =>
      {| connectionState := Session.error;
         errorMessage := lit "Connection Error. Please restart." |}
  | ConnectFailed message =>
      {| connectionState := Session.error;
         errorMessage := orElse message (lit "Failed to initialize audio.") |}
  | RetryClicked =>
      match connectionState s with
      | Session.error =>
          {| connectionState := Session.initializing;
             errorMessage := errorMessage s |}
      | _ => s
      end
  end.

Definition run (s : state) (es : list event) : state := fold_left step es s.

(** The screen the render chooses (lines 706-738). *)
Inductive screen := LoadingScreen | ErrorScreen (message : jsstring) | ArenaScreen.

Definition render (s : state) : screen :=
  match connectionState s with
  | Session.initializing => LoadingScreen
  | Session.error => ErrorScreen (errorMessage s)
  | _ => ArenaScreen
  end.

(** The whiteboard capture effect (lines 550-584) runs its interval only
    in the connected state. *)
Definition capturing (s : state) : bool :=
  match connectionState s with Session.connected => true | _ => false end.

(** The error state comes with a message. *)
Definition error_has_message (s : state) : Prop :=
  connectionState s = Session.error -> errorMessage s <> [].

End Connection.

(* ====================================================================== *)
(** ** The canvas over the life of the component *)
(* ====================================================================== *)

Module Viewport.
Import Js Canvas.

(** [containerRef.current] after a render: the element carrying
    [ref={containerRef}] (line 771) belongs to the arena screen only; the
    loading and the error screens (lines 706-736) do not contain it. *)
Definition containerRef (c : container) (scr : Connection.screen)
    : option container :=
  match scr with
  | Connection.ArenaScreen => Some c
  | _ => None
  end.

(** Mount: the first render and then the effects.  The Set Viewport
    effect has an empty dependency list, so this is its only run. *)
Definition mount (c : container) : state :=
  setViewport (containerRef c (Connection.render Connection.initial))
    useState_defaults.

(** The canvas when the session has connected and the arena is shown. *)
Definition arena (c : container) : state := attach c (mount c).

(** What the user can do to the canvas: the five handlers of the
    container (lines 773-777) and the toolbar's props (lines 856-859). *)
Inductive event :=
| Wheel (ctrlOrMeta : bool) (deltaX deltaY : Q)
| MouseDown (clientX clientY : Q)
| MouseMove (clientX clientY : Q)
| MouseUp
| MouseLeave
| Undo
| SetTool (t : tool)
| SetColor (c : jsstring).

Definition step (s : state) (e : event) : state :=
  match e with
  | Wheel ctrlOrMeta deltaX deltaY => handleWheel s ctrlOrMeta deltaX deltaY
  | MouseDown clientX clientY => handleMouseDown s clientX clientY
  | MouseMove clientX clientY => handleMouseMove s clientX clientY
  | MouseUp => handleMouseUp s
  | MouseLeave => handleMouseUp s
  | Undo => undo s
  | SetTool t => setActiveTool s t
  | SetColor c => setActiveColor s c
  end.

Definition run (s : state) (es : list event) : state := fold_left step es s.

(** A canvas container of 800 by 600 pixels at the origin of the page. *)
Definition board : container :=
  {| clientWidth := 800; clientHeight := 600;
     boundsLeft := 0; boundsTop := 0 |}.

End Viewport.

(* ====================================================================== *)
(** ** [SummaryView]: the analysis effect *)
(* ====================================================================== *)

Module Summary.
Import Js.

Record SessionAnalysis := {
  intensity : jsstring;
  coherence : jsstring;
  mood : jsstring
}.

(** The awaited [generateContent] of the effect: it throws, or it
    responds with [response.text] ([None] for [undefined]) and what
    [JSON.parse] makes of it ([None] when it throws or yields [null]). *)
Inductive generation :=
| Throws
| Responds (text : option jsstring) (parsed : option SessionAnalysis).

Record state := { analysis : option SessionAnalysis; loading : bool }.

(** [useState(null)] and [useState(true)]. *)
Definition initial : state := {| analysis := None; loading := true |}.

(** The effect (lines 27-85) once the request has settled: the state, and
    whether the request was made at all. *)
Definition analyzed (data : Session.SessionData) (g : generation)
    : state * bool :=
  match Session.transcript data with
  | _ :: _ =>
      (match g with
       | Throws => {| analysis := analysis initial; loading := false |}
       | Responds text parsed =>
           match text with
           | Some t =>
               if truthy t then
                 match parsed with
                 | Some a => {| analysis := Some a; loading := false |}
                 | None => {| analysis := analysis initial; loading := false |}
                 end
               else {| analysis := analysis initial; loading := false |}
           | None => {| analysis := analysis initial; loading := false |}
           end
       end, true)
  | [] => ({| analysis := analysis initial; loading := false |}, false)
  end.

(** What is shown under the title (lines 125-200). *)
Inductive panel := Spinner | Stats (a : SessionAnalysis) | NoAnalysis.

Definition render (s : state) : panel :=
  if loading s then Spinner
  else match analysis s with Some a => Stats a | None => NoAnalysis end.

(** Line 115: [data.topic || "Untitled Session"]. *)
Definition heading (data : Session.SessionData) : jsstring :=
  Connection.orElse (Some (Session.topic data)) (lit "Untitled Session").

End Summary.

(* ====================================================================== *)
(** ** [App]: the three views and their wiring *)
(* ====================================================================== *)

Module App.
Import Js.

Inductive AppView := HOME | ARENA | SUMMARY.

Record state := {
  currentView : AppView;
  topic : jsstring;
  initialInfographic : jsstring;
  sessionData : option Session.SessionData
}.

Definition initial : state :=
  {| currentView := HOME; topic := []; initialInfographic := [];
     sessionData := None |}.

Definition handleStart (s : state) (selectedTopic infographicUrl : jsstring)
    : state :=
  {| currentView := ARENA; topic := selectedTopic;
     initialInfographic := infographicUrl; sessionData := sessionData s |}.

Definition handleEnd (s : state) (data : Session.SessionData) : state :=
  {| currentView := SUMMARY; topic := topic s;
     initialInfographic := initialInfographic s; sessionData := Some data |}.

Definition handleRestart (s : state) : state :=
  {| currentView := HOME; topic := []; initialInfographic := [];
     sessionData := None |}.

(** What [App] mounts: one of the three views with its props, or nothing
    when the summary has no data. *)
Inductive screen :=
| HomeScreen
| ArenaScreen (topic initialImage : jsstring)
| SummaryScreen (data : Session.SessionData)
| Nothing.

Definition render (s : state) : screen :=
  match currentView s with
  | HOME => HomeScreen
  | ARENA => ArenaScreen (topic s) (initialInfographic s)
  | SUMMARY =>
      match sessionData s with
      | Some data => SummaryScreen data
      | None => Nothing
      end
  end.

(** What the mounted view can do to [App]: [HomeView] runs
    [handleStartInteraction] on the typed topic, [ArenaView] has one of its
    two ending buttons clicked in some state of the session, [SummaryView]
    has its restart button clicked. *)
Inductive event :=
| StartInteraction (typed : jsstring) (g : Home.generation)
| ArenaClick (connection : Session.connectionState) (elapsed : N)
    (transcript : list Playback.TranscriptEntry) (b : Session.button)
| Restart.

Definition step (s : state) (e : event) : state :=
  match render s, e with
  | HomeScreen, StartInteraction typed g =>
      match snd (Home.handleStartInteraction
                   {| Home.topic := typed; Home.isLoading := false |} g) with
      | Some (t, u) => handleStart s t u
      | None => s
      end
  | ArenaScreen t _, ArenaClick connection elapsed transcript b =>
      match Session.click
              {| Session.connection := connection;
                 Session.elapsedTime := elapsed;
                 Session.topicProp := t;
                 Session.transcriptRef := transcript |} b with
      | Some data => handleEnd s data
      | None => s
      end
  | SummaryScreen _, Restart => handleRestart s
  | _, _ => s
  end.

Definition run (s : state) (es : list event) : state := fold_left step es s.

(** What holds of the state in each view. *)
Definition wired (s : state) : Prop :=
  match currentView s with
  | HOME => s = initial
  | ARENA =>
      trim (topic s) <> [] /\
      exists data,
        initialInfographic s = lit "data:image/png;base64," ++ data
  | SUMMARY =>
      trim (topic s) <> [] /\
      exists data,
        sessionData s = Some data /\ Session.topic data = topic s /\
        Session.images data = []
  end.

End App.

(* ====================================================================== *)
(** * Properties *)
(* ====================================================================== *)

(** ** PCM conversion *)

Section PcmFacts.
Import Js Audio.

Lemma truncate_bounds (q : Q) (a b : Z) :
  (inject_Z a <= q)%Q -> (q <= inject_Z b)%Q -> a <= truncate q <= b.
Proof.
  destruct q as [n d]. unfold Qle, truncate. simpl.
  rewrite !Z.mul_1_r. intros Ha Hb.
  assert (Hd : 0 < Z.pos d) by lia.
  split.
  - rewrite <- (Z.quot_mul a (Z.pos d)) by lia.
    apply Z.quot_le_mono; lia.
  - rewrite <- (Z.quot_mul b (Z.pos d)) by lia.
    apply Z.quot_le_mono; lia.
Qed.

Lemma ToInt16_in_range (q : Q) :
  -32768 <= truncate q <= 32767 -> ToInt16 (Fin q) = truncate q.
Proof.
  intros H. unfold ToInt16. cbv zeta.
  destruct (Z_lt_le_dec (truncate q) 0) as [Hneg | Hpos].
  - replace (truncate q mod 65536) with (truncate q + 65536).
    + destruct (Z.ltb_spec (truncate q + 65536) 32768); lia.
    + apply Z.mod_unique with (q := -1); lia.
  - rewrite Z.mod_small by lia.
    destruct (Z.ltb_spec (truncate q) 32768); lia.
Qed.

Lemma ToInt16_range (v : number) : -32768 <= ToInt16 v <= 32767.
Proof.
  destruct v; simpl; try lia.
  pose proof (Z.mod_pos_bound (truncate q) 65536 ltac:(lia)).
  destruct (Z.ltb_spec (truncate q mod 65536) 32768); lia.
Qed.

(** [Qmax] and [Qmin] return one of their arguments. *)
Lemma Qmax_lt (a b : Q) : (a < b)%Q -> Qmax a b = b.
Proof.
  intros H. unfold Qmax, GenericMinMax.gmax.
  destruct (a ?= b)%Q eqn:E; [ | reflexivity | ].
  - apply Qeq_alt in E. rewrite E in H. now apply Qlt_irrefl in H.
  - apply Qgt_alt in E. exfalso. apply (Qlt_irrefl a).
    now apply Qlt_trans with b.
Qed.

Lemma Qmax_ge (a b : Q) : (b <= a)%Q -> Qmax a b = a.
Proof.
  intros H. unfold Qmax, GenericMinMax.gmax.
  destruct (a ?= b)%Q eqn:E; try reflexivity.
  apply Qlt_alt in E. exfalso. apply (Qlt_irrefl a).
  now apply Qlt_le_trans with b.
Qed.

Lemma Qmin_le (a b : Q) : (a <= b)%Q -> Qmin a b = a.
Proof.
  intros H. unfold Qmin, GenericMinMax.gmin.
  destruct (a ?= b)%Q eqn:E; try reflexivity.
  apply Qgt_alt in E. exfalso. apply (Qlt_irrefl b).
  now apply Qlt_le_trans with a.
Qed.

Lemma Qmin_gt (a b : Q) : (b < a)%Q -> Qmin a b = b.
Proof.
  intros H. unfold Qmin, GenericMinMax.gmin.
  destruct (a ?= b)%Q eqn:E; [ | | reflexivity ].
  - apply Qeq_alt in E. rewrite E in H. now apply Qlt_irrefl in H.
  - apply Qlt_alt in E. exfalso. apply (Qlt_irrefl a).
    now apply Qlt_trans with b.
Qed.

(** The clamp of the source on a finite sample is the rational clamp. *)
Lemma clamp_finite (q : Q) :
  Math_max (Fin (-1)) (Math_min (Fin 1) (Fin q)) = Fin (Qmax (-1) (Qmin 1 q)).
Proof.
  unfold Math_min, lt.
  destruct (Qlt_le_dec q 1) as [H1 | H1].
  - rewrite (Qmin_gt 1 q H1).
    unfold Math_max, lt.
    destruct (Qlt_le_dec (-1) q) as [H2 | H2].
    + now rewrite (Qmax_lt _ _ H2).
    + now rewrite (Qmax_ge _ _ H2).
  - rewrite (Qmin_le 1 q H1). reflexivity.
Qed.

Lemma clamp_bounds (q : Q) :
  (-1 <= Qmax (-1) (Qmin 1 q) <= 1)%Q.
Proof.
  split.
  - apply Q.le_max_l.
  - apply Q.max_lub; [discriminate | apply Q.le_min_l].
Qed.

Lemma pcm_of_sample_range (q : Q) : -32768 <= pcm_of_sample q <= 32767.
Proof.
  unfold pcm_of_sample. cbv zeta.
  destruct (clamp_bounds q) as [Hlo Hhi].
  set (c := Qmax (-1) (Qmin 1 q)) in *.
  destruct (Qlt_le_dec c 0) as [Hneg | Hpos].
  - cut (-32768 <= truncate (c * 32768) <= 0); [lia |].
    apply truncate_bounds.
    + change (inject_Z (-32768)) with ((-1) * 32768)%Q.
      apply Qmult_le_compat_r; [exact Hlo | discriminate].
    + change (inject_Z 0) with (0 * 32768)%Q.
      apply Qmult_le_compat_r; [now apply Qlt_le_weak | discriminate].
  - cut (0 <= truncate (c * 32767) <= 32767); [lia |].
    apply truncate_bounds.
    + change (inject_Z 0) with (0 * 32767)%Q.
      apply Qmult_le_compat_r; [exact Hpos | discriminate].
    + change (inject_Z 32767) with (1 * 32767)%Q.
      apply Qmult_le_compat_r; [exact Hhi | discriminate].
Qed.

(** What [setInt16] receives for a finite sample, once converted, is the
    value of the specification. *)
Lemma ToInt16_scaled (q : Q) : ToInt16 (scaled (Fin q)) = pcm_of_sample q.
Proof.
  pose proof (pcm_of_sample_range q) as Hr.
  unfold scaled. cbv zeta. rewrite clamp_finite.
  unfold pcm_of_sample in *. cbv zeta in *.
  set (c := Qmax (-1) (Qmin 1 q)) in *.
  unfold lt. destruct (Qlt_le_dec c 0); simpl mul;
    now apply ToInt16_in_range.
Qed.

Lemma ToInt16_scaled_number (x : number) :
  ToInt16 (scaled x) = pcm_of_number x.
Proof.
  destruct x as [| | | q]; [reflexivity | reflexivity | reflexivity |].
  apply ToInt16_scaled.
Qed.

Lemma pcm_of_number_range (x : number) : -32768 <= pcm_of_number x <= 32767.
Proof.
  destruct x as [| | | q]; cbn; try lia. apply pcm_of_sample_range.
Qed.

(** The two bytes of a signed 16-bit value read back as that value. *)
Lemma le_bytes_roundtrip (w : Z) :
  -32768 <= w <= 32767 ->
  let u := w mod 65536 in
  0 <= u mod 256 < 256 /\ 0 <= u / 256 < 256 /\
  int16_of_le (u mod 256) (u / 256) = w.
Proof.
  intros Hw u.
  assert (Hu : 0 <= u < 65536) by (apply Z.mod_pos_bound; lia).
  assert (Hdm : u = 256 * (u / 256) + u mod 256) by (apply Z.div_mod; lia).
  assert (Hlo : 0 <= u mod 256 < 256) by (apply Z.mod_pos_bound; lia).
  assert (Hhi : 0 <= u / 256 < 256).
  { split; [apply Z.div_pos; lia | apply Z.div_lt_upper_bound; lia]. }
  repeat split; try lia.
  unfold int16_of_le. cbv zeta.
  replace (u mod 256 + 256 * (u / 256)) with u by lia.
  subst u.
  destruct (Z_lt_le_dec w 0).
  - replace (w mod 65536) with (w + 65536)
      by (apply Z.mod_unique with (q := -1); lia).
    destruct (Z.ltb_spec (w + 65536) 32768); lia.
  - rewrite Z.mod_small by lia.
    destruct (Z.ltb_spec w 32768); lia.
Qed.

(** The loop writes sample [i] at bytes [offset + 2 i] and
    [offset + 2 i + 1], never fails inside the buffer and touches
    nothing below [offset]. *)
Lemma floatTo16BitPCM_loop_spec (samples : list number) :
  forall (offset : nat) (view : ArrayBuffer),
    (offset + 2 * length samples <= length view)%nat ->
    exists r,
      floatTo16BitPCM_loop samples offset view = Some r /\
      length r = length view /\
      (forall j, (j < offset)%nat -> r !! j = view !! j) /\
      (forall i x, samples !! i = Some x ->
         r !! (offset + 2 * i)%nat
           = Some ((ToInt16 (scaled x) mod 65536) mod 256) /\
         r !! (offset + 2 * i + 1)%nat
           = Some ((ToInt16 (scaled x) mod 65536) / 256)).
Proof.
  induction samples as [| x rest IH]; intros offset view Hlen.
  - exists view. split; [reflexivity |]. split; [reflexivity |].
    split; [auto |]. intros i x Hx. discriminate.
  - cbn [floatTo16BitPCM_loop]. cbv zeta. fold (scaled x).
    cbn [length] in Hlen. unfold setInt16.
    destruct (Nat.leb_spec (offset + 2) (length view)) as [_ | Hbad];
      [| lia].
    cbv zeta.
    set (lo := (ToInt16 (scaled x) mod 65536) mod 256).
    set (hi := (ToInt16 (scaled x) mod 65536) / 256).
    set (view' := <[S offset := hi]> (<[offset := lo]> view)).
    assert (Hlen' : length view' = length view).
    { unfold view'. now rewrite !length_insert. }
    destruct (IH (offset + 2)%nat view') as (r & Hr & Hlr & Hbelow & Hat).
    { rewrite Hlen'. lia. }
    exists r. split; [exact Hr |]. split; [congruence |]. split.
    + intros j Hj. rewrite Hbelow by lia. unfold view'.
      rewrite !list_lookup_insert_ne by lia. reflexivity.
    + intros [| i] y Hy.
      * injection Hy as <-. split.
        -- rewrite Hbelow by lia. unfold view'.
           rewrite list_lookup_insert_ne by lia.
           replace (offset + 2 * 0)%nat with offset by lia.
           apply list_lookup_insert_eq. lia.
        -- rewrite Hbelow by lia. unfold view'.
           replace (offset + 2 * 0 + 1)%nat with (S offset) by lia.
           apply list_lookup_insert_eq. rewrite length_insert. lia.
      * cbn in Hy. destruct (Hat i y Hy) as [H1 H2]. split.
        -- replace (offset + 2 * S i)%nat with (offset + 2 + 2 * i)%nat
             by lia. exact H1.
        -- replace (offset + 2 * S i + 1)%nat
             with (offset + 2 + 2 * i + 1)%nat by lia. exact H2.
Qed.

End PcmFacts.

(** C6: [floatTo16BitPCM] always returns a buffer of twice the length of its
    input, and the two bytes it holds for a sample are the little-endian
    signed 16-bit encoding of the sample clamped to [-1, 1] and scaled by
    32767 when non-negative and by 32768 when negative (a NaN sample is
    written as 0), a value that lies in the signed 16-bit range; the
    samples 1.0, -1.0 and 0.0 give 32767, -32768 and 0. *)
Theorem floatTo16BitPCM_clamps_and_scales (float32Array : list Js.number) :
  exists buffer,
    Audio.floatTo16BitPCM float32Array = Some buffer /\
    length buffer = (2 * length float32Array)%nat /\
    (forall i x, float32Array !! i = Some x ->
       exists lo hi,
         buffer !! (2 * i)%nat = Some lo /\
         buffer !! (2 * i + 1)%nat = Some hi /\
         0 <= lo < 256 /\ 0 <= hi < 256 /\
         Audio.int16_of_le lo hi = Audio.pcm_of_number x /\
         -32768 <= Audio.pcm_of_number x <= 32767) /\
    Audio.pcm_of_sample 1 = 32767 /\
    Audio.pcm_of_sample (-1) = -32768 /\
    Audio.pcm_of_sample 0 = 0 /\
    Audio.floatTo16BitPCM [Js.Fin 1; Js.Fin (-1); Js.Fin 0]
      = Some [255; 127; 0; 128; 0; 0].
Proof.
  unfold Audio.floatTo16BitPCM.
  destruct (floatTo16BitPCM_loop_spec float32Array 0
              (repeat 0 (length float32Array * 2)))
    as (r & Hr & Hlen & _ & Hat).
  { rewrite repeat_length. lia. }
  exists r. split; [exact Hr |].
  split; [rewrite Hlen, repeat_length; lia |].
  split; [| repeat split; reflexivity].
  intros i x Hi. destruct (Hat i x Hi) as [Hlo Hhi].
  rewrite ToInt16_scaled_number in Hlo, Hhi.
  pose proof (pcm_of_number_range x) as Hrange.
  destruct (le_bytes_roundtrip _ Hrange) as (H1 & H2 & H3).
  eexists _, _. split; [exact Hlo |]. split; [exact Hhi |].
  repeat split; try tauto; lia.
Qed.

(** ** Capture and mute *)

Section CaptureFacts.
Import Js Audio Capture.
Variable btoa : jsstring -> jsstring.
Variable rms : list number -> number.

Lemma floatTo16BitPCM_total (a : list number) :
  exists buffer, floatTo16BitPCM a = Some buffer.
Proof.
  destruct (floatTo16BitPCM_loop_spec a 0 (repeat 0 (length a * 2)))
    as (r & Hr & _).
  - rewrite repeat_length. lia.
  - now exists r.
Qed.

(** A handler whose closure saw [isMuted = false] sends one payload per
    frame and changes neither the flag nor the handler. *)
Lemma handler_unmuted_sends (inputData : list number) (s : state) :
  let s' := handler btoa rms false inputData s in
  isMuted s' = isMuted s /\
  onaudioprocess s' = onaudioprocess s /\
  length (outbound s') = S (length (outbound s)).
Proof.
  unfold handler.
  destruct (floatTo16BitPCM_total inputData) as [pcm ->].
  cbn. rewrite length_app. cbn. repeat split; lia.
Qed.

(** A handler whose closure saw [isMuted = true] drops every frame. *)
Lemma handler_muted_drops (inputData : list number) (s : state) :
  handler btoa rms true inputData s = s.
Proof. reflexivity. Qed.

Lemma frames_after_stale_capture (frames : list (list number)) :
  forall s,
    isMuted s = true -> onaudioprocess s = Some false ->
    let s' := run btoa rms s (map AudioProcess frames) in
    isMuted s' = true /\
    length (outbound s') = (length (outbound s) + length frames)%nat.
Proof.
  induction frames as [| f rest IH]; intros s Hm Hh.
  - cbn. split; [exact Hm | lia].
  - cbn [map run fold_left]. cbn [step]. rewrite Hh.
    destruct (handler_unmuted_sends f s) as (H1 & H2 & H3).
    destruct (IH (handler btoa rms false f s)) as [H4 H5];
      [congruence | congruence |].
    unfold run in H4, H5. split; [exact H4 |].
    rewrite H5, H3. cbn [length]. lia.
Qed.

End CaptureFacts.

(** C1: on the code the mute invariant fails.  The handler installed by
    [onopen] keeps the [isMuted] of the render that called
    [connectToLiveAPI]; after the session is mounted and opened and the
    user toggles mute on, the flag is set and every frame delivered from
    then on still produces one outbound payload. *)
Theorem mute_toggle_after_open_still_sends
    (btoa : Js.jsstring -> Js.jsstring)
    (rms : list Js.number -> Js.number)
    (frames : list (list Js.number)) :
  let s := Capture.run btoa rms Capture.mounted
             ([Capture.Open; Capture.ToggleMute]
              ++ map Capture.AudioProcess frames) in
  Capture.isMuted s = true /\
  length (Capture.outbound s) = length frames /\
  Capture.outbound
    (Capture.run btoa rms Capture.mounted
       [Capture.Open; Capture.ToggleMute;
        Capture.AudioProcess [Js.Fin (1 # 2)]])
  = [ {| Capture.mimeType := Js.lit "audio/pcm;rate=16000";
         Capture.data := btoa [255%N; 63%N] |} ].
Proof.
  cbv zeta. unfold Capture.run. rewrite fold_left_app.
  set (s0 := fold_left (Capture.step btoa rms)
               [Capture.Open; Capture.ToggleMute] Capture.mounted).
  destruct (frames_after_stale_capture btoa rms frames s0) as [H1 H2];
    try reflexivity.
  unfold Capture.run in H1, H2.
  split; [exact H1 |]. split; [rewrite H2; reflexivity |].
  reflexivity.
Qed.

(** ** Rounding to binary64 *)

Section Binary64Facts.
Import Binary64.
Local Open Scope Q_scope.

Lemma rne_floor (x : Q) : (Qfloor x <= rne x <= Qfloor x + 1)%Z.
Proof.
  unfold rne. cbv zeta.
  destruct (x - inject_Z (Qfloor x) ?= 1 # 2); try lia.
  destruct (Z.even (Qfloor x)); lia.
Qed.

Lemma rne_comp (x y : Q) : x == y -> rne x = rne y.
Proof.
  intros H. unfold rne. cbv zeta.
  rewrite (Qfloor_comp _ _ H).
  assert (E : x - inject_Z (Qfloor y) == y - inject_Z (Qfloor y)) by now rewrite H.
  now rewrite (Qcompare_comp _ _ E _ _ (Qeq_refl (1 # 2))).
Qed.

Lemma rne_Z (n : Z) : rne (inject_Z n) = n.
Proof.
  unfold rne. cbv zeta. rewrite Qfloor_Z.
  assert (E : (inject_Z n - inject_Z n ?= 1 # 2) = Lt).
  { apply Qlt_alt.
    assert (E0 : inject_Z n - inject_Z n == 0) by ring.
    rewrite E0. reflexivity. }
  now rewrite E.
Qed.

Lemma rne_mono (x y : Q) : x <= y -> (rne x <= rne y)%Z.
Proof.
  intros H.
  pose proof (Qfloor_resp_le x y H) as Hf.
  pose proof (rne_floor x) as Bx. pose proof (rne_floor y) as By.
  destruct (Z.eq_dec (Qfloor x) (Qfloor y)) as [E | NE]; [| lia].
  unfold rne in *. cbv zeta in *. rewrite E in *.
  set (f := Qfloor y) in *.
  destruct (x - inject_Z f ?= 1 # 2) eqn:Cx.
  - apply Qeq_alt in Cx.
    destruct (y - inject_Z f ?= 1 # 2) eqn:Cy.
    + lia.
    + apply Qlt_alt in Cy. lra.
    + destruct (Z.even f); lia.
  - lia.
  - apply Qgt_alt in Cx.
    destruct (y - inject_Z f ?= 1 # 2) eqn:Cy.
    + apply Qeq_alt in Cy. lra.
    + apply Qlt_alt in Cy. lra.
    + lia.
Qed.

Lemma pow2_pos (k : Z) : 0 < 2 ^ k.
Proof. apply Qpower_0_lt. reflexivity. Qed.

Lemma pow2_plus (a b : Z) : 2 ^ (a + b) == 2 ^ a * 2 ^ b.
Proof. apply Qpower_plus. discriminate. Qed.

Lemma pow2_le (a b : Z) : (a <= b)%Z -> 2 ^ a <= 2 ^ b.
Proof. intros H. apply Qpower_le_compat_l; [exact H | discriminate]. Qed.

Lemma pow2_Z (n : Z) : (0 <= n)%Z -> inject_Z (2 ^ n) == 2 ^ n.
Proof. intros H. now rewrite Zpower_Qpower. Qed.

Lemma ilog2_spec (q : Q) :
  0 < q -> 2 ^ ilog2 q <= q /\ q < 2 ^ (ilog2 q + 1).
Proof.
  intros Hq. destruct q as [n d].
  assert (Hn : (0 < n)%Z).
  { unfold Qlt in Hq. simpl in Hq. lia. }
  unfold ilog2. cbn [Qnum Qden].
  set (a := Z.log2 n). set (b := Z.log2 (Z.pos d)).
  pose proof (Z.log2_nonneg n) as Ha0. pose proof (Z.log2_nonneg (Z.pos d)) as Hb0.
  destruct (Z.log2_spec n Hn) as [Ha1 Ha2].
  destruct (Z.log2_spec (Z.pos d) ltac:(lia)) as [Hb1 Hb2].
  fold a in Ha0, Ha1, Ha2. fold b in Hb0, Hb1, Hb2.
  rewrite <- Z.add_1_r in Ha2, Hb2.
  assert (Qa1 : 2 ^ a <= inject_Z n).
  { rewrite <- pow2_Z by lia. now rewrite <- Zle_Qle. }
  assert (Qa2 : inject_Z n < 2 ^ (a + 1)).
  { rewrite <- pow2_Z by lia. now rewrite <- Zlt_Qlt. }
  assert (Qb1 : 2 ^ b <= inject_Z (Z.pos d)).
  { rewrite <- pow2_Z by lia. now rewrite <- Zle_Qle. }
  assert (Qb2 : inject_Z (Z.pos d) < 2 ^ (b + 1)).
  { rewrite <- pow2_Z by lia. now rewrite <- Zlt_Qlt. }
  assert (Eq : n # d == inject_Z n / inject_Z (Z.pos d)) by apply Qmake_Qdiv.
  assert (HD : 0 < inject_Z (Z.pos d)) by reflexivity.
  pose proof (pow2_pos a) as Pa. pose proof (pow2_pos b) as Pb.
  pose proof (pow2_plus a 1) as Ea. pose proof (pow2_plus b 1) as Eb.
  change (2 ^ 1) with 2 in Ea, Eb.
  pose proof (pow2_pos (a + 1)) as Pa1. pose proof (pow2_pos (b + 1)) as Pb1.
  assert (Lo : 2 ^ (a - b - 1) < n # d).
  { rewrite Eq. apply Qlt_shift_div_l; [exact HD |].
    replace (a - b - 1)%Z with (a - (b + 1))%Z by lia.
    rewrite Qpower_minus by discriminate.
    set (N := inject_Z n) in *. set (D := inject_Z (Z.pos d)) in *.
    set (A := 2 ^ a) in *. set (B := 2 ^ (b + 1)) in *.
    assert (EX : A / B * B == A) by (field; lra).
    assert (PX : 0 < A / B) by (apply Qlt_shift_div_l; lra).
    set (X := A / B) in *. clearbody N D A B X. nra. }
  assert (Hi : n # d < 2 ^ (a - b + 1)).
  { rewrite Eq. apply Qlt_shift_div_r; [exact HD |].
    replace (a - b + 1)%Z with (a + 1 - b)%Z by lia.
    rewrite Qpower_minus by discriminate.
    set (N := inject_Z n) in *. set (D := inject_Z (Z.pos d)) in *.
    set (A := 2 ^ (a + 1)) in *. set (B := 2 ^ b) in *.
    assert (EX : A / B * B == A) by (field; lra).
    assert (PX : 0 < A / B) by (apply Qlt_shift_div_l; lra).
    set (X := A / B) in *. clearbody N D A B X. nra. }
  destruct (Qle_bool (2 ^ (a - b)) (n # d)) eqn:T.
  - apply Qle_bool_iff in T. split; [exact T | exact Hi].
  - split.
    + apply Qlt_le_weak. exact Lo.
    + replace (a - b - 1 + 1)%Z with (a - b)%Z by lia.
      apply Qnot_le_lt. intros C. apply Qle_bool_iff in C. congruence.
Qed.

Lemma ilog2_unique (q : Q) (e : Z) :
  0 < q -> 2 ^ e <= q -> q < 2 ^ (e + 1) -> ilog2 q = e.
Proof.
  intros Hq H1 H2. destruct (ilog2_spec q Hq) as [S1 S2].
  destruct (Z.lt_trichotomy (ilog2 q) e) as [L | [E | G]]; [| exact E |].
  - exfalso. pose proof (pow2_le (ilog2 q + 1) e ltac:(lia)). lra.
  - exfalso. pose proof (pow2_le (e + 1) (ilog2 q) ltac:(lia)). lra.
Qed.

(** The significand of a positive number lies between 2^52 and 2^53. *)
Lemma significand_range (q : Q) :
  0 < q ->
  (2 ^ 52 <= rne (q / ulp q) <= 2 ^ 53)%Z.
Proof.
  intros Hq. destruct (ilog2_spec q Hq) as [S1 S2].
  unfold ulp. set (e := ilog2 q) in *.
  pose proof (pow2_pos (e - 52)) as Pu.
  assert (E1 : 2 ^ e == 2 ^ 52 * 2 ^ (e - 52)).
  { rewrite <- pow2_plus. now replace (52 + (e - 52))%Z with e by lia. }
  assert (E2 : 2 ^ (e + 1) == 2 ^ 53 * 2 ^ (e - 52)).
  { rewrite <- pow2_plus. now replace (53 + (e - 52))%Z with (e + 1)%Z by lia. }
  set (u := 2 ^ (e - 52)) in *.
  assert (L : inject_Z (2 ^ 52) <= q / u).
  { apply Qle_shift_div_l; [exact Pu |]. rewrite pow2_Z by lia. lra. }
  assert (U : q / u <= inject_Z (2 ^ 53)).
  { apply Qle_shift_div_r; [exact Pu |]. rewrite pow2_Z by lia. lra. }
  apply rne_mono in L. apply rne_mono in U. rewrite rne_Z in L, U. lia.
Qed.

Lemma round_pos_range (q : Q) :
  0 < q ->
  2 ^ ilog2 q <= round_pos q /\ round_pos q <= 2 ^ (ilog2 q + 1).
Proof.
  intros Hq. destruct (significand_range q Hq) as [M1 M2].
  unfold round_pos, ulp in *. set (e := ilog2 q) in *.
  pose proof (pow2_pos (e - 52)) as Pu.
  assert (E1 : 2 ^ e == 2 ^ 52 * 2 ^ (e - 52)).
  { rewrite <- pow2_plus. now replace (52 + (e - 52))%Z with e by lia. }
  assert (E2 : 2 ^ (e + 1) == 2 ^ 53 * 2 ^ (e - 52)).
  { rewrite <- pow2_plus. now replace (53 + (e - 52))%Z with (e + 1)%Z by lia. }
  set (u := 2 ^ (e - 52)) in *. set (m := rne (q / u)) in *.
  rewrite Zle_Qle in M1, M2. rewrite !pow2_Z in M1, M2 by lia.
  rewrite E1, E2. split; apply Qmult_le_compat_r; lra.
Qed.

Lemma round_pos_pos (q : Q) : 0 < q -> 0 < round_pos q.
Proof.
  intros Hq. destruct (round_pos_range q Hq) as [H _].
  pose proof (pow2_pos (ilog2 q)). lra.
Qed.

Lemma round_pos_mono (x y : Q) :
  0 < x -> x <= y -> round_pos x <= round_pos y.
Proof.
  intros Hx Hxy. assert (Hy : 0 < y) by lra.
  destruct (ilog2_spec x Hx) as [X1 X2]. destruct (ilog2_spec y Hy) as [Y1 Y2].
  destruct (round_pos_range x Hx) as [_ RX]. destruct (round_pos_range y Hy) as [RY _].
  destruct (Z.lt_trichotomy (ilog2 x) (ilog2 y)) as [L | [E | G]].
  - pose proof (pow2_le (ilog2 x + 1) (ilog2 y) ltac:(lia)). lra.
  - unfold round_pos, ulp. rewrite E.
    pose proof (pow2_pos (ilog2 y - 52)) as Pu. set (u := 2 ^ (ilog2 y - 52)) in *.
    apply Qmult_le_compat_r; [| lra].
    rewrite <- Zle_Qle. apply rne_mono.
    apply Qmult_le_compat_r; [exact Hxy |].
    apply Qlt_le_weak, Qinv_lt_0_compat, Pu.
  - exfalso. pose proof (pow2_le (ilog2 y + 1) (ilog2 x) ltac:(lia)). lra.
Qed.

Lemma round_pos_idem (q : Q) : 0 < q -> round_pos (round_pos q) == round_pos q.
Proof.
  intros Hq. destruct (significand_range q Hq) as [M1 M2].
  pose proof (round_pos_pos q Hq) as Hv.
  unfold round_pos at 2 3. unfold round_pos in Hv. unfold ulp in *.
  set (e := ilog2 q) in *.
  pose proof (pow2_pos (e - 52)) as Pu.
  assert (E1 : 2 ^ e == 2 ^ 52 * 2 ^ (e - 52)).
  { rewrite <- pow2_plus. now replace (52 + (e - 52))%Z with e by lia. }
  assert (E2 : 2 ^ (e + 1) == 2 ^ 53 * 2 ^ (e - 52)).
  { rewrite <- pow2_plus. now replace (53 + (e - 52))%Z with (e + 1)%Z by lia. }
  assert (E3 : 2 ^ (e + 2) == 2 ^ 54 * 2 ^ (e - 52)).
  { rewrite <- pow2_plus. now replace (54 + (e - 52))%Z with (e + 2)%Z by lia. }
  assert (E4 : 2 ^ (e + 1 - 52) == 2 * 2 ^ (e - 52)).
  { rewrite <- (pow2_plus 1). now replace (1 + (e - 52))%Z with (e + 1 - 52)%Z by lia. }
  set (u := 2 ^ (e - 52)) in *. set (m := rne (q / u)) in *.
  set (v := inject_Z m * u) in *.
  assert (Q1 : inject_Z (2 ^ 52) <= inject_Z m) by now rewrite <- Zle_Qle.
  assert (Q2 : inject_Z m <= inject_Z (2 ^ 53)) by now rewrite <- Zle_Qle.
  rewrite pow2_Z in Q1, Q2 by lia.
  destruct (Z.eq_dec m (2 ^ 53)%Z) as [Em | Nm].
  - (* the significand rounded up to 2^53: one exponent higher *)
    assert (Ev : v == 2 ^ (e + 1)).
    { unfold v. rewrite Em, pow2_Z by lia. now rewrite E2. }
    assert (Il : ilog2 v = (e + 1)%Z).
    { apply ilog2_unique; [exact Hv | lra |].
      replace (e + 1 + 1)%Z with (e + 2)%Z by lia.
      rewrite Ev, E2, E3.
      apply Qmult_lt_r; [exact Pu | reflexivity]. }
    unfold round_pos, ulp. rewrite Il.
    assert (Er : rne (v / 2 ^ (e + 1 - 52)) = (2 ^ 52)%Z).
    { rewrite <- rne_Z. apply rne_comp.
      rewrite E4, Ev, E2, pow2_Z by lia. field. lra. }
    rewrite Er, E4, pow2_Z by lia. rewrite Ev, E2.
    change (2 ^ 53) with (2 * 2 ^ 52). ring.
  - assert (Q3 : inject_Z m <= inject_Z (2 ^ 53 - 1)) by (rewrite <- Zle_Qle; lia).
    assert (Il : ilog2 v = e).
    { apply ilog2_unique; [exact Hv | |].
      - rewrite E1. unfold v. apply Qmult_le_compat_r; lra.
      - rewrite E2. unfold v. apply Qmult_lt_r; [exact Pu |].
        apply Qle_lt_trans with (inject_Z (2 ^ 53 - 1)); [exact Q3 | reflexivity]. }
    unfold round_pos, ulp. rewrite Il. fold u.
    assert (Er : rne (v / u) = m).
    { rewrite <- (rne_Z m). apply rne_comp. unfold v. field. lra. }
    rewrite Er. reflexivity.
Qed.

Lemma binary64_pos (q : Q) : 0 < q -> binary64 q = round_pos q.
Proof.
  intros H. unfold binary64. destruct (q ?= 0) eqn:E; [| | reflexivity].
  - apply Qeq_alt in E. lra.
  - apply Qlt_alt in E. lra.
Qed.

Lemma binary64_neg (q : Q) : q < 0 -> binary64 q = - round_pos (- q).
Proof.
  intros H. unfold binary64. destruct (q ?= 0) eqn:E; [| reflexivity |].
  - apply Qeq_alt in E. lra.
  - apply Qgt_alt in E. lra.
Qed.

Lemma binary64_zero (q : Q) : q == 0 -> binary64 q = 0.
Proof.
  intros H. unfold binary64. destruct (q ?= 0) eqn:E; [reflexivity | |].
  - apply Qlt_alt in E. lra.
  - apply Qgt_alt in E. lra.
Qed.

Lemma binary64_sign (q : Q) :
  (0 < q -> 0 < binary64 q) /\ (q < 0 -> binary64 q < 0) /\
  (q == 0 -> binary64 q == 0).
Proof.
  split; [| split].
  - intros H. rewrite (binary64_pos q H). now apply round_pos_pos.
  - intros H. rewrite (binary64_neg q H).
    pose proof (round_pos_pos (- q) ltac:(lra)). lra.
  - intros H. now rewrite (binary64_zero q H).
Qed.

Lemma binary64_mono (x y : Q) : x <= y -> binary64 x <= binary64 y.
Proof.
  intros H.
  destruct (binary64_sign x) as (Xp & Xn & Xz).
  destruct (binary64_sign y) as (Yp & Yn & Yz).
  destruct (Q_dec x 0) as [[Hx | Hx] | Hx]; destruct (Q_dec y 0) as [[Hy | Hy] | Hy];
    try (exfalso; lra).
  - rewrite (binary64_neg x Hx), (binary64_neg y Hy).
    pose proof (round_pos_mono (- y) (- x) ltac:(lra) ltac:(lra)). lra.
  - specialize (Xn Hx). specialize (Yp Hy). lra.
  - specialize (Xn Hx). specialize (Yz Hy). lra.
  - rewrite (binary64_pos x Hx), (binary64_pos y Hy).
    apply round_pos_mono; lra.
  - specialize (Xz Hx). specialize (Yp Hy). lra.
  - specialize (Xz Hx). specialize (Yz Hy). lra.
Qed.

Lemma binary64_idem (q : Q) : is_binary64 (binary64 q).
Proof.
  unfold is_binary64.
  destruct (Q_dec q 0) as [[H | H] | H].
  - rewrite (binary64_neg q H).
    pose proof (round_pos_pos (- q) ltac:(lra)) as P.
    rewrite (binary64_neg (- round_pos (- q))) by lra.
    assert (E : - - round_pos (- q) == round_pos (- q)) by ring.
    assert (I : round_pos (- - round_pos (- q)) == round_pos (round_pos (- q))).
    { unfold round_pos, ulp.
      assert (Il : ilog2 (- - round_pos (- q)) = ilog2 (round_pos (- q))).
      { destruct (ilog2_spec (round_pos (- q)) P) as [S1 S2].
        apply ilog2_unique; lra. }
      unfold round_pos, ulp in Il. rewrite Il.
      apply Qmult_comp; [| reflexivity].
      apply inject_Z_injective. apply rne_comp.
      apply Qmult_comp; [exact E | reflexivity]. }
    rewrite I, round_pos_idem by lra. reflexivity.
  - rewrite (binary64_pos q H).
    rewrite (binary64_pos (round_pos q)) by now apply round_pos_pos.
    now apply round_pos_idem.
  - rewrite (binary64_zero q H). reflexivity.
Qed.

Lemma binary64_nonneg (q : Q) : 0 <= q -> 0 <= binary64 q.
Proof. intros H. apply (binary64_mono 0 q H). Qed.

Lemma binary64_comp (x y : Q) : x == y -> binary64 x == binary64 y.
Proof.
  intros H. apply Qle_antisym; apply binary64_mono; lra.
Qed.

(** A binary64 value is not moved by an addition that is rounded back:
    the rounded sum with a non-negative term is not below it. *)
Lemma binary64_plus_nonneg (x d : Q) :
  is_binary64 x -> 0 <= d -> x <= binary64 (x + d).
Proof.
  intros Hx Hd. unfold is_binary64 in Hx.
  pose proof (binary64_mono x (x + d) ltac:(lra)). lra.
Qed.

Lemma rne_near (x : Q) :
  x - (1 # 2) <= inject_Z (rne x) /\ inject_Z (rne x) <= x + (1 # 2).
Proof.
  pose proof (Qfloor_le x) as Lo. pose proof (Qlt_floor x) as Hi.
  rewrite inject_Z_plus in Hi. change (inject_Z 1) with 1 in Hi.
  unfold rne. cbv zeta.
  destruct (x - inject_Z (Qfloor x) ?= 1 # 2) eqn:C.
  - apply Qeq_alt in C.
    destruct (Z.even (Qfloor x)); [| rewrite inject_Z_plus;
      change (inject_Z 1) with 1]; lra.
  - apply Qlt_alt in C. lra.
  - apply Qgt_alt in C. rewrite inject_Z_plus. change (inject_Z 1) with 1. lra.
Qed.

Lemma epsilon_half : 2 ^ (-52) == 2 * epsilon.
Proof. reflexivity. Qed.

Lemma round_pos_error (q : Q) :
  0 < q ->
  - (q * epsilon) <= round_pos q - q /\ round_pos q - q <= q * epsilon.
Proof.
  intros Hq. destruct (ilog2_spec q Hq) as [S1 _].
  unfold round_pos, ulp. set (e := ilog2 q) in *.
  pose proof (pow2_pos (e - 52)) as Pu.
  assert (E1 : 2 ^ (e - 52) == 2 ^ e * (2 * epsilon)).
  { rewrite <- epsilon_half, <- pow2_plus.
    now replace (e + -52)%Z with (e - 52)%Z by lia. }
  assert (Pe : 0 < epsilon) by apply pow2_pos.
  set (u := 2 ^ (e - 52)) in *.
  destruct (rne_near (q / u)) as [N1 N2].
  assert (EX : q / u * u == q) by (field; lra).
  set (X := q / u) in *. set (m := inject_Z (rne X)) in *.
  set (p := 2 ^ e) in *. set (eps := epsilon) in *.
  clearbody u X m p eps. split; nra.
Qed.

(** Rounding moves a number by at most half a unit in the last place:
    a relative error of [2 ^ -53]. *)
Lemma binary64_error (q : Q) :
  Qabs (binary64 q - q) <= Qabs q * epsilon.
Proof.
  apply Qabs_Qle_condition.
  destruct (Q_dec q 0) as [[H | H] | H].
  - rewrite (binary64_neg q H), (Qabs_neg q) by lra.
    destruct (round_pos_error (- q) ltac:(lra)) as [E1 E2].
    split; lra.
  - rewrite (binary64_pos q H), (Qabs_pos q) by lra.
    now apply round_pos_error.
  - rewrite (binary64_zero q H).
    assert (E : Qabs q == 0) by (rewrite H; reflexivity).
    rewrite E. split; lra.
Qed.

Lemma is_binary64_0 : is_binary64 0.
Proof. reflexivity. Qed.

End Binary64Facts.

(** ** Playback scheduling *)

Section PlaybackFacts.
Import Js Audio Playback.
Variable atob : jsstring -> option jsstring.

Lemma duration_pos (n : AudioBufferSourceNode) :
  buffer n <> [] -> (0 < duration n)%Q.
Proof.
  intros Hne. unfold duration. apply binary64_sign.
  unfold Qdiv, Qlt. simpl.
  destruct (buffer n); [congruence |]. cbn [length]. lia.
Qed.

(** A decoded clip has at least one frame. *)
Lemma decode_nonempty (d : jsstring) (float32 : list Q) :
  decode atob d = inr float32 -> float32 <> [].
Proof.
  unfold decode.
  destruct (base64ToUint8Array atob d); [| discriminate].
  destruct (Int16Array l); [| discriminate].
  destruct (map _ l0); [discriminate |].
  intros [= <-]. discriminate.
Qed.

Lemma handleAudio_effect (a : arrival) (s : state) :
  audio_effect a s (handleAudio atob a s).
Proof.
  unfold handleAudio.
  destruct (audioData (msg a)) as [d |]; [| constructor].
  destruct (truthy d); [| constructor].
  destruct (decode atob d) as [e | float32] eqn:Hd; [constructor |].
  cbn [nextStartTime isAiSpeaking sourceNodes nodes transcript].
  set (n := {| buffer := float32; when := _; stopped := false |}).
  change (if Qlt_le_dec (nextStartTime s) (currentTime a)
          then currentTime a else nextStartTime s) with (when n).
  apply audio_scheduled.
  - reflexivity.
  - apply duration_pos. cbn. eapply decode_nonempty; eauto.
  - intros Hlt. cbn.
    destruct (Qlt_le_dec (nextStartTime s) (currentTime a)) as [_ | Hle];
      [reflexivity |].
    exfalso. apply (Qlt_irrefl (currentTime a)).
    now apply Qle_lt_trans with (nextStartTime s).
  - intros Hle. cbn.
    destruct (Qlt_le_dec (nextStartTime s) (currentTime a)) as [Hlt | _];
      [| reflexivity].
    exfalso. apply (Qlt_irrefl (currentTime a)).
    now apply Qle_lt_trans with (nextStartTime s).
Qed.

(** The start time of a scheduled node is never before the cursor. *)
Lemma snapped_after_cursor (a : arrival) (s : state) (n : AudioBufferSourceNode) :
  ((nextStartTime s < currentTime a)%Q -> when n = currentTime a) ->
  ((currentTime a <= nextStartTime s)%Q -> when n = nextStartTime s) ->
  (nextStartTime s <= when n)%Q.
Proof.
  intros H1 H2.
  destruct (Qlt_le_dec (nextStartTime s) (currentTime a)) as [Hlt | Hle].
  - rewrite (H1 Hlt). now apply Qlt_le_weak.
  - rewrite (H2 Hle). apply Qle_refl.
Qed.

(** The start time is one of the two numbers it was read from. *)
Lemma snapped_binary64 (a : arrival) (s : state) (n : AudioBufferSourceNode) :
  ((nextStartTime s < currentTime a)%Q -> when n = currentTime a) ->
  ((currentTime a <= nextStartTime s)%Q -> when n = nextStartTime s) ->
  Binary64.is_binary64 (nextStartTime s) ->
  Binary64.is_binary64 (currentTime a) ->
  Binary64.is_binary64 (when n).
Proof.
  intros H1 H2 Hc Hn.
  destruct (Qlt_le_dec (nextStartTime s) (currentTime a)) as [Hlt | Hle].
  - now rewrite (H1 Hlt).
  - now rewrite (H2 Hle).
Qed.

Lemma handleTurnComplete_refs (a : arrival) (s : state) :
  let s' := handleTurnComplete a s in
  isAiSpeaking s' = isAiSpeaking s /\ nextStartTime s' = nextStartTime s /\
  sourceNodes s' = sourceNodes s /\ nodes s' = nodes s.
Proof. unfold handleTurnComplete. destruct (turnComplete (msg a)); cbn; auto. Qed.

(** What the audio branch does with a message that carries a clip, and
    with one that does not. *)
Lemma handleAudio_clip (a : arrival) (s : state) :
  match clip atob a with
  | Some float32 =>
      exists n,
        handleAudio atob a s
        = (Returned,
           {| isAiSpeaking := true;
              nextStartTime := Binary64.binary64 (when n + duration n);
              sourceNodes := sourceNodes s ∪ {[ length (nodes s) ]};
              nodes := nodes s ++ [n];
              transcript := transcript s |}) /\
        buffer n = float32 /\ stopped n = false /\ (0 < duration n)%Q /\
        ((nextStartTime s < currentTime a)%Q -> when n = currentTime a) /\
        ((currentTime a <= nextStartTime s)%Q -> when n = nextStartTime s)
  | None =>
      nodes (snd (handleAudio atob a s)) = nodes s /\
      sourceNodes (snd (handleAudio atob a s)) = sourceNodes s /\
      nextStartTime (snd (handleAudio atob a s)) = nextStartTime s /\
      (fst (handleAudio atob a s) = Returned ->
       snd (handleAudio atob a s) = s)
  end.
Proof.
  unfold clip, handleAudio.
  destruct (audioData (msg a)) as [d |]; [| cbn; auto].
  destruct (truthy d); [| cbn; auto].
  destruct (decode atob d) as [e | float32] eqn:Hd.
  - cbn. repeat split; discriminate.
  - cbn [nextStartTime isAiSpeaking sourceNodes nodes transcript].
    set (n := {| buffer := float32; when := _; stopped := false |}).
    change (if Qlt_le_dec (nextStartTime s) (currentTime a)
            then currentTime a else nextStartTime s) with (when n).
    exists n. split; [reflexivity |]. split; [reflexivity |].
    split; [reflexivity |]. split.
    { apply duration_pos. cbn. eapply decode_nonempty; eauto. }
    split.
    + intros Hlt. cbn.
      destruct (Qlt_le_dec (nextStartTime s) (currentTime a)) as [_ | Hle];
        [reflexivity |].
      exfalso. apply (Qlt_irrefl (currentTime a)).
      now apply Qle_lt_trans with (nextStartTime s).
    + intros Hle. cbn.
      destruct (Qlt_le_dec (nextStartTime s) (currentTime a)) as [Hlt | _];
        [| reflexivity].
      exfalso. apply (Qlt_irrefl (currentTime a)).
      now apply Qle_lt_trans with (nextStartTime s).
Qed.

Lemma onmessage_step_effect (a : arrival) (s : state) :
  interrupted (msg a) = false ->
  Binary64.is_binary64 (nextStartTime s) ->
  Binary64.is_binary64 (currentTime a) ->
  step_effect atob a s (snd (onmessage atob s a)).
Proof.
  intros Hni Hc Hnow. unfold onmessage, step_effect.
  pose proof (handleAudio_clip a s) as H.
  destruct (clip atob a) as [float32 |].
  - destruct H as (n & -> & Hb & Hs & Hd & H1 & H2).
    cbn [snd]. unfold handleInterrupted. rewrite Hni.
    match goal with |- context [handleTurnComplete a ?t] =>
      destruct (handleTurnComplete_refs a t) as (_ & Ec & Es & En) end.
    exists n. rewrite En, Es, Ec. cbn.
    repeat (split; [assumption || reflexivity |]).
    split.
    + apply binary64_plus_nonneg; [| now apply Qlt_le_weak].
      now apply (snapped_binary64 a s).
    + apply binary64_error.
  - destruct H as (En & Es & Ec & Hret).
    destruct (handleAudio atob a s) as [[| e] s1] eqn:E; cbn [fst snd] in *.
    + rewrite (Hret eq_refl). unfold handleInterrupted. rewrite Hni.
      destruct (handleTurnComplete_refs a s) as (_ & Ec' & Es' & En').
      auto.
    + auto.
Qed.

Lemma step_effect_cursor (a : arrival) (s s' : state) :
  step_effect atob a s s' -> (nextStartTime s <= nextStartTime s')%Q.
Proof.
  unfold step_effect. destruct (clip atob a).
  - intros (n & _ & _ & _ & _ & H1 & H2 & _ & Hw & _).
    apply Qle_trans with (when n); [| exact Hw].
    eapply snapped_after_cursor; eauto.
  - intros (_ & _ & ->). apply Qle_refl.
Qed.

Lemma step_effect_binary64 (a : arrival) (s s' : state) :
  step_effect atob a s s' ->
  Binary64.is_binary64 (nextStartTime s) ->
  Binary64.is_binary64 (nextStartTime s').
Proof.
  unfold step_effect. destruct (clip atob a).
  - intros (n & _ & _ & _ & _ & _ & _ & -> & _) _. apply binary64_idem.
  - now intros (_ & _ & ->).
Qed.

Lemma run_app (s : state) (l1 l2 : list arrival) :
  run atob s (l1 ++ l2) = run atob (run atob s l1) l2.
Proof. unfold run. apply fold_left_app. Qed.

Lemma run_binary64 (l : list arrival) :
  forall s,
    Forall (fun a => interrupted (msg a) = false) l ->
    Forall (fun a => Binary64.is_binary64 (currentTime a)) l ->
    Binary64.is_binary64 (nextStartTime s) ->
    Binary64.is_binary64 (nextStartTime (run atob s l)).
Proof.
  induction l as [| a l IH]; intros s Hall Hnow Hc; [exact Hc |].
  inversion Hall as [| ? ? Ha Hl]; subst.
  inversion Hnow as [| ? ? Hna Hnl]; subst.
  apply (IH _ Hl Hnl).
  apply (step_effect_binary64 a s); [| exact Hc].
  now apply onmessage_step_effect.
Qed.

Lemma run_cursor (l : list arrival) :
  forall s,
    Forall (fun a => interrupted (msg a) = false) l ->
    Forall (fun a => Binary64.is_binary64 (currentTime a)) l ->
    Binary64.is_binary64 (nextStartTime s) ->
    (nextStartTime s <= nextStartTime (run atob s l))%Q.
Proof.
  induction l as [| a l IH]; intros s Hall Hnow Hc.
  - apply Qle_refl.
  - inversion Hall as [| ? ? Ha Hl]; subst.
    inversion Hnow as [| ? ? Hna Hnl]; subst.
    pose proof (onmessage_step_effect a s Ha Hc Hna) as Hstep.
    apply Qle_trans with (nextStartTime (snd (onmessage atob s a))).
    + now apply (step_effect_cursor a).
    + apply (IH _ Hl Hnl). now apply (step_effect_binary64 a s).
Qed.

Lemma run_back_to_back (l : list arrival) :
  forall s,
    Forall (fun a => interrupted (msg a) = false) l ->
    Forall (fun a => Binary64.is_binary64 (currentTime a)) l ->
    Binary64.is_binary64 (nextStartTime s) ->
    exists clips,
      nodes (run atob s l) = nodes s ++ clips /\
      map buffer clips = carried atob l /\
      back_to_back (nextStartTime s) clips (nextStartTime (run atob s l)).
Proof.
  induction l as [| a l IH]; intros s Hall Hnow Hc.
  - exists []. cbn. split; [now rewrite app_nil_r | split; reflexivity].
  - inversion Hall as [| ? ? Ha Hl]; subst.
    inversion Hnow as [| ? ? Hna Hnl]; subst.
    pose proof (onmessage_step_effect a s Ha Hc Hna) as Hstep.
    destruct (IH (snd (onmessage atob s a)) Hl Hnl
                (step_effect_binary64 a s _ Hstep Hc)) as (clips & Hn & Hm & Hb).
    change (run atob s (a :: l))
      with (run atob (snd (onmessage atob s a)) l).
    unfold carried. cbn [flat_map]. fold (carried atob l).
    unfold step_effect in Hstep.
    destruct (clip atob a) as [float32 |].
    + destruct Hstep as (n & En & _ & Eb & _ & H1 & H2 & Ec & _).
      exists (n :: clips). rewrite Hn, En, <- app_assoc.
      split; [reflexivity |]. split.
      * cbn. now rewrite Eb, Hm.
      * cbn [back_to_back]. split.
        -- eapply snapped_after_cursor; eauto.
        -- now rewrite <- Ec.
    + destruct Hstep as (En & _ & Ec).
      exists clips. rewrite Hn, En. split; [reflexivity |].
      split; [exact Hm |]. now rewrite <- Ec.
Qed.

End PlaybackFacts.

(** C2, as the specification words it: the cursor advances by exactly the
    clip's duration and consecutive clips do not overlap.  Two clips of
    480 frames arrive in one burst at 4 s of the device clock, the cursor
    being behind.  The first starts at 4; the cursor after it is the
    rounded sum, strictly below 4 plus the clip's duration; the second
    clip starts at that cursor, before the first one's end. *)
Lemma playback_cursor_rounds_the_sum :
  let clip := Playback.audioMessage (Playback.silence 480) 4 in
  let s1 := Playback.run Playback.atob_id Playback.initial [clip] in
  let s2 := Playback.run Playback.atob_id Playback.initial [clip; clip] in
  let d := Binary64.binary64 (480 / 24000) in
  map Playback.when (Playback.nodes s2) = [4%Q; Playback.nextStartTime s1] /\
  map Playback.duration (Playback.nodes s2) = [d; d] /\
  ~ (Playback.nextStartTime s1 == 4 + d)%Q /\
  (Playback.nextStartTime s1 < 4 + d)%Q.
Proof.
  vm_compute.
  split; [reflexivity |]. split; [reflexivity |].
  split; [discriminate | reflexivity].
Qed.

(** C2, amended: over any sequence of arrivals none of which carries the
    interruption marker, with a cursor and clock readings that are
    numbers, the playback cursor never decreases from one prefix of the
    sequence to a longer one.  Every message that carries a clip
    schedules exactly one node that plays it, started exactly at the
    cursor after the cursor was snapped forward to the device clock when
    it was behind, and the cursor becomes the rounded sum of that start
    and the clip's duration: never before the start, and within a
    relative [2 ^ -53] of the exact sum.  Every other message leaves the
    clips and the cursor alone.  The clips scheduled over the whole
    sequence are the clips carried, in order, each starting no earlier
    than the cursor left by the one before. *)
Theorem playback_cursor_monotone_back_to_back
    (atob : Js.jsstring -> option Js.jsstring)
    (s : Playback.state) (arrivals : list Playback.arrival) :
  Forall (fun a => Playback.interrupted (Playback.msg a) = false) arrivals ->
  Forall (fun a => Binary64.is_binary64 (Playback.currentTime a)) arrivals ->
  Binary64.is_binary64 (Playback.nextStartTime s) ->
  (forall l1 l2, arrivals = l1 ++ l2 ->
     (Playback.nextStartTime (Playback.run atob s l1)
      <= Playback.nextStartTime (Playback.run atob s arrivals))%Q) /\
  (forall l1 a l2, arrivals = l1 ++ a :: l2 ->
     Playback.step_effect atob a (Playback.run atob s l1)
       (Playback.run atob s (l1 ++ [a]))) /\
  (exists clips,
     Playback.nodes (Playback.run atob s arrivals)
       = Playback.nodes s ++ clips /\
     map Playback.buffer clips = Playback.carried atob arrivals /\
     Playback.back_to_back (Playback.nextStartTime s) clips
       (Playback.nextStartTime (Playback.run atob s arrivals))).
Proof.
  intros Hall Hnow Hc. split; [| split].
  - intros l1 l2 ->. rewrite run_app.
    apply Forall_app in Hall. apply Forall_app in Hnow.
    apply run_cursor; try tauto. apply run_binary64; tauto.
  - intros l1 a l2 ->. rewrite run_app. cbn.
    apply Forall_app in Hall. destruct Hall as [Hall1 Hall].
    apply Forall_app in Hnow. destruct Hnow as [Hnow1 Hnow].
    apply onmessage_step_effect.
    + now inversion Hall.
    + now apply run_binary64.
    + now inversion Hnow.
  - now apply run_back_to_back.
Qed.

Lemma playback_cursor_monotone_back_to_back_witness :
  let arrivals :=
    [Playback.audioMessage [1; 0; 2; 0]%N 0;
     Playback.audioMessage [3; 0]%N (1 # 2);
     Playback.audioMessage [4; 0]%N 5] in
  Forall (fun a => Playback.interrupted (Playback.msg a) = false) arrivals /\
  Forall (fun a => Binary64.is_binary64 (Playback.currentTime a)) arrivals /\
  Binary64.is_binary64 (Playback.nextStartTime Playback.initial) /\
  (Playback.nextStartTime Playback.initial
   <= Playback.nextStartTime
        (Playback.run Playback.atob_id Playback.initial arrivals))%Q /\
  Playback.step_effect Playback.atob_id
    (Playback.audioMessage [4; 0]%N 5)
    (Playback.run Playback.atob_id Playback.initial
       [Playback.audioMessage [1; 0; 2; 0]%N 0;
        Playback.audioMessage [3; 0]%N (1 # 2)])
    (Playback.run Playback.atob_id Playback.initial arrivals).
Proof.
  intros arrivals.
  assert (Hall : Forall (fun a => Playback.interrupted (Playback.msg a) = false)
                   arrivals) by (repeat constructor).
  assert (Hnow : Forall (fun a => Binary64.is_binary64 (Playback.currentTime a))
                   arrivals) by (repeat constructor; vm_compute; reflexivity).
  assert (Hc : Binary64.is_binary64 (Playback.nextStartTime Playback.initial))
    by (vm_compute; reflexivity).
  split; [exact Hall |]. split; [exact Hnow |]. split; [exact Hc |].
  destruct (playback_cursor_monotone_back_to_back Playback.atob_id
              Playback.initial arrivals Hall Hnow Hc) as (Hmono & Hstep & _).
  split.
  - exact (Hmono [] arrivals eq_refl).
  - exact (Hstep [Playback.audioMessage [1; 0; 2; 0]%N 0;
                  Playback.audioMessage [3; 0]%N (1 # 2)]
             (Playback.audioMessage [4; 0]%N 5) [] eq_refl).
Defined.

(** The scenario of the specification, with clips of two, one and one
    frames: the second clip starts at the cursor the first one left, the
    third is snapped to the device clock after a stall. *)
Example playback_scenario :
  let d1 := Binary64.binary64 (1 / 24000) in
  let d2 := Binary64.binary64 (2 / 24000) in
  map (fun n => (Playback.when n, Playback.duration n))
    (Playback.nodes
       (Playback.run Playback.atob_id Playback.initial
          [Playback.audioMessage [1; 0; 2; 0]%N 0;
           Playback.audioMessage [3; 0]%N (1 # 24000);
           Playback.audioMessage [4; 0]%N 5]))
  = [(0, d2); (Binary64.binary64 (0 + d2), d1); (5, d1)]%Q.
Proof. vm_compute. reflexivity. Qed.

(** ** Interruption *)

Section InterruptionFacts.
Import Js Audio Playback.
Variable atob : jsstring -> option jsstring.

Lemma stop_stop (n : AudioBufferSourceNode) : stop (stop n) = stop n.
Proof. reflexivity. Qed.

(** [forEach(node => node.stop())] stops the nodes of the set and no
    other. *)
Lemma stopAll_lookup (ids : list nat) :
  forall (heap : list AudioBufferSourceNode) (i : nat),
    stopAll ids heap !! i
    = if decide (i ∈ ids) then stop <$> heap !! i else heap !! i.
Proof.
  induction ids as [| id rest IH]; intros heap i.
  - cbn. destruct (decide (i ∈ [])) as [Hin | _]; [| reflexivity].
    now apply elem_of_nil in Hin.
  - cbn [stopAll fold_left]. fold (stopAll rest (alter stop id heap)).
    rewrite IH. destruct (decide (i = id)) as [-> | Hne].
    + rewrite list_lookup_alter_eq.
      destruct (decide (id ∈ id :: rest)) as [_ | Hout];
        [| exfalso; apply Hout; left].
      destruct (decide (id ∈ rest)); [| reflexivity].
      destruct (heap !! id); reflexivity.
    + rewrite list_lookup_alter_ne by congruence.
      destruct (decide (i ∈ rest)) as [Hin | Hout];
        destruct (decide (i ∈ id :: rest)) as [Hin' | Hout'];
        try reflexivity.
      * exfalso. apply Hout'. now right.
      * exfalso. apply elem_of_cons in Hin'. tauto.
Qed.

Lemma stopAll_length (ids : list nat) :
  forall heap, length (stopAll ids heap) = length heap.
Proof.
  induction ids as [| id rest IH]; intros heap; [reflexivity |].
  cbn [stopAll fold_left]. fold (stopAll rest (alter stop id heap)).
  now rewrite IH, length_alter.
Qed.

End InterruptionFacts.

(** C3: when a message carrying the interruption marker has been processed
    (the handler ran to its end), the set of live source nodes is empty,
    the speaking flag is false and the playback cursor is 0; every node
    tracked before the message is still on the heap and stopped, whatever
    its start time, and so is the node the same message may have
    scheduled. *)
Theorem interruption_clears_playback
    (atob : Js.jsstring -> option Js.jsstring)
    (s : Playback.state) (a : Playback.arrival) :
  Playback.interrupted (Playback.msg a) = true ->
  fst (Playback.onmessage atob s a) = Playback.Returned ->
  let s' := snd (Playback.onmessage atob s a) in
  Playback.sourceNodes s' = ∅ /\
  Playback.isAiSpeaking s' = false /\
  Playback.nextStartTime s' = 0%Q /\
  (forall id n, id ∈ Playback.sourceNodes s ->
     Playback.nodes s !! id = Some n ->
     Playback.nodes s' !! id = Some (Playback.stop n)) /\
  (forall id n, Playback.nodes s' !! id = Some n ->
     id ∈ Playback.sourceNodes s \/ (length (Playback.nodes s) <= id)%nat ->
     Playback.stopped n = true).
Proof.
  intros Hint. unfold Playback.onmessage.
  destruct (Playback.handleAudio atob a s) as [o s1] eqn:Ha.
  pose proof (handleAudio_effect atob a s) as He. rewrite Ha in He.
  destruct o as [| e]; [| discriminate]. intros _. cbn [snd].
  destruct (handleTurnComplete_refs a s1) as (_ & _ & Hset & Hnodes).
  unfold Playback.handleInterrupted. rewrite Hint.
  cbn [Playback.sourceNodes Playback.isAiSpeaking Playback.nextStartTime
       Playback.nodes].
  rewrite Hset, Hnodes.
  split; [reflexivity |]. split; [reflexivity |]. split; [reflexivity |].
  inversion He as [Es | | n Hs Hd H1 H2 Es]; subst s1;
    cbn [Playback.sourceNodes Playback.nodes].
  - split.
    + intros id n Hin Hn. rewrite stopAll_lookup.
      destruct (decide (id ∈ elements (Playback.sourceNodes s))) as [_ | Hout].
      * now rewrite Hn.
      * exfalso. apply Hout. now apply elem_of_elements.
    + intros id n Hn [Hin | Hge].
      * rewrite stopAll_lookup in Hn.
        destruct (decide (id ∈ elements (Playback.sourceNodes s))) as [_ | Hout].
        -- destruct (Playback.nodes s !! id); [| discriminate].
           now injection Hn as <-.
        -- exfalso. apply Hout. now apply elem_of_elements.
      * apply lookup_lt_Some in Hn. rewrite stopAll_length in Hn. lia.
  - split.
    + intros id m Hin Hm. rewrite stopAll_lookup.
      destruct (decide (id ∈ elements
                  (Playback.sourceNodes s ∪ {[length (Playback.nodes s)]})))
        as [_ | Hout].
      * rewrite lookup_app_l by (eapply lookup_lt_Some; eauto).
        now rewrite Hm.
      * exfalso. apply Hout. apply elem_of_elements.
        apply elem_of_union. now left.
    + intros id m Hm Hor.
      rewrite stopAll_lookup in Hm.
      destruct (decide (id ∈ elements
                  (Playback.sourceNodes s ∪ {[length (Playback.nodes s)]})))
        as [_ | Hout].
      * destruct ((Playback.nodes s ++ [n]) !! id); [| discriminate].
        now injection Hm as <-.
      * destruct Hor as [Hin | Hge].
        -- exfalso. apply Hout. apply elem_of_elements.
           apply elem_of_union. now left.
        -- assert (id = length (Playback.nodes s)) as ->.
           { apply lookup_lt_Some in Hm. rewrite length_app in Hm.
             cbn in Hm. lia. }
           exfalso. apply Hout. apply elem_of_elements.
           apply elem_of_union. right. now apply elem_of_singleton.
Qed.

Lemma interruption_clears_playback_witness :
  let s := Playback.run Playback.atob_id Playback.initial
             [Playback.audioMessage [1; 0; 2; 0]%N 0;
              Playback.audioMessage [3; 0]%N (1 # 2)] in
  let a := Playback.interruptMessage (1 # 4) in
  Playback.interrupted (Playback.msg a) = true /\
  fst (Playback.onmessage Playback.atob_id s a) = Playback.Returned /\
  Playback.sourceNodes (snd (Playback.onmessage Playback.atob_id s a)) = ∅.
Proof.
  intros s a.
  split; [reflexivity |]. split; [reflexivity |].
  exact (proj1 (interruption_clears_playback Playback.atob_id s a
                  eq_refl eq_refl)).
Defined.

(** The second scenario of the specification: two clips in flight, an
    interruption arrives; both are stopped, the flag clears, the cursor
    is 0. *)
Example interruption_scenario :
  let s' := Playback.run Playback.atob_id Playback.initial
              [Playback.audioMessage [1; 0; 2; 0]%N 0;
               Playback.audioMessage [3; 0]%N (1 # 2);
               Playback.interruptMessage (1 # 4)] in
  map Playback.stopped (Playback.nodes s') = [true; true] /\
  Playback.isAiSpeaking s' = false /\
  Playback.nextStartTime s' = 0%Q /\
  size (Playback.sourceNodes s') = 0%nat.
Proof. vm_compute. repeat split. Qed.

(** ** Malformed audio payloads *)

Section DecodeFacts.
Import Js Audio Playback.
Variable atob : jsstring -> option jsstring.

(** [new Int16Array] throws exactly on an odd number of bytes. *)
Lemma Int16Array_odd_pair (bytes : list Z) :
  (Nat.odd (length bytes) = true -> Int16Array bytes = None) /\
  (forall b, Nat.odd (length (b :: bytes)) = true ->
             Int16Array (b :: bytes) = None).
Proof.
  induction bytes as [| hi rest [IH1 IH2]].
  - split; [discriminate | reflexivity].
  - split; [exact (IH2 hi) |].
    intros lo Hodd. cbn [Int16Array].
    rewrite IH1; [reflexivity |].
    cbn [length] in Hodd. now rewrite Nat.odd_succ_succ in Hodd.
Qed.

Lemma Int16Array_odd (bytes : list Z) :
  Nat.odd (length bytes) = true -> Int16Array bytes = None.
Proof. apply Int16Array_odd_pair. Qed.

(** A payload that is not base64, or whose bytes do not pair up into
    16-bit samples, makes the decoding throw. *)
Lemma decode_malformed (d : jsstring) :
  atob d = None \/
  (exists bin, atob d = Some bin /\ Nat.odd (length bin) = true) ->
  exists e, decode atob d = inl e.
Proof.
  unfold decode, base64ToUint8Array.
  intros [-> | (bin & -> & Hodd)]; [now eexists |].
  rewrite Int16Array_odd; [now eexists |].
  now rewrite length_map.
Qed.

End DecodeFacts.

(** C5: a message whose audio payload is malformed (not base64, or of a
    byte length that is not a multiple of the 16-bit sample size) makes
    [onmessage] throw before anything is scheduled: no node is created,
    the set of live nodes, the transcript and the playback cursor are what
    they were, and the messages that follow are processed from that
    state. *)
Theorem malformed_audio_is_skipped
    (atob : Js.jsstring -> option Js.jsstring)
    (s : Playback.state) (a : Playback.arrival) (d : Js.jsstring)
    (rest : list Playback.arrival) :
  Playback.audioData (Playback.msg a) = Some d ->
  Js.truthy d = true ->
  (atob d = None \/
   exists bin, atob d = Some bin /\ Nat.odd (length bin) = true) ->
  let s' := snd (Playback.onmessage atob s a) in
  (exists e, fst (Playback.onmessage atob s a) = Playback.Thrown e) /\
  Playback.nextStartTime s' = Playback.nextStartTime s /\
  Playback.nodes s' = Playback.nodes s /\
  Playback.sourceNodes s' = Playback.sourceNodes s /\
  Playback.transcript s' = Playback.transcript s /\
  Playback.run atob s (a :: rest) = Playback.run atob s' rest.
Proof.
  intros Hd Ht Hbad.
  destruct (decode_malformed atob d Hbad) as [e He].
  unfold Playback.onmessage, Playback.handleAudio.
  rewrite Hd, Ht, He. cbn.
  repeat split; try reflexivity.
  - now exists e.
  - unfold Playback.onmessage, Playback.handleAudio.
    now rewrite Hd, Ht, He.
Qed.

Lemma malformed_audio_is_skipped_witness :
  let a := Playback.audioMessage [1; 0; 2]%N 0 in
  let s := Playback.run Playback.atob_id Playback.initial
             [Playback.audioMessage [1; 0; 2; 0]%N 0] in
  (Playback.audioData (Playback.msg a) = Some [1; 0; 2]%N /\
   Js.truthy [1; 0; 2]%N = true /\
   Nat.odd (length [1; 0; 2]%N) = true) /\
  Playback.nextStartTime (snd (Playback.onmessage Playback.atob_id s a))
  = Playback.nextStartTime s.
Proof.
  intros a s. split; [repeat split |].
  refine (proj1 (proj2 (malformed_audio_is_skipped Playback.atob_id s a
                          [1; 0; 2]%N [] eq_refl eq_refl _))).
  right. exists [1; 0; 2]%N. split; reflexivity.
Defined.

(** A well-formed clip that follows a malformed one is scheduled as if the
    malformed one had not arrived. *)
Example malformed_then_valid :
  let bad := Playback.audioMessage [1; 0; 2]%N 0 in
  let good := Playback.audioMessage [3; 0]%N (1 # 2) in
  map (fun n => (Playback.when n, Playback.duration n))
    (Playback.nodes (Playback.run Playback.atob_id Playback.initial [bad; good]))
  = map (fun n => (Playback.when n, Playback.duration n))
      (Playback.nodes (Playback.run Playback.atob_id Playback.initial [good])).
Proof. reflexivity. Qed.

(** ** Teardown *)

(** C4, as stated, fails: after the teardown of a connected session the
    microphone stream is still live, so not everything is released; and
    the channel is closed last, after both audio contexts. *)
Lemma teardown_leaves_microphone_live :
  Lifecycle.released (Lifecycle.teardown Lifecycle.connected) = false /\
  Lifecycle.microphoneLive (Lifecycle.teardown Lifecycle.connected) = true /\
  Lifecycle.calls (Lifecycle.teardown Lifecycle.connected)
  = [Lifecycle.Then; Lifecycle.InputClose; Lifecycle.OutputClose;
     Lifecycle.SessionClose].
Proof. repeat split. Qed.

(** C4, amended: the cleanup registers the close of the session on the
    session promise when there is one, then closes the input context, then
    the output context, each when it exists; the session's [close()] runs
    afterwards, and only once the promise is fulfilled.  It runs the same
    way when no channel was ever established, it never touches the
    microphone stream, and a second teardown releases nothing more. *)
Theorem teardown_closes_contexts_then_channel (s : Lifecycle.state) :
  let s' := Lifecycle.teardown s in
  Lifecycle.sessionPromiseRef s'
  = match Lifecycle.sessionPromiseRef s with
    | Some (Lifecycle.Fulfilled _) => Some (Lifecycle.Fulfilled false)
    | p => p
    end /\
  Lifecycle.channelOpen
    (Lifecycle.microtasks (Lifecycle.settle true s')) = false /\
  Lifecycle.contextRunning (Lifecycle.inputAudioContextRef s') = false /\
  Lifecycle.contextRunning (Lifecycle.audioContextRef s') = false /\
  Lifecycle.stream s' = Lifecycle.stream s /\
  Lifecycle.calls s'
  = Lifecycle.calls s
    ++ match Lifecycle.sessionPromiseRef s with
       | Some _ => [Lifecycle.Then] | None => [] end
    ++ match Lifecycle.inputAudioContextRef s with
       | Some _ => [Lifecycle.InputClose] | None => [] end
    ++ match Lifecycle.audioContextRef s with
       | Some _ => [Lifecycle.OutputClose] | None => [] end
    ++ match Lifecycle.sessionPromiseRef s with
       | Some (Lifecycle.Fulfilled _) =>
           repeat Lifecycle.SessionClose (S (Lifecycle.reactions s))
       | _ => [] end /\
  Lifecycle.held (Lifecycle.teardown s') = Lifecycle.held s'.
Proof.
  destruct s as [p r i o m c].
  destruct p as [[| ch |] |], i as [[|] |], o as [[|] |];
    cbn; rewrite <- ?app_assoc, ?app_nil_r; cbn;
    repeat split; try reflexivity;
    destruct ch; reflexivity.
Qed.

(** The cleanup with no session promise at all: both contexts are closed
    all the same. *)
Example teardown_before_channel :
  let s := Lifecycle.gotUserMedia
             (Lifecycle.createContexts Lifecycle.unmounted_refs) in
  Lifecycle.calls (Lifecycle.teardown s)
  = [Lifecycle.InputClose; Lifecycle.OutputClose] /\
  Lifecycle.held (Lifecycle.teardown s) = (false, false, false, true).
Proof. split; reflexivity. Qed.

(** ** Canvas coordinates *)

(** Projections of the canvas state, reduced without touching the
    arithmetic. *)
Ltac canvas_fields :=
  unfold Canvas.screenToWorld, Canvas.worldToScreen, Canvas.transform,
    Canvas.rectLeft, Canvas.rectTop;
  cbn [Canvas.handleWheel Canvas.set_view Canvas.set_drag Canvas.set_content
       Canvas.scale Canvas.offset Canvas.viewportSize Canvas.rect
       Canvas.isDragging Canvas.dragStart Canvas.activeTool
       Canvas.activeColor Canvas.paths Canvas.currentPath Canvas.notes
       Canvas.shapes Canvas.x Canvas.y fst snd].

Section ViewportFacts.
Import Js Canvas Viewport.

(** The canvas of the arena: the defaults, with the container's
    rectangle for the handlers to read. *)
Lemma arena_state (c : container) :
  arena c
  = {| scale := 1; offset := {| x := 0; y := 0 |};
       viewportSize := (0, 0)%Q;
       rect := Some (boundsLeft c, boundsTop c);
       isDragging := false; dragStart := {| x := 0; y := 0 |};
       activeTool := hand; activeColor := lit "#ef4444";
       paths := []; currentPath := []; notes := []; shapes := [] |}.
Proof. reflexivity. Qed.

(** No handler of the canvas and no prop of the toolbar sets the viewport
    size. *)
Lemma step_viewportSize (s : state) (e : event) :
  viewportSize (step s e) = viewportSize s.
Proof.
  destruct e as [ctrl dx dy | cx cy | cx cy | | | | t | c]; cbn [step].
  - unfold handleWheel. now destruct ctrl.
  - unfold handleMouseDown. now destruct (activeTool s).
  - unfold handleMouseMove.
    destruct (isDragging s); [| reflexivity].
    now destruct (activeTool s).
  - unfold handleMouseUp. now destruct (activeTool s), (currentPath s).
  - unfold handleMouseUp. now destruct (activeTool s), (currentPath s).
  - reflexivity.
  - reflexivity.
  - reflexivity.
Qed.

Lemma run_viewportSize (es : list event) :
  forall s, viewportSize (run s es) = viewportSize s.
Proof.
  induction es as [| e es IH]; intros s; [reflexivity |].
  cbn [run fold_left]. fold (run (step s e) es).
  now rewrite IH, step_viewportSize.
Qed.

End ViewportFacts.

(** C7 (code bug): the component never learns the size of its viewport.
    The Set Viewport effect runs once, at mount, while the loading screen
    is rendered and [containerRef.current] is null, so it sets nothing;
    whatever the size and position of the container and whatever the
    user then does on the canvas, the viewport size stays 0 by 0.  At
    scale 1 with no pan the world origin is therefore drawn at the top
    left corner of the container and a click maps to its position
    relative to that corner, half the container's size not being taken
    off: in an 800 by 600 container a click at (400, 300) maps to world
    (400, 300), not to (0, 0).  Had the container been attached when the
    effect ran, the same click would be the world origin. *)
Theorem screenToWorld_misses_viewport_centre
    (c : Canvas.container) (es : list Viewport.event) :
  Viewport.mount c = Canvas.useState_defaults /\
  Canvas.viewportSize (Viewport.run (Viewport.arena c) es) = (0, 0)%Q /\
  Canvas.scale (Viewport.arena c) = 1%Q /\
  Canvas.offset (Viewport.arena c) = {| Canvas.x := 0; Canvas.y := 0 |} /\
  Gesture.same_point
    (Canvas.worldToScreen (Viewport.arena c) {| Canvas.x := 0; Canvas.y := 0 |})
    {| Canvas.x := Canvas.boundsLeft c; Canvas.y := Canvas.boundsTop c |} /\
  (forall clientX clientY,
     Gesture.same_point
       (Canvas.screenToWorld (Viewport.arena c) clientX clientY)
       {| Canvas.x := (clientX - Canvas.boundsLeft c)%Q;
          Canvas.y := (clientY - Canvas.boundsTop c)%Q |}) /\
  Gesture.same_point
    (Canvas.screenToWorld (Viewport.arena Viewport.board) 400 300)
    {| Canvas.x := 400; Canvas.y := 300 |} /\
  ~ Gesture.same_point
      (Canvas.screenToWorld (Viewport.arena Viewport.board) 400 300)
      {| Canvas.x := 0; Canvas.y := 0 |} /\
  Gesture.same_point
    (Canvas.screenToWorld
       (Canvas.attach Viewport.board
          (Canvas.setViewport (Some Viewport.board) Canvas.useState_defaults))
       400 300)
    {| Canvas.x := 0; Canvas.y := 0 |}.
Proof.
  split; [reflexivity |].
  split; [now rewrite run_viewportSize |].
  split; [reflexivity |]. split; [reflexivity |].
  split.
  { rewrite arena_state. split; canvas_fields; field. }
  split.
  { intros clientX clientY. rewrite arena_state.
    split; canvas_fields; field. }
  split; [split; reflexivity |].
  split; [intros [H _]; discriminate H |].
  split; reflexivity.
Qed.

(** The zoom gesture keeps the scale inside [0.1, 5], so the scale of a
    view reached from scale 1 is never 0. *)
Lemma handleWheel_scale_range (s : Canvas.state) (dx dy : Q) :
  (1 # 10 <= Canvas.scale (Canvas.handleWheel s true dx dy) <= 5)%Q.
Proof.
  cbn. split.
  - apply Q.min_glb; [apply Q.le_max_l | discriminate].
  - apply Q.le_min_r.
Qed.

(** ** Undo *)

Lemma slice_drop_last {A} (ps : list A) (p : A) :
  Js.slice (ps ++ [p]) 0 (-1) = ps.
Proof.
  unfold Js.slice, Js.relIndex. cbn [Z.ltb Z.compare].
  rewrite length_app. cbn [length].
  rewrite Z.min_l by lia.
  replace (Z.to_nat (Z.max (Z.of_nat (length ps + 1) + -1) 0 - 0))
    with (length ps) by lia.
  cbn [Z.to_nat drop]. apply take_app_length.
Qed.

(** C8: when the committed path list ends with a path, one undo removes
    exactly that path and keeps the others in order; a stroke just
    committed by releasing the pen is the one removed; on an empty list
    undo changes nothing; notes, shapes and the rest of the state are
    never changed. *)
Theorem undo_removes_last_path (s : Canvas.state) :
  (forall ps p, Canvas.paths s = ps ++ [p] ->
                Canvas.paths (Canvas.undo s) = ps) /\
  (Canvas.activeTool s = Canvas.pen -> Canvas.currentPath s <> [] ->
   Canvas.paths (Canvas.undo (Canvas.handleMouseUp s)) = Canvas.paths s) /\
  (Canvas.paths s = [] -> Canvas.undo s = s) /\
  Canvas.notes (Canvas.undo s) = Canvas.notes s /\
  Canvas.shapes (Canvas.undo s) = Canvas.shapes s /\
  Canvas.undo s
  = Canvas.set_content s (Canvas.activeTool s) (Canvas.paths (Canvas.undo s))
      (Canvas.currentPath s) (Canvas.notes s) (Canvas.shapes s).
Proof.
  split; [| split; [| split; [| repeat split]]].
  - intros ps p Hp. cbn. rewrite Hp. apply slice_drop_last.
  - intros Htool Hcur. unfold Canvas.handleMouseUp. rewrite Htool.
    destruct (Canvas.currentPath s) as [| c cs]; [congruence |].
    cbn. apply slice_drop_last.
  - intros Hp. destruct s. cbn in *. subst. reflexivity.
Qed.

Lemma undo_removes_last_path_witness :
  let p1 := {| Canvas.d := [Canvas.M {| Canvas.x := 0; Canvas.y := 0 |}];
               Canvas.color := Js.lit "#ef4444"; Canvas.width := 3 |} in
  let p2 := {| Canvas.d := [Canvas.M {| Canvas.x := 1; Canvas.y := 1 |};
                            Canvas.L {| Canvas.x := 2; Canvas.y := 3 |}];
               Canvas.color := Js.lit "#22c55e"; Canvas.width := 3 |} in
  let s := Canvas.set_content (Viewport.arena Viewport.board) Canvas.pen
             [p1; p2] [] [] [] in
  Canvas.paths s = [p1] ++ [p2] /\ Canvas.paths (Canvas.undo s) = [p1].
Proof.
  intros p1 p2 s. split; [reflexivity |].
  exact (proj1 (undo_removes_last_path s) [p1] p2 eq_refl).
Defined.

(** ** The session result *)

Section SessionFacts.
Import Js Session.

(** Two-digit padding of a number below 100, checked on each of them. *)
Lemma padStart_two_digits (k : N) :
  (k < 100)%N ->
  padStart (toString k) 2 48 = [digit (k / 10); digit (k mod 10)].
Proof.
  intros Hk.
  assert (Hall : forallb
            (fun k => bool_decide
               (padStart (toString k) 2 48 = [digit (k / 10); digit (k mod 10)]))
            (map N.of_nat (seq 0 100)) = true) by (vm_compute; reflexivity).
  rewrite forallb_forall in Hall.
  specialize (Hall k). apply bool_decide_eq_true in Hall; [exact Hall |].
  apply in_map_iff. exists (N.to_nat k). split; [lia |].
  apply in_seq. lia.
Qed.

(** Below 100 minutes [formatTime] has the shape MM:SS. *)
Lemma formatTime_mmss (seconds : N) :
  (seconds < 6000)%N -> formatTime seconds = mmss seconds.
Proof.
  intros H. unfold formatTime, mmss. cbv zeta.
  assert (Hs : (seconds mod 60 < 100)%N).
  { pose proof (N.mod_lt seconds 60). lia. }
  assert (Hm : (seconds / 60 < 100)%N).
  { apply N.Div0.div_lt_upper_bound. lia. }
  now rewrite !padStart_two_digits.
Qed.

End SessionFacts.

(** C9: on the code the claim fails on the error screen.  "End Session"
    hands over the elapsed time formatted by [formatTime] ("01:15" after
    75 seconds), but "Return to Home" hands over the constant "0:00"
    whatever the elapsed time, and that string is not of the shape MM:SS
    for any number of seconds. *)
Theorem return_to_home_duration_is_constant
    (elapsed : N) (topic : Js.jsstring)
    (transcript : list Playback.TranscriptEntry) :
  let failed := {| Session.connection := Session.error;
                   Session.elapsedTime := elapsed;
                   Session.topicProp := topic;
                   Session.transcriptRef := transcript |} in
  let live := {| Session.connection := Session.connected;
                 Session.elapsedTime := 75;
                 Session.topicProp := topic;
                 Session.transcriptRef := transcript |} in
  Session.duration <$> Session.click failed Session.ReturnToHome
    = Some (Js.lit "0:00") /\
  (forall seconds, Js.lit "0:00" <> Session.mmss seconds) /\
  Session.duration <$> Session.click live Session.EndSession
    = Some (Js.lit "01:15") /\
  Session.mmss 75 = Js.lit "01:15".
Proof.
  cbv zeta. split; [reflexivity |]. split; [discriminate |].
  split; reflexivity.
Qed.

(** ** Starting a session *)

Section HomeFacts.
Import Js Home.

Lemma extractImage_none (ps : list Part) :
  Forall (fun p => inlineData p = None) ps -> extractImage ps = [].
Proof.
  induction 1 as [| p ps Hp _ IH]; [reflexivity |].
  cbn. now rewrite Hp.
Qed.

Lemma extractImage_truthy (ps : list Part) :
  truthy (extractImage ps) = true ->
  exists p data, p ∈ ps /\ inlineData p = Some data /\
    extractImage ps = lit "data:image/png;base64," ++ interpolate data.
Proof.
  induction ps as [| p ps IH]; [discriminate |].
  cbn [extractImage]. destruct (inlineData p) as [data |] eqn:Hp.
  - intros _. exists p, data. split; [left | auto].
  - intros Ht. destruct (IH Ht) as (p' & data & Hin & Hd & He).
    exists p', data. split; [now right | auto].
Qed.

Lemma truthy_nonempty (u : jsstring) : truthy u = true <-> u <> [].
Proof. destruct u; cbn; split; congruence. Qed.

End HomeFacts.

(** C10: [handleStartInteraction] calls [onStart] only when the trimmed
    topic is not empty and the response held an inline image, and then with
    the topic and a non-empty data URL built from the first such part;
    when the topic is not blank and the request throws, or the response
    has no parts, or no part has inline data, [onStart] is not called, the
    loading flag is back to false and the topic is unchanged; with a blank
    topic nothing happens at all. *)
Theorem handleStartInteraction_guards_onStart
    (s : Home.state) (g : Home.generation) :
  let r := Home.handleStartInteraction s g in
  (forall t u, snd r = Some (t, u) ->
     Js.trim (Home.topic s) <> [] /\ u <> [] /\ t = Home.topic s /\
     exists ps p data,
       g = Home.Responds (Some ps) /\ p ∈ ps /\
       Home.inlineData p = Some data /\
       u = Js.lit "data:image/png;base64," ++ Home.interpolate data) /\
  (Js.trim (Home.topic s) <> [] ->
   g = Home.Throws \/ g = Home.Responds None \/
   (exists ps, g = Home.Responds (Some ps) /\
               Forall (fun p => Home.inlineData p = None) ps) ->
   snd r = None /\ Home.isLoading (fst r) = false /\
   Home.topic (fst r) = Home.topic s) /\
  (Js.trim (Home.topic s) = [] -> r = (s, None)).
Proof.
  cbv zeta. unfold Home.handleStartInteraction.
  split; [| split].
  - intros t u.
    destruct (Js.truthy (Js.trim (Home.topic s))) eqn:Ht; [| discriminate].
    apply truthy_nonempty in Ht. cbn [negb].
    destruct g as [| [ps |]]; try discriminate.
    destruct (Js.truthy (Home.extractImage ps)) eqn:Hu; [| discriminate].
    cbn. intros [= <- <-].
    destruct (extractImage_truthy ps Hu) as (p & data & Hin & Hd & He).
    split; [exact Ht |]. split; [now apply truthy_nonempty |].
    split; [reflexivity |]. now exists ps, p, data.
  - intros Ht Hg. apply truthy_nonempty in Ht. rewrite Ht. cbn [negb].
    destruct Hg as [-> | [-> | (ps & -> & Hall)]].
    + repeat split.
    + repeat split.
    + rewrite (extractImage_none ps Hall). repeat split.
  - intros Ht. rewrite Ht. reflexivity.
Qed.

Lemma handleStartInteraction_guards_onStart_witness :
  let s := {| Home.topic := Js.lit " space travel "; Home.isLoading := false |} in
  let g := Home.Responds (Some [ {| Home.inlineData := None |} ]) in
  (Js.trim (Home.topic s) <> [] /\
   Forall (fun p => Home.inlineData p = None) [ {| Home.inlineData := None |} ]) /\
  snd (Home.handleStartInteraction s g) = None /\
  Home.isLoading (fst (Home.handleStartInteraction s g)) = false /\
  Home.topic (fst (Home.handleStartInteraction s g)) = Home.topic s.
Proof.
  intros s g.
  assert (Ht : Js.trim (Home.topic s) <> []) by discriminate.
  assert (Hall : Forall (fun p => Home.inlineData p = None)
                   [ {| Home.inlineData := None |} ])
    by (repeat constructor).
  split; [split; assumption |].
  apply (proj1 (proj2 (handleStartInteraction_guards_onStart s g)) Ht).
  right. right. exists [ {| Home.inlineData := None |} ]. split; [reflexivity | exact Hall].
Defined.

(** A response with an image after a text part: [onStart] receives the
    topic as typed and the data URL of the image. *)
Example handleStartInteraction_success :
  Home.handleStartInteraction
    {| Home.topic := Js.lit " space travel "; Home.isLoading := false |}
    (Home.Responds (Some [ {| Home.inlineData := None |};
                           {| Home.inlineData := Some (Some (Js.lit "QUJD")) |} ]))
  = ({| Home.topic := Js.lit " space travel "; Home.isLoading := true |},
     Some (Js.lit " space travel ", Js.lit "data:image/png;base64,QUJD")).
Proof. reflexivity. Qed.

(* ====================================================================== *)
(** * Further properties of the audio utilities *)
(* ====================================================================== *)

Section CodecFacts.
Import Js Audio Codec.

(** Induction over a byte list two bytes at a time. *)
Lemma list_pair_ind {A} (P : list A -> Prop) :
  P [] -> (forall x, P [x]) -> (forall x y l, P l -> P (x :: y :: l)) ->
  forall l, P l.
Proof.
  intros H0 H1 H2 l.
  cut (P l /\ forall x, P (x :: l)); [tauto |].
  induction l as [| y l [IHa IHb]]; split; auto.
Qed.

Lemma int16_of_le_range (lo hi : Z) :
  is_byte lo -> is_byte hi -> is_int16 (int16_of_le lo hi).
Proof.
  unfold is_byte, is_int16, int16_of_le. intros Hlo Hhi. cbv zeta.
  destruct (Z.ltb_spec (lo + 256 * hi) 32768); lia.
Qed.

(** A buffer whose 16-bit words are known word by word decodes to the
    list of those words. *)
Lemma Int16Array_of_words (ws : list Z) :
  forall r : list Z,
    length r = (2 * length ws)%nat ->
    (forall i w, ws !! i = Some w ->
       exists lo hi, r !! (2 * i)%nat = Some lo /\
                     r !! (2 * i + 1)%nat = Some hi /\
                     int16_of_le lo hi = w) ->
    Int16Array r = Some ws.
Proof.
  induction ws as [| w ws IH]; intros r Hlen Hat.
  - destruct r; [reflexivity | discriminate].
  - destruct r as [| lo [| hi r]]; [discriminate | cbn in Hlen; lia |].
    destruct (Hat 0%nat w eq_refl) as (lo' & hi' & H0 & H1 & Hw).
    simpl in H0, H1. injection H0 as <-. injection H1 as <-.
    cbn [Int16Array]. rewrite (IH r).
    + now rewrite Hw.
    + cbn [length] in Hlen. lia.
    + intros i v Hv. destruct (Hat (S i) v Hv) as (a & b & Ha & Hb & Hab).
      exists a, b. split; [| split; [| exact Hab]].
      * replace (2 * S i)%nat with (S (S (2 * i))) in Ha by lia. exact Ha.
      * replace (2 * S i + 1)%nat with (S (S (2 * i + 1))) in Hb by lia.
        exact Hb.
Qed.

End CodecFacts.

Lemma Int16Array_reads_floatTo16BitPCM_aux (float32Array : list Js.number) :
  exists buffer,
    Audio.floatTo16BitPCM float32Array = Some buffer /\
    Audio.Int16Array buffer = Some (map Audio.pcm_of_number float32Array).
Proof.
  unfold Audio.floatTo16BitPCM.
  destruct (floatTo16BitPCM_loop_spec float32Array 0
              (repeat 0 (length float32Array * 2)))
    as (r & Hr & Hlen & _ & Hat).
  { rewrite repeat_length. lia. }
  exists r. split; [exact Hr |].
  apply Int16Array_of_words.
  - rewrite Hlen, repeat_length, length_map. lia.
  - intros i w Hw. rewrite list_lookup_fmap in Hw.
    destruct (float32Array !! i) as [x |] eqn:Hx; [| discriminate].
    injection Hw as <-.
    destruct (Hat i x Hx) as [Hlo Hhi].
    rewrite ToInt16_scaled_number in Hlo, Hhi.
    destruct (le_bytes_roundtrip _ (pcm_of_number_range x)) as (_ & _ & H3).
    eexists _, _. split; [exact Hlo |]. split; [exact Hhi | exact H3].
Qed.

(** X1: what [floatTo16BitPCM] writes, [new Int16Array] reads back: the
    buffer of any frame decodes, never throwing, to one 16-bit value per
    sample, the clamped and scaled sample. *)
Theorem Int16Array_reads_floatTo16BitPCM (float32Array : list Js.number) :
  exists buffer,
    Audio.floatTo16BitPCM float32Array = Some buffer /\
    Audio.Int16Array buffer = Some (map Audio.pcm_of_number float32Array).
Proof. exact (Int16Array_reads_floatTo16BitPCM_aux float32Array). Qed.

Lemma Int16Array_shape (bytes : list Z) :
  (Audio.Int16Array bytes = None <-> Nat.odd (length bytes) = true) /\
  (forall ws, Audio.Int16Array bytes = Some ws ->
     length bytes = (2 * length ws)%nat /\
     (Forall Codec.is_byte bytes -> Forall Codec.is_int16 ws)).
Proof.
  induction bytes as [| b | lo hi rest [IH1 IH2]] using list_pair_ind.
  - split; [split; discriminate |].
    intros ws [= <-]. split; [reflexivity | constructor].
  - split; [split; reflexivity | discriminate].
  - cbn [Audio.Int16Array length]. rewrite Nat.odd_succ_succ.
    destruct (Audio.Int16Array rest) as [l |].
    + split.
      * split; [discriminate |]. intros H. apply IH1 in H. discriminate.
      * intros ws [= <-]. destruct (IH2 l eq_refl) as [Hl Hr].
        split; [cbn [length]; lia |].
        intros Hb. inversion Hb as [| ? ? Hlo Hb']; subst.
        inversion Hb' as [| ? ? Hhi Hrest]; subst.
        constructor; [now apply int16_of_le_range | auto].
    + split; [| discriminate]. split; [| reflexivity].
      intros _. now apply IH1.
Qed.

(** X2: [new Int16Array(buffer)] throws exactly when the byte length is
    odd; otherwise it has half as many elements as the buffer has bytes,
    and on bytes each element is a signed 16-bit value. *)
Theorem Int16Array_even_length (bytes : list Z) :
  (Audio.Int16Array bytes = None <-> Nat.odd (length bytes) = true) /\
  (forall ws, Audio.Int16Array bytes = Some ws ->
     length bytes = (2 * length ws)%nat /\
     (Forall Codec.is_byte bytes -> Forall Codec.is_int16 ws)).
Proof. exact (Int16Array_shape bytes). Qed.

Section LoopbackFacts.
Import Js Audio Codec.

(** A byte string: every code unit below 256. *)
Lemma bytes_as_code_units (buffer : list Z) :
  Forall is_byte buffer ->
  Forall (fun c => (c < 256)%N) (map Z.to_N buffer) /\
  map (fun c => Z.of_N c mod 256) (map Z.to_N buffer) = buffer.
Proof.
  induction 1 as [| b l Hb _ [IH1 IH2]]; [split; [constructor | reflexivity] |].
  unfold is_byte in Hb. cbn [map]. split.
  - constructor; [lia | exact IH1].
  - rewrite IH2, Z2N.id by lia. now rewrite Z.mod_small by lia.
Qed.

Lemma base64_roundtrip_bytes
    (atob : jsstring -> option jsstring) (btoa : jsstring -> jsstring)
    (buffer : list Z) :
  (forall bin, Forall (fun c => (c < 256)%N) bin -> atob (btoa bin) = Some bin) ->
  Forall is_byte buffer ->
  base64ToUint8Array atob (arrayBufferToBase64 btoa buffer) = Some buffer.
Proof.
  intros Hinv Hb. destruct (bytes_as_code_units buffer Hb) as [H1 H2].
  unfold base64ToUint8Array, arrayBufferToBase64.
  now rewrite (Hinv _ H1), H2.
Qed.

(** The buffer [floatTo16BitPCM] returns holds bytes. *)
Lemma floatTo16BitPCM_bytes (a : list number) (buffer : list Z) :
  floatTo16BitPCM a = Some buffer -> Forall is_byte buffer.
Proof.
  unfold floatTo16BitPCM. intros Hb.
  destruct (floatTo16BitPCM_loop_spec a 0 (repeat 0 (length a * 2)))
    as (r & Hr & Hlen & _ & Hat).
  { rewrite repeat_length. lia. }
  rewrite Hr in Hb. injection Hb as <-.
  apply Forall_lookup. intros j b Hj.
  assert (Hlt : (j < 2 * length a)%nat).
  { apply lookup_lt_Some in Hj. rewrite Hlen, repeat_length in Hj. lia. }
  destruct (lookup_lt_is_Some_2 a (j / 2)%nat) as [x Hx].
  { apply Nat.Div0.div_lt_upper_bound. lia. }
  destruct (Hat _ x Hx) as [Hlo Hhi]. cbn [Nat.add] in Hlo, Hhi.
  destruct (le_bytes_roundtrip _ (ToInt16_range (scaled x))) as (B1 & B2 & _).
  pose proof (Nat.div_mod_eq j 2) as Hdm.
  pose proof (Nat.mod_upper_bound j 2 ltac:(lia)) as Hm.
  destruct (Nat.eq_dec (j mod 2)%nat 0%nat) as [E | E].
  - replace (2 * (j / 2))%nat with j in Hlo by lia.
    rewrite Hj in Hlo. injection Hlo as ->. exact B1.
  - replace (2 * (j / 2) + 1)%nat with j in Hhi by lia.
    rewrite Hj in Hhi. injection Hhi as ->. exact B2.
Qed.

(** Truncation toward zero stays within one of its argument, on the side
    of zero. *)
Lemma truncate_nonneg (q : Q) :
  (0 <= q)%Q ->
  (0 <= inject_Z (truncate q) /\
   inject_Z (truncate q) <= q /\ q < inject_Z (truncate q) + 1)%Q.
Proof.
  destruct q as [n d]. unfold Qle, Qlt, truncate. simpl. intros H.
  assert (Hn : 0 <= n) by lia.
  pose proof (Z.quot_rem' n (Z.pos d)) as E.
  pose proof (Z.rem_bound_pos n (Z.pos d) Hn ltac:(lia)) as B.
  pose proof (Z.quot_pos n (Z.pos d) Hn ltac:(lia)) as P.
  set (t := n ÷ Z.pos d) in *. set (r := Z.rem n (Z.pos d)) in *.
  clearbody t r. repeat split; lia.
Qed.

Lemma truncate_nonpos (q : Q) :
  (q <= 0)%Q ->
  (inject_Z (truncate q) <= 0 /\
   q <= inject_Z (truncate q) /\ inject_Z (truncate q) - 1 < q)%Q.
Proof.
  destruct q as [n d]. unfold Qle, Qlt, truncate. simpl. intros H.
  assert (Hn : n <= 0) by lia.
  pose proof (Z.quot_rem' n (Z.pos d)) as E.
  pose proof (Z.rem_bound_pos_neg n (Z.pos d) ltac:(lia) Hn) as B.
  assert (P : n ÷ Z.pos d <= 0).
  { rewrite <- (Z.opp_involutive n), Z.quot_opp_l by lia.
    pose proof (Z.quot_pos (- n) (Z.pos d) ltac:(lia) ltac:(lia)). lia. }
  set (t := n ÷ Z.pos d) in *. set (r := Z.rem n (Z.pos d)) in *.
  clearbody t r. repeat split; lia.
Qed.

End LoopbackFacts.

(** X3: when the platform's [atob] undoes [btoa] on byte strings,
    [base64ToUint8Array] undoes [arrayBufferToBase64] on every buffer of
    bytes. *)
Theorem base64ToUint8Array_inverts_arrayBufferToBase64
    (atob : Js.jsstring -> option Js.jsstring)
    (btoa : Js.jsstring -> Js.jsstring) (buffer : list Z) :
  (forall bin, Forall (fun c => (c < 256)%N) bin -> atob (btoa bin) = Some bin) ->
  Forall Codec.is_byte buffer ->
  Audio.base64ToUint8Array atob (Audio.arrayBufferToBase64 btoa buffer)
  = Some buffer.
Proof. apply base64_roundtrip_bytes. Qed.

Lemma base64ToUint8Array_inverts_arrayBufferToBase64_witness :
  (forall bin, Forall (fun c => (c < 256)%N) bin ->
     Playback.atob_id (id bin) = Some bin) /\
  Forall Codec.is_byte [255; 63; 0; 128] /\
  Audio.base64ToUint8Array Playback.atob_id
    (Audio.arrayBufferToBase64 id [255; 63; 0; 128])
  = Some [255; 63; 0; 128].
Proof.
  assert (H1 : forall bin, Forall (fun c => (c < 256)%N) bin ->
                 Playback.atob_id (id bin) = Some bin) by reflexivity.
  assert (H2 : Forall Codec.is_byte [255; 63; 0; 128]).
  { repeat constructor; unfold Codec.is_byte; lia. }
  split; [exact H1 |]. split; [exact H2 |].
  exact (base64ToUint8Array_inverts_arrayBufferToBase64
           Playback.atob_id id [255; 63; 0; 128] H1 H2).
Defined.

(** X4: whatever [atob] returns, a payload that [decode] accepts has an
    even, non-zero number of bytes, two per sample, and every sample of
    the clip lies in [-1, 1). *)
Theorem decode_samples_in_range
    (atob : Js.jsstring -> option Js.jsstring)
    (d : Js.jsstring) (float32 : list Q) :
  Playback.decode atob d = inr float32 ->
  float32 <> [] /\
  Forall (fun q => (-1 <= q)%Q /\ (q < 1)%Q) float32 /\
  exists byteArr,
    Audio.base64ToUint8Array atob d = Some byteArr /\
    length byteArr = (2 * length float32)%nat.
Proof.
  intros Hd. split; [eapply decode_nonempty; eauto |].
  unfold Playback.decode in Hd.
  destruct (Audio.base64ToUint8Array atob d) as [byteArr |] eqn:Hb;
    [| discriminate].
  destruct (Audio.Int16Array byteArr) as [dataInt16 |] eqn:Hi;
    [| discriminate].
  destruct (Int16Array_shape byteArr) as [_ Hshape].
  destruct (Hshape dataInt16 Hi) as [Hlen Hrange].
  assert (Hbytes : Forall Codec.is_byte byteArr).
  { unfold Audio.base64ToUint8Array in Hb.
    destruct (atob d); [| discriminate]. injection Hb as <-.
    apply List.Forall_forall. intros b Hin. apply in_map_iff in Hin.
    destruct Hin as (c & <- & _). unfold Codec.is_byte.
    apply Z.mod_pos_bound. lia. }
  specialize (Hrange Hbytes).
  assert (E : float32 = map (fun v => (inject_Z v / 32768)%Q) dataInt16).
  { destruct (map (fun v => (inject_Z v / 32768)%Q) dataInt16);
      [discriminate | now injection Hd]. }
  subst float32. split.
  - apply List.Forall_forall. intros q Hin. apply in_map_iff in Hin.
    destruct Hin as (v & <- & Hv).
    rewrite List.Forall_forall in Hrange. specialize (Hrange v Hv).
    unfold Codec.is_int16 in Hrange.
    unfold Qle, Qlt, Qdiv. simpl. lia.
  - exists byteArr. split; [reflexivity |]. now rewrite length_map.
Qed.

Lemma decode_samples_in_range_witness :
  Playback.decode Playback.atob_id [255; 63; 0; 128]%N
  = inr [16383 / 32768; -32768 / 32768]%Q /\
  [16383 / 32768; -32768 / 32768]%Q <> [].
Proof.
  assert (H : Playback.decode Playback.atob_id [255; 63; 0; 128]%N
              = inr [16383 / 32768; -32768 / 32768]%Q) by reflexivity.
  split; [exact H |].
  exact (proj1 (decode_samples_in_range Playback.atob_id _ _ H)).
Defined.

(** X5: a frame that the capture handler sends can be played back.  When
    [atob] undoes [btoa] on byte strings, the handler of an unmuted
    closure appends exactly one payload of MIME type audio/pcm;rate=16000
    for a non-empty frame, and [decode] turns that payload's data into one
    sample per input sample, the 16-bit value divided by 32768. *)
Theorem captured_frame_decodes
    (atob : Js.jsstring -> option Js.jsstring)
    (btoa : Js.jsstring -> Js.jsstring)
    (rms : list Js.number -> Js.number)
    (inputData : list Js.number) (s : Capture.state) :
  (forall bin, Forall (fun c => (c < 256)%N) bin -> atob (btoa bin) = Some bin) ->
  inputData <> [] ->
  exists p,
    Capture.outbound (Capture.handler btoa rms false inputData s)
    = Capture.outbound s ++ [p] /\
    Capture.mimeType p = Js.lit "audio/pcm;rate=16000" /\
    Playback.decode atob (Capture.data p)
    = inr (map (fun x => (inject_Z (Audio.pcm_of_number x) / 32768)%Q)
             inputData).
Proof.
  intros Hinv Hne. unfold Capture.handler.
  destruct (Int16Array_reads_floatTo16BitPCM_aux inputData)
    as (pcm & Hpcm & Hread).
  rewrite Hpcm. eexists. split; [reflexivity |]. split; [reflexivity |].
  cbn [Capture.data]. unfold Playback.decode.
  rewrite (base64_roundtrip_bytes atob btoa pcm Hinv
             (floatTo16BitPCM_bytes _ _ Hpcm)).
  rewrite Hread, map_map.
  destruct inputData; [congruence | reflexivity].
Qed.

Lemma captured_frame_decodes_witness :
  (forall bin, Forall (fun c => (c < 256)%N) bin ->
     Playback.atob_id (id bin) = Some bin) /\
  [Js.Fin (1 # 2); Js.NaN] <> [] /\
  exists p,
    Capture.outbound
      (Capture.handler id (fun _ => Js.Fin 0) false
         [Js.Fin (1 # 2); Js.NaN] Capture.mounted)
    = Capture.outbound Capture.mounted ++ [p] /\
    Capture.mimeType p = Js.lit "audio/pcm;rate=16000" /\
    Playback.decode Playback.atob_id (Capture.data p)
    = inr (map (fun x => (inject_Z (Audio.pcm_of_number x) / 32768)%Q)
             [Js.Fin (1 # 2); Js.NaN]).
Proof.
  assert (H1 : forall bin, Forall (fun c => (c < 256)%N) bin ->
                 Playback.atob_id (id bin) = Some bin) by reflexivity.
  assert (H2 : [Js.Fin (1 # 2); Js.NaN] <> []) by discriminate.
  split; [exact H1 |]. split; [exact H2 |].
  exact (captured_frame_decodes Playback.atob_id id (fun _ => Js.Fin 0)
           [Js.Fin (1 # 2); Js.NaN] Capture.mounted H1 H2).
Defined.

(** X6: the quantisation error of the capture encoding as the playback
    decoding sees it.  For a finite sample the 16-bit value divided by
    32768 lies in [-1, 1), is never further from zero than the clamped
    sample, and is within 1/16384 of it. *)
Theorem pcm_quantisation_error (q : Q) :
  let c := Qmax (-1) (Qmin 1 q) in
  let decoded := (inject_Z (Audio.pcm_of_sample q) / 32768)%Q in
  (-1 <= decoded)%Q /\ (decoded < 1)%Q /\
  (c - (1 # 16384) < decoded)%Q /\ (decoded < c + (1 # 32768))%Q /\
  ((0 <= c)%Q -> (0 <= decoded)%Q /\ (decoded <= c)%Q) /\
  ((c < 0)%Q -> (c <= decoded)%Q /\ (decoded <= 0)%Q).
Proof.
  cbv zeta. destruct (clamp_bounds q) as [Hlo Hhi].
  unfold Audio.pcm_of_sample. cbv zeta.
  set (c := Qmax (-1) (Qmin 1 q)) in *.
  unfold Qdiv. change (/ 32768)%Q with (1 # 32768)%Q.
  destruct (Qlt_le_dec c 0) as [Hneg | Hpos].
  - cbv iota.
    destruct (truncate_nonpos (c * 32768)) as (H0 & H1 & H2); [lra |].
    set (T := inject_Z (Js.truncate (c * 32768))) in *.
    clearbody T c. repeat split; intros; lra.
  - cbv iota.
    destruct (truncate_nonneg (c * 32767)) as (H0 & H1 & H2); [lra |].
    set (T := inject_Z (Js.truncate (c * 32767))) in *.
    clearbody T c. repeat split; intros; lra.
Qed.

Lemma pcm_quantisation_error_witness :
  (0 <= Qmax (-1) (Qmin 1 (1 # 3)))%Q /\
  (inject_Z (Audio.pcm_of_sample (1 # 3)) / 32768
   <= Qmax (-1) (Qmin 1 (1 # 3)))%Q.
Proof.
  assert (H : (0 <= Qmax (-1) (Qmin 1 (1 # 3)))%Q) by discriminate.
  split; [exact H |].
  exact (proj2 (proj1 (proj2 (proj2 (proj2 (proj2
           (pcm_quantisation_error (1 # 3)))))) H)).
Defined.

(* ====================================================================== *)
(** * Further properties of the capture path *)
(* ====================================================================== *)

Section CaptureLogFacts.
Import Js Audio Capture CaptureLog.
Variable btoa : jsstring -> jsstring.
Variable rms : list number -> number.

(** Without [onopen] in between, the installed handler stays what it is,
    and each frame adds one payload or none according to the flag its
    closure captured. *)
Lemma run_without_open (es : list event) :
  forall s,
    Forall (fun e => isOpen e = false) es ->
    let s' := run btoa rms s es in
    onaudioprocess s' = onaudioprocess s /\
    length (outbound s')
    = (length (outbound s)
       + match onaudioprocess s with
         | Some false => frames es
         | _ => 0
         end)%nat.
Proof.
  induction es as [| e es IH]; intros s Hall.
  - cbn. split; [reflexivity |]. destruct (onaudioprocess s) as [[|] |]; lia.
  - inversion Hall as [| ? ? He Hes]; subst.
    cbn [run fold_left]. fold (run btoa rms (step btoa rms s e) es).
    destruct (IH (step btoa rms s e) Hes) as [IH1 IH2].
    cbv zeta in IH1, IH2. rewrite IH1, IH2.
    destruct e as [| | | f]; cbn [step]; try discriminate.
    + cbn. split; [reflexivity |].
      destruct (onaudioprocess s) as [[|] |]; reflexivity.
    + cbn. split; [reflexivity |].
      destruct (onaudioprocess s) as [[|] |]; reflexivity.
    + unfold frames in *. cbn [List.filter isFrame length].
      destruct (onaudioprocess s) as [[|] |] eqn:Hh.
      * rewrite handler_muted_drops, Hh. split; [reflexivity | lia].
      * destruct (handler_unmuted_sends btoa rms f s) as (_ & H2 & H3).
        rewrite H2, H3, Hh. split; [reflexivity | lia].
      * rewrite Hh. split; [reflexivity | lia].
Qed.

(** Every event keeps what was sent and adds at most one payload, of MIME
    type audio/pcm;rate=16000. *)
Lemma step_outbound (s : state) (e : event) :
  exists ps,
    outbound (step btoa rms s e) = outbound s ++ ps /\
    (length ps <= if isFrame e then 1 else 0)%nat /\
    Forall (fun p => mimeType p = lit "audio/pcm;rate=16000") ps.
Proof.
  destruct e as [| | | f]; cbn [step isFrame].
  - exists []. cbn. rewrite app_nil_r. auto.
  - exists []. cbn. rewrite app_nil_r. auto.
  - exists []. destruct (connecting s); cbn; rewrite app_nil_r; auto.
  - destruct (onaudioprocess s) as [[|] |].
    + exists []. rewrite handler_muted_drops, app_nil_r. cbn. auto.
    + unfold handler.
      destruct (floatTo16BitPCM_total f) as [pcm ->]. cbn.
      eexists [_]. split; [reflexivity |]. split; [cbn; lia |].
      repeat constructor.
    + exists []. rewrite app_nil_r. cbn. auto.
Qed.

Lemma run_outbound (es : list event) :
  forall s,
    exists ps,
      outbound (run btoa rms s es) = outbound s ++ ps /\
      (length ps <= frames es)%nat /\
      Forall (fun p => mimeType p = lit "audio/pcm;rate=16000") ps.
Proof.
  induction es as [| e es IH]; intros s.
  - exists []. cbn. rewrite app_nil_r. auto.
  - cbn [run fold_left]. fold (run btoa rms (step btoa rms s e) es).
    destruct (step_outbound s e) as (ps1 & E1 & L1 & F1).
    destruct (IH (step btoa rms s e)) as (ps2 & E2 & L2 & F2).
    exists (ps1 ++ ps2). rewrite E2, E1, <- app_assoc.
    split; [reflexivity |]. split.
    + rewrite length_app. unfold frames in *. cbn [List.filter].
      destruct (isFrame e); cbn [length]; lia.
    + apply Forall_app. split; assumption.
Qed.

End CaptureLogFacts.

(** X7: nothing is sent before the channel opens.  From the mounted
    component, whatever the user toggles or retries and however many
    frames the device delivers, no payload is sent until [onopen] has
    run. *)
Theorem nothing_sent_before_open
    (btoa : Js.jsstring -> Js.jsstring) (rms : list Js.number -> Js.number)
    (es : list Capture.event) :
  Forall (fun e => CaptureLog.isOpen e = false) es ->
  Capture.outbound (Capture.run btoa rms Capture.mounted es) = [] /\
  Capture.onaudioprocess (Capture.run btoa rms Capture.mounted es) = None.
Proof.
  intros Hall.
  destruct (run_without_open btoa rms es Capture.mounted Hall) as [H1 H2].
  split; [| exact H1].
  cbn in H2. now apply length_zero_iff_nil.
Qed.

Lemma nothing_sent_before_open_witness :
  let es := [Capture.AudioProcess [Js.Fin (1 # 2)]; Capture.ToggleMute;
             Capture.Retry; Capture.AudioProcess [Js.Fin 1]] in
  Forall (fun e => CaptureLog.isOpen e = false) es /\
  Capture.outbound (Capture.run id (fun _ => Js.Fin 0) Capture.mounted es) = [].
Proof.
  intros es.
  assert (H : Forall (fun e => CaptureLog.isOpen e = false) es)
    by (repeat constructor).
  split; [exact H |].
  exact (proj1 (nothing_sent_before_open id (fun _ => Js.Fin 0) es H)).
Defined.

(** X8: the outbound audio is append-only and well-typed.  Over any
    sequence of events from any state, what was sent stays sent in the
    same order, at most one payload is added per delivered frame, and
    every added payload has MIME type audio/pcm;rate=16000. *)
Theorem outbound_append_only
    (btoa : Js.jsstring -> Js.jsstring) (rms : list Js.number -> Js.number)
    (s : Capture.state) (es : list Capture.event) :
  exists ps,
    Capture.outbound (Capture.run btoa rms s es) = Capture.outbound s ++ ps /\
    (length ps <= CaptureLog.frames es)%nat /\
    Forall (fun p => Capture.mimeType p = Js.lit "audio/pcm;rate=16000") ps.
Proof. apply run_outbound. Qed.

(** X9: sending is decided when the connection is made, not when the
    frame arrives.  Once a handler is installed, and until another
    [onopen], the number of payloads sent is the number of frames
    delivered if the handler's closure captured [isMuted = false], and
    zero if it captured [true], whatever the mute button does in
    between. *)
Theorem sending_fixed_by_captured_flag
    (btoa : Js.jsstring -> Js.jsstring) (rms : list Js.number -> Js.number)
    (s : Capture.state) (captured : bool) (es : list Capture.event) :
  Capture.onaudioprocess s = Some captured ->
  Forall (fun e => CaptureLog.isOpen e = false) es ->
  length (Capture.outbound (Capture.run btoa rms s es))
  = (length (Capture.outbound s)
     + if captured then 0 else CaptureLog.frames es)%nat.
Proof.
  intros Hh Hall.
  destruct (run_without_open btoa rms es s Hall) as [_ H].
  rewrite H, Hh. destruct captured; reflexivity.
Qed.

Lemma sending_fixed_by_captured_flag_witness :
  let s := Capture.run id (fun _ => Js.Fin 0) Capture.mounted
             [Capture.ToggleMute; Capture.Retry; Capture.Open] in
  let es := [Capture.ToggleMute; Capture.AudioProcess [Js.Fin (1 # 2)];
             Capture.AudioProcess [Js.Fin 1]] in
  Capture.onaudioprocess s = Some true /\
  Forall (fun e => CaptureLog.isOpen e = false) es /\
  Capture.isMuted (Capture.run id (fun _ => Js.Fin 0) s es) = false /\
  length (Capture.outbound (Capture.run id (fun _ => Js.Fin 0) s es))
  = (length (Capture.outbound s) + 0)%nat.
Proof.
  intros s es.
  assert (H1 : Capture.onaudioprocess s = Some true) by reflexivity.
  assert (H2 : Forall (fun e => CaptureLog.isOpen e = false) es)
    by (repeat constructor).
  split; [exact H1 |]. split; [exact H2 |]. split; [reflexivity |].
  exact (sending_fixed_by_captured_flag id (fun _ => Js.Fin 0) s true es H1 H2).
Defined.

(* ====================================================================== *)
(** * Further properties of the playback scheduler *)
(* ====================================================================== *)

Section SchedulerFacts.
Import Js Audio Playback Scheduler.
Variable atob : jsstring -> option jsstring.

Lemma consistent_initial : consistent initial.
Proof.
  split; cbn.
  - intros id Hid. now apply not_elem_of_empty in Hid.
  - congruence.
  - apply Qle_refl.
  - constructor.
Qed.

Lemma consistent_handleAudio (a : arrival) (s : state) :
  consistent s -> consistent (snd (handleAudio atob a s)).
Proof.
  intros [Hlive Hspk Hcur Hst].
  destruct (handleAudio_effect atob a s) as [| e | n Hs Hd H1 H2]; cbn [snd].
  - now split.
  - split; cbn; auto.
  - assert (Hw : (0 <= when n)%Q).
    { apply Qle_trans with (nextStartTime s); [exact Hcur |].
      eapply snapped_after_cursor; eauto. }
    split; cbn.
    + intros id Hid. apply elem_of_union in Hid as [Hid | Hid].
      * destruct (Hlive id Hid) as (m & Hm & Hms). exists m.
        split; [| exact Hms].
        rewrite lookup_app_l by (eapply lookup_lt_Some; eauto). exact Hm.
      * apply elem_of_singleton in Hid as ->. exists n.
        split; [| exact Hs].
        rewrite lookup_app_r by lia. now rewrite Nat.sub_diag.
    + reflexivity.
    + apply binary64_nonneg.
      apply Qle_trans with (when n); [exact Hw |].
      rewrite <- (Qplus_0_r (when n)) at 1.
      apply Qplus_le_r. now apply Qlt_le_weak.
    + apply Forall_app. split; [exact Hst |]. now constructor.
Qed.

Lemma consistent_handleTurnComplete (a : arrival) (s : state) :
  consistent s -> consistent (handleTurnComplete a s).
Proof.
  intros [Hlive Hspk Hcur Hst].
  unfold handleTurnComplete. destruct (turnComplete (msg a)); now split.
Qed.

Lemma consistent_handleInterrupted (a : arrival) (s : state) :
  consistent s -> consistent (handleInterrupted a s).
Proof.
  intros [Hlive Hspk Hcur Hst].
  unfold handleInterrupted. destruct (interrupted (msg a)); [| now split].
  split; cbn.
  - intros id Hid. now apply not_elem_of_empty in Hid.
  - congruence.
  - apply Qle_refl.
  - apply Forall_lookup. intros i n Hn. rewrite stopAll_lookup in Hn.
    destruct (decide (i ∈ elements (sourceNodes s))).
    + destruct (nodes s !! i) as [m |] eqn:Hm; [| discriminate].
      injection Hn as <-.
      exact (Forall_lookup_1 (fun n => (0 <= when n)%Q) _ _ _ Hst Hm).
    + exact (Forall_lookup_1 (fun n => (0 <= when n)%Q) _ _ _ Hst Hn).
Qed.

Lemma consistent_onended (id : nat) (s : state) :
  consistent s -> consistent (onended id s).
Proof.
  intros [Hlive Hspk Hcur Hst]. split; cbn.
  - intros id' Hid'. apply elem_of_difference in Hid' as [Hid' _]. auto.
  - intros Hne.
    destruct (decide (size (sourceNodes s ∖ {[id]}) = 0%nat)) as [Hz | _].
    + apply size_empty_iff in Hz. apply leibniz_equiv in Hz. contradiction.
    + apply Hspk. intros He. apply Hne. rewrite He.
      apply set_eq. intros x. rewrite elem_of_difference.
      split; [tauto |]. intros Hx. now apply not_elem_of_empty in Hx.
  - exact Hcur.
  - exact Hst.
Qed.

Lemma consistent_step (s : state) (e : event) :
  consistent s -> consistent (step atob s e).
Proof.
  intros Hs. destruct e as [a | id]; cbn [step].
  - unfold onmessage.
    pose proof (consistent_handleAudio a s Hs) as Ha.
    destruct (handleAudio atob a s) as [[| err] s1]; cbn [snd] in *.
    + now apply consistent_handleInterrupted, consistent_handleTurnComplete.
    + exact Ha.
  - now apply consistent_onended.
Qed.

(** The outcome of the audio branch depends on the message alone. *)
Lemma handleAudio_outcome (a : arrival) (s : state) :
  fst (handleAudio atob a s)
  = match rejects atob a with
    | true => match audioData (msg a) with
              | Some d => match decode atob d with
                          | inl e => Thrown e
                          | inr _ => Returned
                          end
              | None => Returned
              end
    | false => Returned
    end.
Proof.
  unfold handleAudio, rejects.
  destruct (audioData (msg a)) as [d |]; [| reflexivity].
  destruct (truthy d); [| reflexivity].
  destruct (decode atob d); reflexivity.
Qed.

Lemma handleAudio_transcript (a : arrival) (s : state) :
  transcript (snd (handleAudio atob a s)) = transcript s.
Proof.
  destruct (handleAudio_effect atob a s); reflexivity.
Qed.

Lemma onmessage_transcript (a : arrival) (s : state) :
  transcript (snd (onmessage atob s a))
  = transcript s
    ++ (if turnComplete (msg a) && negb (rejects atob a)
        then [placeholder a] else []).
Proof.
  unfold onmessage.
  pose proof (handleAudio_outcome a s) as Ho.
  pose proof (handleAudio_transcript a s) as Ht.
  destruct (handleAudio atob a s) as [o s1]. cbn [fst snd] in *.
  destruct (rejects atob a) eqn:Hr.
  - rewrite andb_false_r, app_nil_r.
    unfold rejects in Hr.
    destruct (audioData (msg a)) as [d |]; [| discriminate].
    destruct (truthy d); [| discriminate].
    destruct (decode atob d); [| discriminate].
    subst o. exact Ht.
  - subst o. cbn [snd]. rewrite andb_true_r.
    unfold handleInterrupted, handleTurnComplete.
    destruct (turnComplete (msg a)), (interrupted (msg a)); cbn;
      rewrite Ht, ?app_nil_r; reflexivity.
Qed.

(** [onended] of a list of nodes removes them from the live set. *)
Lemma onended_all_live (ids : list nat) :
  forall s,
    sourceNodes (fold_left (fun s id => onended id s) ids s)
    = sourceNodes s ∖ list_to_set ids.
Proof.
  induction ids as [| id ids IH]; intros s.
  - cbn. apply set_eq. intros x. rewrite elem_of_difference.
    split; [| tauto]. intros Hx. split; [exact Hx |].
    intros Hn. now apply not_elem_of_empty in Hn.
  - cbn [fold_left]. rewrite IH. cbn [sourceNodes onended].
    apply set_eq. intros x.
    rewrite !elem_of_difference, !elem_of_list_to_set, elem_of_cons,
      elem_of_singleton.
    tauto.
Qed.

Lemma onended_all_refs (ids : list nat) :
  forall s,
    let s' := fold_left (fun s id => onended id s) ids s in
    nextStartTime s' = nextStartTime s /\ nodes s' = nodes s /\
    transcript s' = transcript s.
Proof.
  induction ids as [| id ids IH]; intros s; [cbn; auto |].
  cbn [fold_left]. destruct (IH (onended id s)) as (H1 & H2 & H3).
  cbv zeta. now rewrite H1, H2, H3.
Qed.

(** A message with the interruption marker that was processed leaves the
    cursor at 0 and no live node. *)
Lemma interrupted_resets (a : arrival) (s : state) :
  interrupted (msg a) = true ->
  fst (onmessage atob s a) = Returned ->
  nextStartTime (snd (onmessage atob s a)) = 0%Q /\
  sourceNodes (snd (onmessage atob s a)) = ∅.
Proof.
  intros Hi. unfold onmessage.
  destruct (handleAudio atob a s) as [[| e] s1]; [| discriminate].
  intros _. cbn [snd]. unfold handleInterrupted. rewrite Hi. auto.
Qed.

End SchedulerFacts.

(** X10: between any two events of a session (messages of any kind,
    malformed or not, and ended clips, in any order) every node of the
    live set is on the heap and has not been stopped, the speaking flag is
    set whenever the live set is not empty, the playback cursor is not
    negative, and no node was started at a negative time. *)
Theorem scheduler_consistent
    (atob : Js.jsstring -> option Js.jsstring) (es : list Scheduler.event) :
  Scheduler.consistent (Scheduler.run atob Playback.initial es).
Proof.
  unfold Scheduler.run.
  generalize consistent_initial. generalize Playback.initial.
  induction es as [| e es IH]; intros s Hs; [exact Hs |].
  cbn [fold_left]. apply IH. now apply consistent_step.
Qed.

(** X11: the transcript is append-only and holds one placeholder entry,
    with role model, text (Audio Response) and the time of arrival, for
    each message that carries the turn-complete marker and whose audio
    branch does not throw, in order of arrival; a message whose payload is
    malformed loses its marker, and interruption adds nothing. *)
Theorem transcript_of_run
    (atob : Js.jsstring -> option Js.jsstring)
    (s : Playback.state) (l : list Playback.arrival) :
  Playback.transcript (Playback.run atob s l)
  = Playback.transcript s
    ++ map Scheduler.placeholder
         (List.filter
            (fun a => Playback.turnComplete (Playback.msg a)
                      && negb (Scheduler.rejects atob a)) l).
Proof.
  revert s. induction l as [| a l IH]; intros s.
  - cbn. now rewrite app_nil_r.
  - change (Playback.run atob s (a :: l))
      with (Playback.run atob (snd (Playback.onmessage atob s a)) l).
    rewrite IH, onmessage_transcript. cbn [List.filter].
    destruct (Playback.turnComplete (Playback.msg a)
              && negb (Scheduler.rejects atob a)); cbn [map].
    + now rewrite <- app_assoc.
    + now rewrite app_nil_r.
Qed.

(** X12: when every live clip has ended, in whatever order and together
    with any clips that ended before, the live set is empty and the
    speaking flag is cleared; cursor, heap and transcript are as they
    were. *)
Theorem all_clips_ended_clears_speaking
    (s : Playback.state) (ids : list nat) :
  ids <> [] ->
  (forall id, id ∈ Playback.sourceNodes s -> id ∈ ids) ->
  let s' := fold_left (fun s id => Playback.onended id s) ids s in
  Playback.sourceNodes s' = ∅ /\
  Playback.isAiSpeaking s' = false /\
  Playback.nextStartTime s' = Playback.nextStartTime s /\
  Playback.nodes s' = Playback.nodes s /\
  Playback.transcript s' = Playback.transcript s.
Proof.
  intros Hne Hall. cbv zeta.
  destruct (onended_all_refs ids s) as (H1 & H2 & H3).
  assert (Hempty : Playback.sourceNodes
                     (fold_left (fun s id => Playback.onended id s) ids s) = ∅).
  { rewrite onended_all_live. apply leibniz_equiv.
    intros id. split; [| intros H; now apply not_elem_of_empty in H].
    intros Hid. apply elem_of_difference in Hid as [Hin Hout].
    exfalso. apply Hout. apply elem_of_list_to_set. auto. }
  repeat split; auto.
  destruct (exists_last Hne) as (ids' & last & ->).
  rewrite fold_left_app in *. cbn [fold_left] in *.
  cbn in Hempty. cbn. rewrite Hempty.
  destruct (decide (size (∅ : gset nat) = 0%nat)) as [_ | Hbad];
    [reflexivity |].
  exfalso. apply Hbad. apply size_empty.
Qed.

Lemma all_clips_ended_clears_speaking_witness :
  let s := Playback.run Playback.atob_id Playback.initial
             [Playback.audioMessage [1; 0; 2; 0]%N 0;
              Playback.audioMessage [3; 0]%N (1 # 2)] in
  [1; 0]%nat <> [] /\
  (forall id, id ∈ Playback.sourceNodes s -> id ∈ [1; 0]%nat) /\
  Playback.isAiSpeaking s = true /\
  Playback.isAiSpeaking
    (fold_left (fun s id => Playback.onended id s) [1; 0]%nat s) = false.
Proof.
  intros s.
  assert (H1 : [1; 0]%nat <> []) by discriminate.
  assert (H2 : forall id, id ∈ Playback.sourceNodes s -> id ∈ [1; 0]%nat).
  { intros id Hid.
    change (Playback.sourceNodes s)
      with ((∅ ∪ {[0%nat]}) ∪ {[1%nat]} : gset nat) in Hid.
    apply elem_of_union in Hid as [Hid | Hid].
    - apply elem_of_union in Hid as [Hid | Hid].
      + now apply not_elem_of_empty in Hid.
      + apply elem_of_singleton in Hid as ->. right. left.
    - apply elem_of_singleton in Hid as ->. left. }
  split; [exact H1 |]. split; [exact H2 |]. split; [reflexivity |].
  exact (proj1 (proj2 (all_clips_ended_clears_speaking s [1; 0]%nat H1 H2))).
Defined.

(** X13: after an interruption the backlog is gone.  The first clip that
    arrives after a processed interruption is scheduled at the device
    clock's reading, however far the cursor had run ahead before, and it
    is then the only live node. *)
Theorem clip_after_interruption_starts_now
    (atob : Js.jsstring -> option Js.jsstring)
    (s : Playback.state) (a b : Playback.arrival)
    (d : Js.jsstring) (float32 : list Q) :
  Playback.interrupted (Playback.msg a) = true ->
  fst (Playback.onmessage atob s a) = Playback.Returned ->
  Playback.audioData (Playback.msg b) = Some d ->
  Js.truthy d = true ->
  Playback.decode atob d = inr float32 ->
  Playback.interrupted (Playback.msg b) = false ->
  (0 <= Playback.currentTime b)%Q ->
  let s1 := snd (Playback.onmessage atob s a) in
  let s2 := snd (Playback.onmessage atob s1 b) in
  exists n,
    Playback.nodes s2 = Playback.nodes s1 ++ [n] /\
    Playback.buffer n = float32 /\
    (Playback.when n == Playback.currentTime b)%Q /\
    Playback.stopped n = false /\
    Playback.sourceNodes s2 = {[ length (Playback.nodes s1) ]} /\
    Playback.isAiSpeaking s2 = true.
Proof.
  intros Hi Hr Hd Ht Hdec Hni Hnow. cbv zeta.
  destruct (interrupted_resets atob a s Hi Hr) as [Hc Hset].
  set (s1 := snd (Playback.onmessage atob s a)) in *.
  unfold Playback.onmessage, Playback.handleAudio.
  rewrite Hd, Ht, Hdec. cbn [snd].
  unfold Playback.handleInterrupted. rewrite Hni.
  match goal with |- context [Playback.handleTurnComplete b ?t] =>
    set (t1 := t);
    destruct (handleTurnComplete_refs b t1) as (Hs & _ & Hl & Hn) end.
  rewrite Hn, Hl, Hs. subst t1.
  cbn [Playback.nodes Playback.sourceNodes Playback.isAiSpeaking
       Playback.nextStartTime].
  eexists. split; [reflexivity |].
  cbn [Playback.buffer Playback.when Playback.stopped].
  split; [reflexivity |]. split; [| split; [reflexivity | split]].
  - rewrite Hc.
    destruct (Qlt_le_dec 0 (Playback.currentTime b)) as [_ | Hle];
      [reflexivity |].
    now apply Qle_antisym.
  - rewrite Hset. apply union_empty_l_L.
  - reflexivity.
Qed.

Lemma clip_after_interruption_starts_now_witness :
  let s := Playback.run Playback.atob_id Playback.initial
             [Playback.audioMessage [1; 0; 2; 0]%N 0;
              Playback.audioMessage [3; 0]%N (1 # 24000)] in
  let a := Playback.interruptMessage (1 # 48000) in
  let b := Playback.audioMessage [4; 0]%N (1 # 40000) in
  (Playback.interrupted (Playback.msg a) = true /\
   fst (Playback.onmessage Playback.atob_id s a) = Playback.Returned /\
   Playback.decode Playback.atob_id [4; 0]%N = inr [4 / 32768]%Q /\
   (0 <= Playback.currentTime b)%Q) /\
  exists n,
    Playback.nodes
      (snd (Playback.onmessage Playback.atob_id
              (snd (Playback.onmessage Playback.atob_id s a)) b))
    = Playback.nodes (snd (Playback.onmessage Playback.atob_id s a)) ++ [n] /\
    (Playback.when n == 1 # 40000)%Q.
Proof.
  intros s a b.
  assert (H0 : (0 <= Playback.currentTime b)%Q) by discriminate.
  split; [repeat split; exact H0 |].
  destruct (clip_after_interruption_starts_now Playback.atob_id s a b
              [4; 0]%N [4 / 32768]%Q eq_refl eq_refl eq_refl eq_refl
              eq_refl eq_refl H0) as (n & Hn & _ & Hw & _).
  exists n. split; [exact Hn | exact Hw].
Defined.

(* ====================================================================== *)
(** * Further properties of the canvas *)
(* ====================================================================== *)

Section GestureFacts.
Import Js Canvas Gesture.
Local Open Scope Q_scope.

(** Moves with the pen down only extend the stroke in progress. *)
Lemma pen_moves (positions : list (Q * Q)) :
  forall s,
    activeTool s = pen -> isDragging s = true ->
    moves s positions
    = set_content s pen (paths s)
        (currentPath s
         ++ map (fun m => L (screenToWorld s (fst m) (snd m))) positions)
        (notes s) (shapes s).
Proof.
  induction positions as [| m rest IH]; intros s Htool Hdrag.
  - cbn. rewrite app_nil_r. destruct s. cbn in *. now subst.
  - cbn [moves fold_left]. fold (moves (handleMouseMove s (fst m) (snd m)) rest).
    assert (E : handleMouseMove s (fst m) (snd m)
                = set_content s pen (paths s)
                    (currentPath s ++ [L (screenToWorld s (fst m) (snd m))])
                    (notes s) (shapes s)).
    { unfold handleMouseMove. now rewrite Hdrag, Htool. }
    rewrite E. rewrite IH by (cbn; first [reflexivity | assumption]).
    cbn. now rewrite <- app_assoc.
Qed.

(** Moves with the hand down add the pointer's displacement to the
    offset and keep everything else. *)
Lemma hand_moves (positions : list (Q * Q)) :
  forall s,
    activeTool s = hand -> isDragging s = true ->
    let s' := moves s positions in
    let p := List.last positions (x (dragStart s), y (dragStart s)) in
    x (offset s') == x (offset s) + (fst p - x (dragStart s)) /\
    y (offset s') == y (offset s) + (snd p - y (dragStart s)) /\
    scale s' = scale s /\ viewportSize s' = viewportSize s /\
    rect s' = rect s /\ paths s' = paths s /\ notes s' = notes s /\
    shapes s' = shapes s /\ currentPath s' = currentPath s.
Proof.
  induction positions as [| m rest IH]; intros s Htool Hdrag.
  - cbn. repeat split; try reflexivity; ring.
  - cbn [moves fold_left]. fold (moves (handleMouseMove s (fst m) (snd m)) rest).
    assert (E : handleMouseMove s (fst m) (snd m)
                = set_drag
                    (set_view s (scale s)
                       {| x := x (offset s) + (fst m - x (dragStart s));
                          y := y (offset s) + (snd m - y (dragStart s)) |})
                    true {| x := fst m; y := snd m |}).
    { unfold handleMouseMove. now rewrite Hdrag, Htool. }
    rewrite E.
    match goal with |- context [moves ?t rest] =>
      destruct (IH t Htool eq_refl)
        as (Hx & Hy & Hs & Hv & Hr & Hp & Hn & Hsh & Hc) end.
    cbv zeta in *. cbn [dragStart set_drag set_view x y offset] in *.
    replace (List.last (m :: rest) (x (dragStart s), y (dragStart s)))
      with (List.last rest (fst m, snd m)).
    2:{ destruct m as [mx my]. cbn [fst snd].
        clear. revert mx my.
        induction rest as [| r rest IHr]; intros mx my; [reflexivity |].
        destruct rest as [| r' rest']; [reflexivity |].
        change (List.last (r :: r' :: rest') (mx, my))
          with (List.last (r' :: rest') (mx, my)).
        change (List.last ((mx, my) :: r :: r' :: rest')
                  (x (dragStart s), y (dragStart s)))
          with (List.last (r' :: rest') (x (dragStart s), y (dragStart s))).
        clear IHr. revert r'.
        induction rest' as [| r'' rest'' IHr']; intros r'; [reflexivity |].
        apply IHr'. }
    rewrite Hx, Hy. repeat split; try assumption; ring.
Qed.

End GestureFacts.

(** X14: a zoom gesture (wheel with ctrl or meta) leaves the scale inside
    [0.1, 5] whatever the delta and the scale before, changes nothing but
    the scale, and inside the range the new scale is the old one minus a
    thousandth of [deltaY]. *)
Theorem zoom_is_clamped (s : Canvas.state) (deltaX deltaY : Q) :
  let s' := Canvas.handleWheel s true deltaX deltaY in
  (1 # 10 <= Canvas.scale s')%Q /\ (Canvas.scale s' <= 5)%Q /\
  s' = Canvas.set_view s (Canvas.scale s') (Canvas.offset s) /\
  ((1 # 10 <= Canvas.scale s - deltaY * (1 # 1000))%Q ->
   (Canvas.scale s - deltaY * (1 # 1000) <= 5)%Q ->
   (Canvas.scale s' == Canvas.scale s - deltaY * (1 # 1000))%Q).
Proof.
  cbv zeta. cbn [Canvas.handleWheel Canvas.scale Canvas.set_view].
  split; [apply Q.min_glb; [apply Q.le_max_l | discriminate] |].
  split; [apply Q.le_min_r |]. split; [reflexivity |].
  intros Hlo Hhi.
  rewrite (Q.max_r _ _ Hlo). now apply Q.min_l.
Qed.

Lemma zoom_is_clamped_witness :
  (1 # 10 <= Canvas.scale (Viewport.arena Viewport.board) - 200 * (1 # 1000))%Q /\
  (Canvas.scale (Viewport.arena Viewport.board) - 200 * (1 # 1000) <= 5)%Q /\
  (Canvas.scale (Canvas.handleWheel (Viewport.arena Viewport.board) true 0 200)
   == Canvas.scale (Viewport.arena Viewport.board) - 200 * (1 # 1000))%Q.
Proof.
  assert (H1 : (1 # 10 <= Canvas.scale (Viewport.arena Viewport.board) - 200 * (1 # 1000))%Q)
    by discriminate.
  assert (H2 : (Canvas.scale (Viewport.arena Viewport.board) - 200 * (1 # 1000) <= 5)%Q)
    by discriminate.
  split; [exact H1 |]. split; [exact H2 |].
  exact (proj2 (proj2 (proj2 (zoom_is_clamped (Viewport.arena Viewport.board) 0 200))) H1 H2).
Defined.

(** X15: an unmodified wheel event scrolls the board: the scale and the
    content stay, and every world point is drawn [deltaX] further left and
    [deltaY] further up. *)
Theorem wheel_scroll_translates (s : Canvas.state) (deltaX deltaY : Q)
    (p : Canvas.point) :
  let s' := Canvas.handleWheel s false deltaX deltaY in
  Canvas.scale s' = Canvas.scale s /\
  Canvas.paths s' = Canvas.paths s /\ Canvas.notes s' = Canvas.notes s /\
  Canvas.shapes s' = Canvas.shapes s /\
  (Canvas.x (Canvas.worldToScreen s' p)
   == Canvas.x (Canvas.worldToScreen s p) - deltaX)%Q /\
  (Canvas.y (Canvas.worldToScreen s' p)
   == Canvas.y (Canvas.worldToScreen s p) - deltaY)%Q.
Proof.
  cbv zeta.
  split; [reflexivity |]. split; [reflexivity |]. split; [reflexivity |].
  split; [reflexivity |]. split; canvas_fields; ring.
Qed.

(** X16: dragging with the hand tool pans by the pointer's displacement.
    After [mousedown] and any run of moves the offset has grown by the
    last pointer position minus the first, whatever path the pointer took,
    nothing else of the view or the content has changed, and the world
    point that was grabbed is still under the pointer. *)
Theorem hand_drag_follows_pointer (s : Canvas.state) (x0 y0 : Q)
    (positions : list (Q * Q)) :
  Canvas.activeTool s = Canvas.hand ->
  let s' := Gesture.moves (Canvas.handleMouseDown s x0 y0) positions in
  let p := List.last positions (x0, y0) in
  (Canvas.x (Canvas.offset s') == Canvas.x (Canvas.offset s) + (fst p - x0))%Q /\
  (Canvas.y (Canvas.offset s') == Canvas.y (Canvas.offset s) + (snd p - y0))%Q /\
  Canvas.scale s' = Canvas.scale s /\
  Canvas.paths s' = Canvas.paths s /\ Canvas.notes s' = Canvas.notes s /\
  Canvas.shapes s' = Canvas.shapes s /\
  Gesture.same_point (Canvas.screenToWorld s' (fst p) (snd p))
    (Canvas.screenToWorld s x0 y0).
Proof.
  intros Htool. cbv zeta.
  assert (E : Canvas.handleMouseDown s x0 y0
              = Canvas.set_drag s true {| Canvas.x := x0; Canvas.y := y0 |}).
  { unfold Canvas.handleMouseDown. now rewrite Htool. }
  rewrite E.
  destruct (hand_moves positions
              (Canvas.set_drag s true {| Canvas.x := x0; Canvas.y := y0 |})
              Htool eq_refl)
    as (Hx & Hy & Hs & Hv & Hr & Hp & Hn & Hsh & _).
  cbv zeta in *.
  cbn [Canvas.dragStart Canvas.set_drag Canvas.x Canvas.y Canvas.offset
       Canvas.scale Canvas.viewportSize Canvas.rect Canvas.paths
       Canvas.notes Canvas.shapes] in *.
  repeat split; try assumption.
  - unfold Canvas.screenToWorld, Canvas.rectLeft. cbn [Canvas.x].
    rewrite Hx, Hs, Hv, Hr. apply Qmult_comp; [ring | reflexivity].
  - unfold Canvas.screenToWorld, Canvas.rectTop. cbn [Canvas.y].
    rewrite Hy, Hs, Hv, Hr. apply Qmult_comp; [ring | reflexivity].
Qed.

Lemma hand_drag_follows_pointer_witness :
  let positions := [(410, 300); (380, 350); (420, 280)]%Q in
  Canvas.activeTool (Viewport.arena Viewport.board) = Canvas.hand /\
  (Canvas.x (Canvas.offset
     (Gesture.moves (Canvas.handleMouseDown (Viewport.arena Viewport.board) 400 300)
        positions))
   == 0 + (420 - 400))%Q.
Proof.
  intros positions. split; [reflexivity |].
  exact (proj1 (hand_drag_follows_pointer (Viewport.arena Viewport.board) 400 300
                  positions eq_refl)).
Defined.

(** X17: a pen gesture commits exactly one path.  With the pen tool,
    [mousedown], any run of moves and [mouseup] append one path to the
    committed list: it starts at the world point of the press, has one
    line segment per move, the active colour and width 3; the stroke in
    progress is cleared, dragging has ended, and view, notes and shapes
    are untouched. *)
Theorem pen_gesture_commits_one_path (s : Canvas.state) (x0 y0 : Q)
    (positions : list (Q * Q)) :
  Canvas.activeTool s = Canvas.pen ->
  let s' := Gesture.gesture s x0 y0 positions in
  Canvas.paths s' = Canvas.paths s ++ [Gesture.inked s x0 y0 positions] /\
  Canvas.currentPath s' = [] /\ Canvas.isDragging s' = false /\
  Canvas.notes s' = Canvas.notes s /\ Canvas.shapes s' = Canvas.shapes s /\
  Canvas.scale s' = Canvas.scale s /\ Canvas.offset s' = Canvas.offset s /\
  Canvas.activeTool s' = Canvas.pen.
Proof.
  intros Htool. cbv zeta. unfold Gesture.gesture.
  assert (E : Canvas.handleMouseDown s x0 y0
              = Canvas.set_content
                  (Canvas.set_drag s true (Canvas.dragStart s)) Canvas.pen
                  (Canvas.paths s) [Canvas.M (Canvas.screenToWorld s x0 y0)]
                  (Canvas.notes s) (Canvas.shapes s)).
  { unfold Canvas.handleMouseDown. now rewrite Htool. }
  rewrite E, pen_moves by reflexivity.
  unfold Canvas.handleMouseUp. cbn. repeat split; reflexivity.
Qed.

Lemma pen_gesture_commits_one_path_witness :
  let s := Canvas.set_content (Viewport.arena Viewport.board) Canvas.pen [] [] [] [] in
  Canvas.activeTool s = Canvas.pen /\
  length (Canvas.paths (Gesture.gesture s 400 300 [(410, 300); (420, 310)]%Q))
  = 1%nat.
Proof.
  intros s. split; [reflexivity |].
  now rewrite (proj1 (pen_gesture_commits_one_path s 400 300
                        [(410, 300); (420, 310)]%Q eq_refl)).
Defined.

Section StampFacts.
Import Js Canvas Gesture.

(** With the selection tool no gesture touches the content. *)
Lemma cursor_moves (positions : list (Q * Q)) :
  forall s, activeTool s = cursor -> moves s positions = s.
Proof.
  induction positions as [| m rest IH]; intros s Htool; [reflexivity |].
  cbn [moves fold_left]. fold (moves (handleMouseMove s (fst m) (snd m)) rest).
  assert (E : handleMouseMove s (fst m) (snd m) = s).
  { unfold handleMouseMove. rewrite Htool. now destruct (isDragging s). }
  rewrite E. now apply IH.
Qed.

Lemma cursor_gesture (s : state) (x0 y0 : Q) (positions : list (Q * Q)) :
  activeTool s = cursor ->
  gesture s x0 y0 positions = set_drag s false (dragStart s).
Proof.
  intros Htool. unfold gesture.
  assert (E : handleMouseDown s x0 y0 = s).
  { unfold handleMouseDown. now rewrite Htool. }
  rewrite E, cursor_moves by exact Htool.
  unfold handleMouseUp. now rewrite Htool.
Qed.

End StampFacts.

(** X18: the note tool stamps once.  A press with the note tool appends
    one empty note at the world point of the press and switches to the
    selection tool, and no later gesture, wherever it goes, adds or
    changes any note, shape or path. *)
Theorem note_stamp_is_single_shot (s : Canvas.state) (x0 y0 x1 y1 : Q)
    (positions : list (Q * Q)) :
  Canvas.activeTool s = Canvas.note_tool ->
  let s' := Canvas.handleMouseDown s x0 y0 in
  let s'' := Gesture.gesture s' x1 y1 positions in
  Canvas.notes s'
  = Canvas.notes s
    ++ [ {| Canvas.note_x := Canvas.x (Canvas.screenToWorld s x0 y0);
            Canvas.note_y := Canvas.y (Canvas.screenToWorld s x0 y0);
            Canvas.text := [] |} ] /\
  Canvas.shapes s' = Canvas.shapes s /\ Canvas.paths s' = Canvas.paths s /\
  Canvas.activeTool s' = Canvas.cursor /\
  Canvas.notes s'' = Canvas.notes s' /\ Canvas.shapes s'' = Canvas.shapes s' /\
  Canvas.paths s'' = Canvas.paths s' /\
  Canvas.activeTool s'' = Canvas.cursor.
Proof.
  intros Htool. cbv zeta.
  assert (E : Canvas.handleMouseDown s x0 y0
              = Canvas.set_content s Canvas.cursor (Canvas.paths s)
                  (Canvas.currentPath s)
                  (Canvas.notes s
                   ++ [ {| Canvas.note_x := Canvas.x (Canvas.screenToWorld s x0 y0);
                           Canvas.note_y := Canvas.y (Canvas.screenToWorld s x0 y0);
                           Canvas.text := [] |} ])
                  (Canvas.shapes s)).
  { unfold Canvas.handleMouseDown. now rewrite Htool. }
  rewrite E, cursor_gesture by reflexivity.
  repeat split; reflexivity.
Qed.

Lemma note_stamp_is_single_shot_witness :
  let s := Canvas.set_content (Viewport.arena Viewport.board) Canvas.note_tool [] [] [] [] in
  Canvas.activeTool s = Canvas.note_tool /\
  length (Canvas.notes
            (Gesture.gesture (Canvas.handleMouseDown s 410 320) 500 500
               [(510, 510)]%Q)) = 1%nat.
Proof.
  intros s. split; [reflexivity |].
  destruct (note_stamp_is_single_shot s 410 320 500 500 [(510, 510)]%Q eq_refl)
    as (H1 & _ & _ & _ & H5 & _).
  now rewrite H5, H1.
Defined.

(** X19: the shape tool stamps once.  A press with the shape tool
    appends one shape in the active colour, its corner 50 to the left of
    and 50 above the world point of the press, and switches to the
    selection tool; notes and paths are left alone, and no later
    gesture, wherever it goes, adds or changes any shape, note or
    path. *)
Theorem shape_stamp_is_single_shot (s : Canvas.state) (x0 y0 x1 y1 : Q)
    (positions : list (Q * Q)) :
  Canvas.activeTool s = Canvas.shape_tool ->
  let s' := Canvas.handleMouseDown s x0 y0 in
  let s'' := Gesture.gesture s' x1 y1 positions in
  Canvas.shapes s'
  = Canvas.shapes s
    ++ [ {| Canvas.shape_x := (Canvas.x (Canvas.screenToWorld s x0 y0) - 50)%Q;
            Canvas.shape_y := (Canvas.y (Canvas.screenToWorld s x0 y0) - 50)%Q;
            Canvas.shape_color := Canvas.activeColor s |} ] /\
  Canvas.notes s' = Canvas.notes s /\ Canvas.paths s' = Canvas.paths s /\
  Canvas.activeTool s' = Canvas.cursor /\
  Canvas.shapes s'' = Canvas.shapes s' /\ Canvas.notes s'' = Canvas.notes s' /\
  Canvas.paths s'' = Canvas.paths s' /\
  Canvas.activeTool s'' = Canvas.cursor.
Proof.
  intros Htool. cbv zeta.
  assert (E : Canvas.handleMouseDown s x0 y0
              = Canvas.set_content s Canvas.cursor (Canvas.paths s)
                  (Canvas.currentPath s) (Canvas.notes s)
                  (Canvas.shapes s
                   ++ [ {| Canvas.shape_x :=
                             (Canvas.x (Canvas.screenToWorld s x0 y0) - 50)%Q;
                           Canvas.shape_y :=
                             (Canvas.y (Canvas.screenToWorld s x0 y0) - 50)%Q;
                           Canvas.shape_color := Canvas.activeColor s |} ])).
  { unfold Canvas.handleMouseDown. now rewrite Htool. }
  rewrite E, cursor_gesture by reflexivity.
  repeat split; reflexivity.
Qed.

Lemma shape_stamp_is_single_shot_witness :
  let s := Viewport.run (Viewport.arena Viewport.board)
             [Viewport.SetTool Canvas.shape_tool] in
  Canvas.activeTool s = Canvas.shape_tool /\
  length (Canvas.shapes
            (Gesture.gesture (Canvas.handleMouseDown s 123 456) 500 500
               [(510, 510)]%Q)) = 1%nat.
Proof.
  intros s. split; [reflexivity |].
  destruct (shape_stamp_is_single_shot s 123 456 500 500 [(510, 510)]%Q eq_refl)
    as (H1 & _ & _ & _ & H5 & _).
  now rewrite H5, H1.
Defined.

(** X21: releasing twice commits once.  [handleMouseUp] also serves
    [mouseleave]; running it a second time changes nothing, so a stroke is
    never committed twice, and in a state with no stroke in progress it
    leaves the content alone. *)
Theorem handleMouseUp_idempotent (s : Canvas.state) :
  Canvas.handleMouseUp (Canvas.handleMouseUp s) = Canvas.handleMouseUp s /\
  (length (Canvas.paths (Canvas.handleMouseUp s))
   <= S (length (Canvas.paths s)))%nat /\
  (Canvas.currentPath s = [] ->
   Canvas.paths (Canvas.handleMouseUp s) = Canvas.paths s) /\
  Canvas.notes (Canvas.handleMouseUp s) = Canvas.notes s /\
  Canvas.shapes (Canvas.handleMouseUp s) = Canvas.shapes s.
Proof.
  unfold Canvas.handleMouseUp.
  destruct s as [k o v r dr ds t c ps cur ns ss].
  cbn. destruct t, cur; cbn; rewrite ?length_app; cbn;
    repeat split; try reflexivity; try lia; try discriminate.
Qed.

Lemma handleMouseUp_idempotent_witness :
  Canvas.currentPath (Viewport.arena Viewport.board) = [] /\
  Canvas.paths (Canvas.handleMouseUp (Viewport.arena Viewport.board))
  = Canvas.paths (Viewport.arena Viewport.board).
Proof.
  split; [reflexivity |].
  exact (proj1 (proj2 (proj2 (handleMouseUp_idempotent (Viewport.arena Viewport.board))))
           eq_refl).
Defined.

(* ====================================================================== *)
(** * Further properties of the views *)
(* ====================================================================== *)

(** X22: below 100 minutes [formatTime] can be read back.  The result is
    two digits, a colon and two digits, the seconds' tens digit is below
    6, and minutes times 60 plus seconds is the argument; so two different
    elapsed times never print the same. *)
Theorem formatTime_reads_back (seconds : N) :
  (seconds < 6000)%N ->
  exists a b c d : N,
    (a < 10 /\ b < 10 /\ c < 6 /\ d < 10)%N /\
    Session.formatTime seconds
    = [48 + a; 48 + b; 58; 48 + c; 48 + d]%N /\
    seconds = ((10 * a + b) * 60 + (10 * c + d))%N.
Proof.
  intros H. rewrite (formatTime_mmss seconds H). unfold Session.mmss.
  cbv zeta. unfold Session.digit.
  exists (seconds / 60 / 10)%N, (seconds / 60 mod 10)%N,
         (seconds mod 60 / 10)%N, (seconds mod 60 mod 10)%N.
  assert (Hm : (seconds / 60 < 100)%N)
    by (apply N.Div0.div_lt_upper_bound; lia).
  assert (Hs : (seconds mod 60 < 60)%N) by (apply N.mod_lt; lia).
  pose proof (N.Div0.div_mod seconds 60) as E1.
  pose proof (N.Div0.div_mod (seconds / 60) 10) as E2.
  pose proof (N.Div0.div_mod (seconds mod 60) 10) as E3.
  split; [| split; [reflexivity | lia]].
  repeat split.
  - apply N.Div0.div_lt_upper_bound. lia.
  - apply N.mod_lt. lia.
  - apply N.Div0.div_lt_upper_bound. lia.
  - apply N.mod_lt. lia.
Qed.

Lemma formatTime_reads_back_witness :
  (3599 < 6000)%N /\
  exists a b c d : N,
    Session.formatTime 3599 = [48 + a; 48 + b; 58; 48 + c; 48 + d]%N /\
    3599%N = ((10 * a + b) * 60 + (10 * c + d))%N.
Proof.
  assert (H : (3599 < 6000)%N) by reflexivity.
  split; [exact H |].
  destruct (formatTime_reads_back 3599 H) as (a & b & c & d & _ & E1 & E2).
  exists a, b, c, d. split; assumption.
Defined.

(** X23: the first inline image wins.  When the parts before a part with
    [inlineData] have none, the image URL is the data URL of that part,
    whatever parts follow it. *)
Theorem extractImage_takes_first (before after : list Home.Part)
    (part : Home.Part) (data : option Js.jsstring) :
  Forall (fun p => Home.inlineData p = None) before ->
  Home.inlineData part = Some data ->
  Home.extractImage (before ++ part :: after)
  = Js.lit "data:image/png;base64," ++ Home.interpolate data.
Proof.
  intros Hb Hp. induction Hb as [| p ps Hn _ IH].
  - cbn [app Home.extractImage]. now rewrite Hp.
  - cbn [app Home.extractImage]. now rewrite Hn.
Qed.

Lemma extractImage_takes_first_witness :
  let text := {| Home.inlineData := None |} in
  let first := {| Home.inlineData := Some (Some (Js.lit "AAAA")) |} in
  let second := {| Home.inlineData := Some (Some (Js.lit "BBBB")) |} in
  Forall (fun p => Home.inlineData p = None) [text] /\
  Home.extractImage ([text] ++ first :: [second])
  = Js.lit "data:image/png;base64,AAAA".
Proof.
  intros text first second.
  assert (H : Forall (fun p => Home.inlineData p = None) [text])
    by (repeat constructor).
  split; [exact H |].
  exact (extractImage_takes_first [text] [second] first _ H eq_refl).
Defined.

(** X24: an attempt that did not start a session can simply be repeated.
    Whatever made [handleStartInteraction] not call [onStart] (a blank
    topic, an exception, a response without image), the next attempt from
    the state it left behaves exactly as it would have from the state
    before. *)
Theorem failed_start_can_be_retried (s : Home.state)
    (g g' : Home.generation) :
  snd (Home.handleStartInteraction s g) = None ->
  Home.handleStartInteraction (fst (Home.handleStartInteraction s g)) g'
  = Home.handleStartInteraction s g'.
Proof.
  unfold Home.handleStartInteraction.
  destruct (Js.truthy (Js.trim (Home.topic s))) eqn:Ht; cbn [negb].
  - destruct g as [| parts]; cbn [fst snd Home.topic].
    + intros _. now rewrite Ht.
    + destruct (negb (Js.truthy match parts with
                                 | Some ps => Home.extractImage ps
                                 | None => []
                                 end)); cbn [fst snd Home.topic];
        [| discriminate].
      intros _. now rewrite Ht.
  - intros _. cbn [fst]. now rewrite Ht.
Qed.

Lemma failed_start_can_be_retried_witness :
  let s := {| Home.topic := Js.lit "tides"; Home.isLoading := false |} in
  let g' := Home.Responds
              (Some [ {| Home.inlineData := Some (Some (Js.lit "QUJD")) |} ]) in
  snd (Home.handleStartInteraction s Home.Throws) = None /\
  snd (Home.handleStartInteraction
         (fst (Home.handleStartInteraction s Home.Throws)) g')
  = Some (Js.lit "tides", Js.lit "data:image/png;base64,QUJD").
Proof.
  intros s g'. split; [reflexivity |].
  now rewrite (failed_start_can_be_retried s Home.Throws g' eq_refl).
Defined.

(** X25: the loading message index never leaves the table.  After any
    number of ticks from 0 the index is the number of ticks modulo 5, and
    [LOADING_MESSAGES] has a message at it. *)
Theorem loading_index_in_bounds (n : nat) :
  Loading.after n = (n mod 5)%nat /\
  exists m, Loading.LOADING_MESSAGES !! Loading.after n = Some m.
Proof.
  assert (E : Loading.after n = (n mod 5)%nat).
  { induction n as [| n IH]; [reflexivity |].
    unfold Loading.after in *. rewrite Nat.iter_succ, IH.
    unfold Loading.next. change (length Loading.LOADING_MESSAGES) with 5%nat.
    rewrite Nat.Div0.add_mod_idemp_l. f_equal. lia. }
  split; [exact E |].
  apply lookup_lt_is_Some_2. rewrite E.
  change (length Loading.LOADING_MESSAGES) with 5%nat.
  apply Nat.mod_upper_bound. lia.
Qed.

Section ConnectionFacts.
Import Js Connection.

Lemma orElse_nonempty (a : option jsstring) (b : jsstring) :
  b <> [] -> orElse a b <> [].
Proof.
  intros Hb. unfold orElse. destruct a as [[| c s] |]; cbn; try exact Hb.
  discriminate.
Qed.

Lemma step_error_has_message (s : state) (e : event) :
  error_has_message s -> error_has_message (step s e).
Proof.
  unfold error_has_message. intros Hs.
  destruct e as [| | | m |]; cbn [step connectionState errorMessage].
  - intros E. discriminate E.
  - intros E. discriminate E.
  - intros _. discriminate.
  - intros _. apply orElse_nonempty. discriminate.
  - destruct (connectionState s) eqn:Hc;
      cbn [connectionState errorMessage]; intros E;
      try discriminate E; congruence.
Qed.

End ConnectionFacts.

(** X26: the error screen always has something to say.  Whatever
    callbacks fire and however often the user retries, when the error
    screen is rendered its message is not empty: an exception without a
    message falls back to a fixed text. *)
Theorem error_screen_has_message (es : list Connection.event)
    (message : Js.jsstring) :
  Connection.render (Connection.run Connection.initial es)
  = Connection.ErrorScreen message ->
  message <> [].
Proof.
  assert (H : Connection.error_has_message (Connection.run Connection.initial es)).
  { unfold Connection.run.
    assert (H0 : Connection.error_has_message Connection.initial)
      by (intros E; discriminate).
    revert H0. generalize Connection.initial.
    induction es as [| e es IH]; intros s Hs; [exact Hs |].
    cbn [fold_left]. apply IH. now apply step_error_has_message. }
  unfold Connection.render, Connection.error_has_message in *.
  destruct (Connection.connectionState _); try discriminate.
  intros [= <-]. now apply H.
Qed.

Lemma error_screen_has_message_witness :
  let es := [Connection.Opened; Connection.ConnectFailed (Some []);
             Connection.RetryClicked; Connection.ConnectFailed None] in
  Connection.render (Connection.run Connection.initial es)
  = Connection.ErrorScreen (Js.lit "Failed to initialize audio.") /\
  Js.lit "Failed to initialize audio." <> [].
Proof.
  intros es.
  assert (H : Connection.render (Connection.run Connection.initial es)
              = Connection.ErrorScreen (Js.lit "Failed to initialize audio."))
    by reflexivity.
  split; [exact H |].
  exact (error_screen_has_message es _ H).
Defined.

Section AppFacts.
Import Js App.

(** What [onStart] receives when it is called. *)
Lemma onStart_arguments (s : Home.state) (g : Home.generation)
    (t u : jsstring) :
  snd (Home.handleStartInteraction s g) = Some (t, u) ->
  trim (Home.topic s) <> [] /\ t = Home.topic s /\
  exists data, u = lit "data:image/png;base64," ++ data.
Proof.
  unfold Home.handleStartInteraction.
  destruct (truthy (trim (Home.topic s))) eqn:Ht; [| discriminate].
  apply truthy_nonempty in Ht. cbn [negb].
  destruct g as [| [ps |]]; try discriminate.
  destruct (truthy (Home.extractImage ps)) eqn:Hu; [| discriminate].
  cbn. intros [= <- <-].
  destruct (extractImage_truthy ps Hu) as (p & data & _ & _ & He).
  split; [exact Ht |]. split; [reflexivity |].
  exists (Home.interpolate data). exact He.
Qed.

(** What [onEnd] receives when it is called. *)
Lemma onEnd_argument (s : Session.state) (b : Session.button)
    (data : Session.SessionData) :
  Session.click s b = Some data ->
  Session.topic data = Session.topicProp s /\ Session.images data = [].
Proof.
  unfold Session.click.
  destruct (Session.connection s), b; try discriminate;
    intros [= <-]; split; reflexivity.
Qed.

Lemma wired_step (s : state) (e : event) : wired s -> wired (step s e).
Proof.
  unfold wired, step, render.
  destruct (currentView s) eqn:Hv.
  - intros ->. destruct e as [typed g | |]; try reflexivity.
    destruct (snd (Home.handleStartInteraction _ g)) as [[t u] |] eqn:Hr;
      [| reflexivity].
    destruct (onStart_arguments _ g t u Hr) as (Ht & -> & data & ->).
    cbn. split; [exact Ht | now exists data].
  - intros (Ht & data & Hi).
    destruct e as [| c el tr b |]; rewrite ?Hv; try (split; eauto; fail).
    destruct (Session.click _ b) as [d |] eqn:Hc.
    + destruct (onEnd_argument _ b d Hc) as [H1 H2].
      cbn in *. split; [exact Ht |]. exists d. auto.
    + rewrite Hv. split; eauto.
  - intros (Ht & data & Hd & H1 & H2). rewrite Hd.
    destruct e; rewrite ?Hv; try (split; [exact Ht | exists data; auto]; fail).
    reflexivity.
Qed.

End AppFacts.

(** X27: the three views stay wired.  Starting from the home view and
    whatever the mounted views do, the arena is only ever shown with a
    topic that is not blank and an image that is a PNG data URL, the
    summary always has its session data, whose topic is the one the arena
    ran with, and the home view is only ever shown in the initial state;
    [App] never renders nothing. *)
Theorem app_views_stay_wired (es : list App.event) :
  App.wired (App.run App.initial es) /\
  App.render (App.run App.initial es) <> App.Nothing.
Proof.
  assert (H : App.wired (App.run App.initial es)).
  { unfold App.run.
    assert (H0 : App.wired App.initial) by reflexivity.
    revert H0. generalize App.initial.
    induction es as [| e es IH]; intros s Hs; [exact Hs |].
    cbn [fold_left]. apply IH. now apply wired_step. }
  split; [exact H |].
  unfold App.wired, App.render in *.
  destruct (App.currentView _); try discriminate.
  destruct H as (_ & data & -> & _). discriminate.
Qed.

(** X28: a whole session, end to end.  A topic that is not blank and a
    response with an image start the arena with that topic; ending the
    session there, connected or disconnected, shows the summary with the
    formatted elapsed time, the topic as typed and the transcript of the
    arena; restarting from the summary gives back the initial state. *)
Theorem session_flow (typed : Js.jsstring) (ps : list Home.Part)
    (elapsed : N) (transcript : list Playback.TranscriptEntry)
    (live : bool) :
  Js.trim typed <> [] ->
  Home.extractImage ps <> [] ->
  let connection := if live then Session.connected else Session.disconnected in
  let started := App.step App.initial
                   (App.StartInteraction typed (Home.Responds (Some ps))) in
  let ended := App.step started
                 (App.ArenaClick connection elapsed transcript
                    Session.EndSession) in
  App.render started = App.ArenaScreen typed (Home.extractImage ps) /\
  App.render ended
  = App.SummaryScreen
      {| Session.duration := Session.formatTime elapsed;
         Session.topic := typed;
         Session.transcript := transcript;
         Session.images := [] |} /\
  App.step ended App.Restart = App.initial.
Proof.
  intros Ht Hu. cbv zeta.
  apply truthy_nonempty in Ht. apply truthy_nonempty in Hu.
  assert (E : App.step App.initial
                (App.StartInteraction typed (Home.Responds (Some ps)))
              = App.handleStart App.initial typed (Home.extractImage ps)).
  { unfold App.step. cbn [App.render App.initial App.currentView].
    unfold Home.handleStartInteraction. cbn [Home.topic].
    now rewrite Ht, Hu. }
  rewrite E. split; [reflexivity |].
  destruct live; split; reflexivity.
Qed.

Lemma session_flow_witness :
  let ps := [ {| Home.inlineData := Some (Some (Js.lit "QUJD")) |} ] in
  Js.trim (Js.lit " tides ") <> [] /\ Home.extractImage ps <> [] /\
  App.render
    (App.step App.initial
       (App.StartInteraction (Js.lit " tides ") (Home.Responds (Some ps))))
  = App.ArenaScreen (Js.lit " tides ") (Home.extractImage ps).
Proof.
  intros ps.
  assert (H1 : Js.trim (Js.lit " tides ") <> []) by discriminate.
  assert (H2 : Home.extractImage ps <> []) by discriminate.
  split; [exact H1 |]. split; [exact H2 |].
  exact (proj1 (session_flow (Js.lit " tides ") ps 0 [] true H1 H2)).
Defined.

(** X29: the analysis effect always ends the spinner.  Once the effect
    has settled the summary is no longer loading; the request is made
    exactly when the transcript is not empty; and statistics are shown
    only when the request was made, answered with a non-empty text, and
    that text parsed. *)
Theorem analysis_effect_settles (data : Session.SessionData)
    (g : Summary.generation) :
  let r := Summary.analyzed data g in
  Summary.loading (fst r) = false /\
  Summary.render (fst r) <> Summary.Spinner /\
  (snd r = false <-> Session.transcript data = []) /\
  (snd r = false -> Summary.render (fst r) = Summary.NoAnalysis) /\
  (forall a, Summary.render (fst r) = Summary.Stats a ->
     snd r = true /\
     exists t, Js.truthy t = true /\ g = Summary.Responds (Some t) (Some a)).
Proof.
  cbv zeta. unfold Summary.analyzed.
  destruct (Session.transcript data) as [| e l].
  - cbn. split; [reflexivity |]. split; [discriminate |].
    split; [tauto |]. split; [reflexivity |]. intros a Ha. discriminate Ha.
  - cbn [fst snd].
    assert (Hsettled :
      forall st : Summary.state,
        Summary.loading st = false ->
        (forall a, Summary.analysis st = Some a ->
           exists t, Js.truthy t = true /\
                     g = Summary.Responds (Some t) (Some a)) ->
        Summary.loading st = false /\
        Summary.render st <> Summary.Spinner /\
        (true = false <-> e :: l = []) /\
        (true = false -> Summary.render st = Summary.NoAnalysis) /\
        (forall a, Summary.render st = Summary.Stats a ->
           true = true /\
           exists t, Js.truthy t = true /\
                     g = Summary.Responds (Some t) (Some a))).
    { intros st Hl Ha. unfold Summary.render. rewrite Hl.
      split; [reflexivity |].
      split; [destruct (Summary.analysis st); discriminate |].
      split; [split; discriminate |]. split; [discriminate |].
      intros a Hr. split; [reflexivity |]. apply Ha.
      destruct (Summary.analysis st); [now injection Hr as -> | discriminate]. }
    destruct g as [| [t |] parsed]; try (apply Hsettled; [reflexivity |];
      intros a Ha; discriminate Ha).
    destruct (Js.truthy t) eqn:Ht; [| apply Hsettled; [reflexivity |];
      intros a Ha; discriminate Ha].
    destruct parsed as [a' |]; apply Hsettled; try reflexivity.
    + intros a [= <-]. now exists t.
    + intros a Ha. discriminate Ha.
Qed.

Lemma analysis_effect_settles_witness :
  let data := {| Session.duration := Js.lit "00:05"; Session.topic := Js.lit "x";
                 Session.transcript := []; Session.images := [] |} in
  snd (Summary.analyzed data Summary.Throws) = false /\
  Summary.render (fst (Summary.analyzed data Summary.Throws))
  = Summary.NoAnalysis.
Proof.
  intros data.
  assert (H : snd (Summary.analyzed data Summary.Throws) = false) by reflexivity.
  split; [exact H |].
  exact (proj1 (proj2 (proj2 (proj2
           (analysis_effect_settles data Summary.Throws)))) H).
Defined.

(** X30: leaving through the error screen never asks for an analysis.
    The session data of "Return to Home" has an empty transcript, so the
    summary makes no request and shows that no analysis is available;
    the same holds for "End Session" before any turn has completed. *)
Theorem empty_session_skips_analysis (s : Session.state)
    (b : Session.button) (data : Session.SessionData)
    (g : Summary.generation) :
  Session.click s b = Some data ->
  b = Session.ReturnToHome \/ Session.transcriptRef s = [] ->
  snd (Summary.analyzed data g) = false /\
  Summary.render (fst (Summary.analyzed data g)) = Summary.NoAnalysis.
Proof.
  intros Hc Hor.
  assert (Ht : Session.transcript data = []).
  { unfold Session.click in Hc.
    destruct (Session.connection s), b; try discriminate;
      injection Hc as <-; cbn; destruct Hor as [E | E];
      try discriminate E; auto. }
  unfold Summary.analyzed. rewrite Ht. split; reflexivity.
Qed.

Lemma empty_session_skips_analysis_witness :
  let s := {| Session.connection := Session.error; Session.elapsedTime := 75;
              Session.topicProp := Js.lit "tides";
              Session.transcriptRef :=
                [ {| Playback.role := Js.lit "model";
                     Playback.text := Js.lit "(Audio Response)";
                     Playback.timestamp := 0 |} ] |} in
  let data := {| Session.duration := Js.lit "0:00";
                 Session.topic := Js.lit "tides";
                 Session.transcript := []; Session.images := [] |} in
  Session.click s Session.ReturnToHome = Some data /\
  snd (Summary.analyzed data
         (Summary.Responds (Some (Js.lit "{}")) None)) = false.
Proof.
  intros s data. split; [reflexivity |].
  exact (proj1 (empty_session_skips_analysis s Session.ReturnToHome data
                  (Summary.Responds (Some (Js.lit "{}")) None)
                  eq_refl (or_introl eq_refl))).
Defined.
